(** * stress-landlock: a shallow embedding of [stress-landlock.c]

    The landlock stressor of stress-ng is made of four cooperating
    pieces, all modelled below from the C source:

    - [stress_landlock_flag], the procedure one forked child runs to
      restrict itself with a candidate access mask;
    - [stress_landlock_test], the harness that forks that child, waits
      for it and updates the failure counter;
    - [stress_landlock], the driver looping over the flag table;
    - [stress_landlock_many], the recursive enumerator that attaches
      rules to as many files as it can reach.

    System calls are the environment: each model takes the results the
    kernel hands back as an explicit argument and produces the list of
    calls issued (a trace) next to the value the C function returns. *)

From Stdlib Require Import ZArith List String Bool Lia DecimalString.
Import ListNotations.
Open Scope Z_scope.

(* ================================================================= *)
(** ** Machine integers *)

(** A store into a [uint32_t] object. *)
Definition to_uint32 (x : Z) : Z := x mod 2 ^ 32.

(** A store into a [__u64] object. *)
Definition to_uint64 (x : Z) : Z := x mod 2 ^ 64.

(** [~x] on an [unsigned int] operand. *)
Definition not_uint32 (x : Z) : Z := to_uint32 (Z.lnot x).

(* ================================================================= *)
(** ** Constants *)

Definition EXIT_SUCCESS : Z := 0.
Definition PATH_MAX : nat := 4096.

Definition SHIM_LANDLOCK_CREATE_RULESET_VERSION : Z := Z.shiftl 1 0.

Definition SHIM_LANDLOCK_ACCESS_FS_EXECUTE : Z := Z.shiftl 1 0.
Definition SHIM_LANDLOCK_ACCESS_FS_WRITE_FILE : Z := Z.shiftl 1 1.
Definition SHIM_LANDLOCK_ACCESS_FS_READ_FILE : Z := Z.shiftl 1 2.
Definition SHIM_LANDLOCK_ACCESS_FS_READ_DIR : Z := Z.shiftl 1 3.
Definition SHIM_LANDLOCK_ACCESS_FS_REMOVE_DIR : Z := Z.shiftl 1 4.
Definition SHIM_LANDLOCK_ACCESS_FS_REMOVE_FILE : Z := Z.shiftl 1 5.
Definition SHIM_LANDLOCK_ACCESS_FS_MAKE_CHAR : Z := Z.shiftl 1 6.
Definition SHIM_LANDLOCK_ACCESS_FS_MAKE_DIR : Z := Z.shiftl 1 7.
Definition SHIM_LANDLOCK_ACCESS_FS_MAKE_REG : Z := Z.shiftl 1 8.
Definition SHIM_LANDLOCK_ACCESS_FS_MAKE_SOCK : Z := Z.shiftl 1 9.
Definition SHIM_LANDLOCK_ACCESS_FS_MAKE_FIFO : Z := Z.shiftl 1 10.
Definition SHIM_LANDLOCK_ACCESS_FS_MAKE_BLOCK : Z := Z.shiftl 1 11.
Definition SHIM_LANDLOCK_ACCESS_FS_MAKE_SYM : Z := Z.shiftl 1 12.

Definition SHIM_LANDLOCK_ACCESS_ALL : Z :=
  Z.lor SHIM_LANDLOCK_ACCESS_FS_EXECUTE
  (Z.lor SHIM_LANDLOCK_ACCESS_FS_WRITE_FILE
  (Z.lor SHIM_LANDLOCK_ACCESS_FS_READ_FILE
  (Z.lor SHIM_LANDLOCK_ACCESS_FS_READ_DIR
  (Z.lor SHIM_LANDLOCK_ACCESS_FS_REMOVE_DIR
  (Z.lor SHIM_LANDLOCK_ACCESS_FS_REMOVE_FILE
  (Z.lor SHIM_LANDLOCK_ACCESS_FS_MAKE_CHAR
  (Z.lor SHIM_LANDLOCK_ACCESS_FS_MAKE_DIR
  (Z.lor SHIM_LANDLOCK_ACCESS_FS_MAKE_REG
  (Z.lor SHIM_LANDLOCK_ACCESS_FS_MAKE_SOCK
  (Z.lor SHIM_LANDLOCK_ACCESS_FS_MAKE_FIFO
  (Z.lor SHIM_LANDLOCK_ACCESS_FS_MAKE_BLOCK
         SHIM_LANDLOCK_ACCESS_FS_MAKE_SYM))))))))))).

(** [open(2)] flags and mode bits, with their Linux values (octal in
    the headers). *)
Definition O_RDONLY : Z := 0.
Definition O_WRONLY : Z := 1.
Definition O_RDWR : Z := 2.
Definition O_CREAT : Z := 64.
Definition O_NONBLOCK : Z := 2048.
Definition O_CLOEXEC : Z := 524288.
Definition O_PATH : Z := 2097152.

(* ================================================================= *)
(** ** Traces *)

(** The calls a process issues, with the value each one returned.
    [EvCall] marks entry into [stress_landlock_many]. *)
Inductive event : Type :=
| EvOpen (path : string) (flags : Z) (ret : Z)
| EvClose (fd : Z)
| EvCreateRuleset (handled_access_fs : option Z) (flags : Z) (ret : Z)
| EvAddRule (ruleset_fd : Z) (allowed_access : Z) (parent_fd : Z) (ret : Z)
| EvPrctlNoNewPrivs (ret : Z)
| EvRestrictSelf (ruleset_fd : Z) (ret : Z)
| EvUnlink (path : string)
| EvLog (msg : string)
| EvFork (ret : Z)
| EvWaitpid (pid : Z) (ret : Z)
| EvKillWait (pid : Z)
| EvScandir (path : string) (n : Z)
| EvCall (path : string) (depth : Z).

Definition trace : Type := list event.

(** A computation that has issued [t] and goes on as [k]. *)
Definition emit {A : Type} (t : trace) (k : A * trace) : A * trace :=
  (fst k, t ++ snd k).

(** [fd = open(...); if (fd > -1) (void)close(fd);] *)
Definition open_and_close (path : string) (flags ret : Z) : trace :=
  EvOpen path flags ret :: (if -1 <? ret then [EvClose ret] else []).

(* ================================================================= *)
(** ** The test context *)

Record stress_landlock_ctxt_t : Type := {
  flag : Z;           (* uint32_t *)
  filename : string;  (* char [PATH_MAX] *)
  path : string
}.

Definition set_flag (c : stress_landlock_ctxt_t) (v : Z) : stress_landlock_ctxt_t :=
  {| flag := to_uint32 v; filename := filename c; path := path c |}.

(* ================================================================= *)
(** ** The per-test child procedure *)

(** What the kernel answers to each call of one run of
    [stress_landlock_flag], in program order. *)
Record flag_env : Type := {
  open_creat_ret : Z;
  ruleset_version_ret : Z;
  create_ruleset_ret : Z;
  open_path_ret : Z;
  add_rule_ret : Z;
  prctl_ret : Z;
  restrict_self_ret : Z;
  open_rdonly_ret : Z;
  open_wronly_ret : Z;
  open_rdwr_ret : Z
}.

(** The two exit labels of the function. *)
Definition close_ruleset (ruleset_fd rc : Z) : Z * trace :=
  (rc, [EvClose ruleset_fd]).

Definition close_parent (parent_fd ruleset_fd rc : Z) : Z * trace :=
  emit [EvClose parent_fd] (close_ruleset ruleset_fd rc).

Definition stress_landlock_flag (k : flag_env) (ctxt : stress_landlock_ctxt_t)
  : Z * trace :=
  let rc := EXIT_SUCCESS in
  (* Create empty test file *)
  emit (open_and_close (filename ctxt)
          (Z.lor O_CREAT (Z.lor O_RDWR O_CLOEXEC)) (open_creat_ret k)) (
  (* Exercise fetch of ruleset API version, ignore return *)
  emit [EvCreateRuleset None SHIM_LANDLOCK_CREATE_RULESET_VERSION
          (ruleset_version_ret k)] (
  let ruleset_fd := create_ruleset_ret k in
  emit [EvCreateRuleset (Some SHIM_LANDLOCK_ACCESS_ALL) 0 ruleset_fd] (
  if ruleset_fd <? 0 then
    (0, [EvLog "landlock_create_ruleset failed"])
  else
    let allowed_access := to_uint64 (flag ctxt) in
    let parent_fd := open_path_ret k in
    emit [EvOpen (path ctxt) O_PATH parent_fd] (
    if parent_fd <? 0 then close_ruleset ruleset_fd rc
    else
      let ret := add_rule_ret k in
      emit [EvAddRule ruleset_fd allowed_access parent_fd ret] (
      if ret <? 0 then close_parent parent_fd ruleset_fd rc
      else
        let ret := prctl_ret k in
        emit [EvPrctlNoNewPrivs ret] (
        if ret <? 0 then close_parent parent_fd ruleset_fd rc
        else
          let ret := restrict_self_ret k in
          emit [EvRestrictSelf ruleset_fd ret] (
          if ret <? 0 then
            emit [EvLog "landlock_restrict_self failed"]
              (close_parent parent_fd ruleset_fd rc)
          else
            (* Got a valid landlocked restricted child process,
               so now sanity check it on some test files *)
            emit (open_and_close (filename ctxt) O_RDONLY (open_rdonly_ret k)) (
            emit (open_and_close (filename ctxt) O_WRONLY (open_wronly_ret k)) (
            emit (open_and_close (filename ctxt) O_RDWR (open_rdwr_ret k)) (
            emit [EvUnlink (filename ctxt)] (
            close_parent parent_fd ruleset_fd rc))))))))))).

(* ================================================================= *)
(** ** Wait statuses *)

(** The Linux encoding of a wait status, as the [<sys/wait.h>] macros
    read it. *)
Definition WIFEXITED (status : Z) : bool := Z.land status 127 =? 0.
Definition WEXITSTATUS (status : Z) : Z := Z.shiftr (Z.land status 65280) 8.

(** The status the parent collects after the child's [_exit(rc)]. *)
Definition exit_status (rc : Z) : Z := Z.shiftl (Z.land rc 255) 8.

(* ================================================================= *)
(** ** The subprocess test harness *)

Definition stress_landlock_func : Type := stress_landlock_ctxt_t -> Z * trace.

(** What becomes of the forked child: either [func] runs to its end
    and the child leaves through [_exit(func(args, ctxt))], or the
    child is gone after its first [after] calls, leaving [status]
    (killed by a signal, or ended by a signal handler it inherited
    that calls [_exit] itself). *)
Inductive child_fate : Type :=
| ChildReturns
| ChildDies (after : nat) (status : Z).

(** The result of [fork] once [stress_redo_fork] stops asking for
    another attempt. *)
Inductive fork_result : Type :=
| ForkFailed
| ForkParent (pid : Z).

Inductive wait_result : Type :=
| WaitOk
| WaitEINTR
| WaitError (errno : Z).

(** The environment of one harness call.  [fork_redo] counts the failed
    forks that [stress_redo_fork] asked to repeat; [stale_status] is the
    content of the uninitialised [status] variable. *)
Record test_env : Type := {
  fork_redo : nat;
  fork_final : fork_result;
  fate : child_fate;
  wait : wait_result;
  stale_status : Z
}.

Record test_result : Type := {
  failures_out : Z;
  parent_trace : trace;
  child_trace : trace
}.

Definition child_run (f : child_fate) (func : stress_landlock_func)
  (ctxt : stress_landlock_ctxt_t) : Z * trace :=
  let (rc, t) := func ctxt in
  match f with
  | ChildReturns => (exit_status rc, t)
  | ChildDies after status => (status, firstn after t)
  end.

(** The code after a fork that gave the parent a child.  The counter
    is a C [int]; the driver never lets it grow beyond 5, so the
    increment is written without wrap-around. *)
Definition stress_landlock_test_parent (e : test_env) (pid : Z)
  (func : stress_landlock_func) (ctxt : stress_landlock_ctxt_t)
  (failures : Z) : test_result :=
  let (child_status, ct) := child_run (fate e) func ctxt in
  let classify (status : Z) (t : trace) : test_result :=
    if WIFEXITED status then
      let rc := WEXITSTATUS status in
      {| failures_out := if negb (rc =? EXIT_SUCCESS) then failures + 1 else failures;
         parent_trace := t ++ [EvUnlink (filename ctxt)];
         child_trace := ct |}
    else
      {| failures_out := failures;
         parent_trace := t ++ [EvUnlink (filename ctxt)];
         child_trace := ct |} in
  match wait e with
  | WaitOk => classify child_status [EvFork pid; EvWaitpid pid pid]
  | WaitError errno =>
      classify (stale_status e)
        [EvFork pid; EvWaitpid pid (-1); EvLog "waitpid"]
  | WaitEINTR =>
      (* Probably an SIGARLM, force kill & reap *)
      {| failures_out := failures;
         parent_trace := [EvFork pid; EvWaitpid pid (-1); EvKillWait pid;
                          EvUnlink (filename ctxt)];
         child_trace := ct |}
  end.

(** The [again:] loop around [fork]. *)
Fixpoint stress_landlock_test_again (redo : nat) (e : test_env)
  (func : stress_landlock_func) (ctxt : stress_landlock_ctxt_t)
  (failures : Z) : test_result :=
  match redo with
  | S redo' =>
      let r := stress_landlock_test_again redo' e func ctxt failures in
      {| failures_out := failures_out r;
         parent_trace := EvFork (-1) :: parent_trace r;
         child_trace := child_trace r |}
  | O =>
      match fork_final e with
      | ForkFailed =>
          {| failures_out := failures;
             parent_trace := [EvFork (-1)];
             child_trace := [] |}
      | ForkParent pid => stress_landlock_test_parent e pid func ctxt failures
      end
  end.

Definition stress_landlock_test (e : test_env) (func : stress_landlock_func)
  (ctxt : stress_landlock_ctxt_t) (failures : Z) : test_result :=
  stress_landlock_test_again (fork_redo e) e func ctxt failures.

(* ================================================================= *)
(** ** The driver *)

(** The flag table of [stress_landlock], a [static const int] array
    (every entry fits an [int], so the initialisers are not changed by
    the conversion). *)
Definition landlock_access_flags : list Z := [
  SHIM_LANDLOCK_ACCESS_FS_EXECUTE;
  SHIM_LANDLOCK_ACCESS_FS_WRITE_FILE;
  SHIM_LANDLOCK_ACCESS_FS_READ_FILE;
  Z.lor SHIM_LANDLOCK_ACCESS_FS_WRITE_FILE SHIM_LANDLOCK_ACCESS_FS_READ_FILE;
  SHIM_LANDLOCK_ACCESS_FS_READ_DIR;
  SHIM_LANDLOCK_ACCESS_FS_REMOVE_DIR;
  SHIM_LANDLOCK_ACCESS_FS_REMOVE_FILE;
  SHIM_LANDLOCK_ACCESS_FS_MAKE_CHAR;
  SHIM_LANDLOCK_ACCESS_FS_MAKE_DIR;
  SHIM_LANDLOCK_ACCESS_FS_MAKE_REG;
  SHIM_LANDLOCK_ACCESS_FS_MAKE_SOCK;
  SHIM_LANDLOCK_ACCESS_FS_MAKE_FIFO;
  SHIM_LANDLOCK_ACCESS_FS_MAKE_BLOCK;
  SHIM_LANDLOCK_ACCESS_FS_MAKE_SYM;
  0
].

(** [snprintf] into a [char [PATH_MAX]] buffer keeps at most
    [PATH_MAX - 1] characters. *)
Definition snprintf_path (s : string) : string :=
  substring 0 (PATH_MAX - 1) s.

(** The framework and the kernel as the driver sees them.  [tests n]
    is the environment of the [n]-th harness call (counted over the
    whole run) together with the answers its child gets;
    [stress_continue n] is what the framework's predicate says at the
    end of pass [n]. *)
Record driver_env : Type := {
  temp_path : string;
  pid : Z;
  many_fork_redo : nat;
  many_fork_final : fork_result;
  tests : nat -> test_env * flag_env;
  stress_continue : nat -> bool
}.

(** One harness call as the driver made it. *)
Record dispatch : Type := {
  d_pass : nat;
  d_mask : Z;
  d_failures_in : Z;
  d_result : test_result
}.

(** The driver's locals that live across harness calls. *)
Record loop_state : Type := {
  st_ctxt : stress_landlock_ctxt_t;
  st_failures : Z;
  st_ntests : nat;
  st_bogo : nat
}.

Definition with_flag (st : loop_state) (v : Z) : loop_state :=
  {| st_ctxt := set_flag (st_ctxt st) v;
     st_failures := st_failures st;
     st_ntests := st_ntests st;
     st_bogo := st_bogo st |}.

(** [stress_landlock_test(args, stress_landlock_flag, &ctxt, &failures)] *)
Definition run_test (env : driver_env) (pass : nat) (st : loop_state)
  : dispatch * loop_state :=
  let e := tests env (st_ntests st) in
  let r := stress_landlock_test (fst e) (stress_landlock_flag (snd e))
             (st_ctxt st) (st_failures st) in
  ({| d_pass := pass;
      d_mask := flag (st_ctxt st);
      d_failures_in := st_failures st;
      d_result := r |},
   {| st_ctxt := st_ctxt st;
      st_failures := failures_out r;
      st_ntests := S (st_ntests st);
      st_bogo := st_bogo st |}).

(** The first [for] loop; the boolean is [true] on [goto err]. *)
Fixpoint cumulative_loop (env : driver_env) (pass : nat) (tbl : list Z)
  (st : loop_state) : list dispatch * loop_state * bool :=
  match tbl with
  | [] => ([], st, false)
  | f :: rest =>
      let st1 := with_flag st (Z.lor (flag (st_ctxt st)) (to_uint32 f)) in
      let (d, st2) := run_test env pass st1 in
      if 5 <=? st_failures st2 then ([d], st2, true)
      else
        let '(ds, st3, err) := cumulative_loop env pass rest st2 in
        (d :: ds, st3, err)
  end.

(** The second [for] loop. *)
Fixpoint isolated_loop (env : driver_env) (pass : nat) (tbl : list Z)
  (st : loop_state) : list dispatch * loop_state * bool :=
  match tbl with
  | [] => ([], st, false)
  | f :: rest =>
      let st1 := with_flag st (to_uint32 f) in
      let (d, st2) := run_test env pass st1 in
      if 5 <=? st_failures st2 then ([d], st2, true)
      else
        let '(ds, st3, err) := isolated_loop env pass rest st2 in
        (d :: ds, st3, err)
  end.

(** The body of the [do ... while] loop up to [stress_bogo_inc]. *)
Definition one_pass (env : driver_env) (pass : nat) (st : loop_state)
  : list dispatch * loop_state * bool :=
  let st0 := with_flag st 0 in
  (* Exercise with a mix of valid and invalid flags *)
  let '(l1, st1, err1) := cumulative_loop env pass landlock_access_flags st0 in
  if err1 then (l1, st1, true)
  else
    let '(l2, st2, err2) := isolated_loop env pass landlock_access_flags st1 in
    if err2 then (l1 ++ l2, st2, true)
    else
      let st3 := with_flag st2 (not_uint32 (flag (st_ctxt st2))) in
      let (d, st4) := run_test env pass st3 in
      if 5 <=? st_failures st4 then (l1 ++ l2 ++ [d], st4, true)
      else
        (l1 ++ l2 ++ [d],
         {| st_ctxt := st_ctxt st4;
            st_failures := st_failures st4;
            st_ntests := st_ntests st4;
            st_bogo := S (st_bogo st4) |},
         false).

(** The [do ... while (stress_continue(args))] loop.  The boolean says
    whether the loop was left ([true]) or the fuel ran out first. *)
Fixpoint stress_landlock_loop (fuel : nat) (env : driver_env) (pass : nat)
  (st : loop_state) : list dispatch * loop_state * bool :=
  match fuel with
  | O => ([], st, false)
  | S fuel' =>
      let '(l, st', err) := one_pass env pass st in
      if err then (l, st', true)
      else if stress_continue env pass then
        let '(l', st'', fin) := stress_landlock_loop fuel' env (S pass) st' in
        (l ++ l', st'', fin)
      else (l, st', true)
  end.

Record driver_result : Type := {
  dr_return : option Z;      (* [None]: still looping when the fuel ran out *)
  dr_log : list dispatch;
  dr_failures : Z;
  dr_bogo : nat;
  dr_trace : trace
}.

Definition pid_of_fork (r : fork_result) : Z :=
  match r with
  | ForkFailed => -1
  | ForkParent p => p
  end.

Definition stress_landlock (fuel : nat) (env : driver_env) : driver_result :=
  let failures := 0 in
  let ctxt :=
    {| flag := 0;
       path := temp_path env;
       filename := snprintf_path
                     (temp_path env ++ "/landlock-"
                        ++ NilZero.string_of_int (Z.to_int (pid env))) |} in
  let pid_many := pid_of_fork (many_fork_final env) in
  let forks := repeat (EvFork (-1)) (many_fork_redo env) ++ [EvFork pid_many] in
  let '(l, st, fin) :=
    stress_landlock_loop fuel env 0%nat
      {| st_ctxt := ctxt; st_failures := failures;
         st_ntests := 0%nat; st_bogo := 0%nat |} in
  {| dr_return := if fin then Some EXIT_SUCCESS else None;
     dr_log := l;
     dr_failures := st_failures st;
     dr_bogo := st_bogo st;
     dr_trace :=
       forks ++
       (if fin then
          if negb (pid_many =? -1) then [EvKillWait pid_many] else []
        else []) |}.

(* ================================================================= *)
(** ** The recursive enumerator *)

Inductive file_type : Type :=
| DT_UNKNOWN | DT_FIFO | DT_CHR | DT_DIR | DT_BLK
| DT_REG | DT_LNK | DT_SOCK | DT_WHT.

Record dirent : Type := {
  d_name : string;
  d_type : file_type
}.

(** Modelled from the spec: [stress_is_dot_filename] lives in the
    framework's core, outside this file; the spec has the listing
    exclude the current and parent pseudo-entries. *)
Definition stress_is_dot_filename (name : string) : bool :=
  ((name =? ".") || (name =? ".."))%string.

Definition stress_landlock_filter (d : dirent) : bool :=
  negb (stress_is_dot_filename (d_name d)).

(** The file system and the kernel as the enumerator sees them.
    [many_scandir p] is the content of directory [p] in [alphasort]
    order before the filter is applied, [None] when [scandir] fails;
    the other fields give the result of the call made on a path. *)
Record many_env : Type := {
  many_create_ruleset : string -> Z;
  many_scandir : string -> option (list dirent);
  many_realpath : string -> option string;
  many_open : string -> Z;
  many_add_rule : string -> Z
}.

(** The two [snprintf] calls that build [newpath]. *)
Definition join_path (path name : string) : string :=
  if negb (path =? "/")%string then snprintf_path (path ++ "/" ++ name)
  else snprintf_path ("/" ++ name).

(** The [for] loop over [namelist].  [recur] stands for the recursive
    call; the result is the trace up to the [close_ruleset] label,
    reached by falling out of the loop or by [goto]. *)
Fixpoint stress_landlock_many_entries (env : many_env)
  (recur : string -> Z -> option trace) (ruleset_fd : Z)
  (path : string) (depth : Z) (namelist : list dirent) : option trace :=
  match namelist with
  | [] => Some []
  | d :: rest =>
      let newpath := join_path path (d_name d) in
      let next :=
        stress_landlock_many_entries env recur ruleset_fd path depth rest in
      match many_realpath env newpath with
      | None => next
      | Some resolved =>
          if (newpath =? resolved)%string then
            match d_type d with
            | DT_REG | DT_LNK =>
                let allowed_access :=
                  to_uint64 SHIM_LANDLOCK_ACCESS_FS_READ_FILE in
                let parent_fd := many_open env resolved in
                let opened :=
                  EvOpen resolved (Z.lor O_PATH O_NONBLOCK) parent_fd in
                if parent_fd <? 0 then Some [opened]
                else
                  let ret := many_add_rule env resolved in
                  let t := [opened;
                            EvAddRule ruleset_fd allowed_access parent_fd ret;
                            EvClose parent_fd] in
                  if ret <? 0 then Some t
                  else option_map (app t) next
            | DT_DIR =>
                if depth <? 30 then
                  match recur resolved (depth + 1) with
                  | None => None
                  | Some t => option_map (app t) next
                  end
                else next
            | _ => next
            end
          else next
      end
  end.

(** [n = scandir(path, &namelist, stress_landlock_filter, alphasort)] *)
Definition scandir_filtered (env : many_env) (path : string)
  : Z * list dirent :=
  match many_scandir env path with
  | None => (-1, [])
  | Some l =>
      let namelist := filter stress_landlock_filter l in
      (Z.of_nat (List.length namelist), namelist)
  end.

(** [None] when the fuel does not cover the nesting of the calls. *)
Fixpoint stress_landlock_many (fuel : nat) (env : many_env)
  (path : string) (depth : Z) : option trace :=
  match fuel with
  | O => None
  | S fuel' =>
      let ruleset_fd := many_create_ruleset env path in
      let t0 := [EvCall path depth;
                 EvCreateRuleset (Some SHIM_LANDLOCK_ACCESS_ALL) 0 ruleset_fd] in
      if ruleset_fd <? 0 then
        Some (t0 ++ [EvLog "landlock_create_ruleset failed"])
      else
        let (n, namelist) := scandir_filtered env path in
        match stress_landlock_many_entries env
                (stress_landlock_many fuel' env) ruleset_fd path depth namelist
        with
        | None => None
        | Some t => Some (t0 ++ [EvScandir path n] ++ t ++ [EvClose ruleset_fd])
        end
  end.

(** *** The walk without the depth bound

    The enumerator as its header comment and the design describe it
    when the bound is left out: every directory whose real path is its
    joined path is entered.  It is the yardstick for a tree that is
    walked fully. *)
Fixpoint unbounded_entries (env : many_env)
  (recur : string -> Z -> option trace) (ruleset_fd : Z)
  (path : string) (depth : Z) (namelist : list dirent) : option trace :=
  match namelist with
  | [] => Some []
  | d :: rest =>
      let newpath := join_path path (d_name d) in
      let next := unbounded_entries env recur ruleset_fd path depth rest in
      match many_realpath env newpath with
      | None => next
      | Some resolved =>
          if (newpath =? resolved)%string then
            match d_type d with
            | DT_REG | DT_LNK =>
                let parent_fd := many_open env resolved in
                let opened :=
                  EvOpen resolved (Z.lor O_PATH O_NONBLOCK) parent_fd in
                if parent_fd <? 0 then Some [opened]
                else
                  let ret := many_add_rule env resolved in
                  let t := [opened;
                            EvAddRule ruleset_fd
                              (to_uint64 SHIM_LANDLOCK_ACCESS_FS_READ_FILE)
                              parent_fd ret;
                            EvClose parent_fd] in
                  if ret <? 0 then Some t
                  else option_map (app t) next
            | DT_DIR =>
                match recur resolved (depth + 1) with
                | None => None
                | Some t => option_map (app t) next
                end
            | _ => next
            end
          else next
      end
  end.

Fixpoint unbounded_walk (fuel : nat) (env : many_env)
  (path : string) (depth : Z) : option trace :=
  match fuel with
  | O => None
  | S fuel' =>
      let ruleset_fd := many_create_ruleset env path in
      let t0 := [EvCall path depth;
                 EvCreateRuleset (Some SHIM_LANDLOCK_ACCESS_ALL) 0 ruleset_fd] in
      if ruleset_fd <? 0 then
        Some (t0 ++ [EvLog "landlock_create_ruleset failed"])
      else
        let (n, namelist) := scandir_filtered env path in
        match unbounded_entries env (unbounded_walk fuel' env)
                ruleset_fd path depth namelist
        with
        | None => None
        | Some t => Some (t0 ++ [EvScandir path n] ++ t ++ [EvClose ruleset_fd])
        end
  end.

(** *** Reading a trace *)

(** The depth argument of every call of the enumerator, in call order. *)
Fixpoint call_depths (t : trace) : list Z :=
  match t with
  | [] => []
  | EvCall _ d :: t' => d :: call_depths t'
  | _ :: t' => call_depths t'
  end.

(** The deepest call of a trace ([-1] when it has none). *)
Definition max_depth (t : trace) : Z :=
  fold_right Z.max (-1) (call_depths t).


(* ================================================================= *)
(** ** Observations on the child's trace *)

(** The run gets as far as [landlock_restrict_self]: the ruleset was
    created, the anchor opened, the rule attached and no-new-privileges
    set. *)
Definition reaches_restrict (k : flag_env) : bool :=
  (0 <=? create_ruleset_ret k) && (0 <=? open_path_ret k)
  && (0 <=? add_rule_ret k) && (0 <=? prctl_ret k).

Definition is_open_of (file : string) (flags : Z) (ev : event) : bool :=
  match ev with
  | EvOpen p f _ => (f =? flags) && (p =? file)%string
  | _ => false
  end.

Definition is_unlink_of (file : string) (ev : event) : bool :=
  match ev with
  | EvUnlink p => (p =? file)%string
  | _ => false
  end.

(** All of: read-only open, write-only open, read-write open, unlink. *)
Definition sanity_checks_done (file : string) (t : trace) : bool :=
  existsb (is_open_of file O_RDONLY) t
  && existsb (is_open_of file O_WRONLY) t
  && existsb (is_open_of file O_RDWR) t
  && existsb (is_unlink_of file) t.

(** Any of them. *)
Definition sanity_checks_begun (file : string) (t : trace) : bool :=
  existsb (is_open_of file O_RDONLY) t
  || existsb (is_open_of file O_WRONLY) t
  || existsb (is_open_of file O_RDWR) t
  || existsb (is_unlink_of file) t.

(** A kernel that accepts every call. *)
Definition flag_env_ok : flag_env :=
  {| open_creat_ret := 3; ruleset_version_ret := 1;
     create_ruleset_ret := 3; open_path_ret := 4;
     add_rule_ret := 0; prctl_ret := 0; restrict_self_ret := 0;
     open_rdonly_ret := 5; open_wronly_ret := -1; open_rdwr_ret := -1 |}.

(** A kernel that accepts everything but the restriction itself. *)
Definition flag_env_restrict_rejected : flag_env :=
  {| open_creat_ret := 3; ruleset_version_ret := 1;
     create_ruleset_ret := 3; open_path_ret := 4;
     add_rule_ret := 0; prctl_ret := 0; restrict_self_ret := -1;
     open_rdonly_ret := 5; open_wronly_ret := 5; open_rdwr_ret := 5 |}.

Definition ctxt_example : stress_landlock_ctxt_t :=
  {| flag := SHIM_LANDLOCK_ACCESS_FS_READ_FILE;
     filename := "/tmp/landlock-4242";
     path := "/tmp" |}.

(* ================================================================= *)
(** ** Observations on the harness *)

(** The child exited by itself with a status other than 0. *)
Definition exited_nonzero (status : Z) : bool :=
  WIFEXITED status && negb (WEXITSTATUS status =? EXIT_SUCCESS).

(** A child killed by SIGSEGV before its first call. *)
Definition test_env_sigsegv : test_env :=
  {| fork_redo := 0; fork_final := ForkParent 4243;
     fate := ChildDies 0 11; wait := WaitOk; stale_status := 0 |}.

(** A child that left with [_exit(1)]. *)
Definition test_env_exit1 : test_env :=
  {| fork_redo := 0; fork_final := ForkParent 4243;
     fate := ChildDies 0 256; wait := WaitOk; stale_status := 0 |}.

(** A child that runs [func] to its end. *)
Definition test_env_returns : test_env :=
  {| fork_redo := 0; fork_final := ForkParent 4243;
     fate := ChildReturns; wait := WaitOk; stale_status := 0 |}.

(** A wait cut short by a signal. *)
Definition test_env_eintr : test_env :=
  {| fork_redo := 0; fork_final := ForkParent 4243;
     fate := ChildDies 2 9; wait := WaitEINTR; stale_status := 0 |}.

(** Two forks refused and retried, a third refused for good. *)
Definition test_env_fork_failed : test_env :=
  {| fork_redo := 2; fork_final := ForkFailed;
     fate := ChildReturns; wait := WaitOk; stale_status := 0 |}.

(* ================================================================= *)
(** ** Observations on the driver's log *)

(** The thirteen atomic access rights, in bit order. *)
Definition atomic_access_flags : list Z := [
  SHIM_LANDLOCK_ACCESS_FS_EXECUTE;
  SHIM_LANDLOCK_ACCESS_FS_WRITE_FILE;
  SHIM_LANDLOCK_ACCESS_FS_READ_FILE;
  SHIM_LANDLOCK_ACCESS_FS_READ_DIR;
  SHIM_LANDLOCK_ACCESS_FS_REMOVE_DIR;
  SHIM_LANDLOCK_ACCESS_FS_REMOVE_FILE;
  SHIM_LANDLOCK_ACCESS_FS_MAKE_CHAR;
  SHIM_LANDLOCK_ACCESS_FS_MAKE_DIR;
  SHIM_LANDLOCK_ACCESS_FS_MAKE_REG;
  SHIM_LANDLOCK_ACCESS_FS_MAKE_SOCK;
  SHIM_LANDLOCK_ACCESS_FS_MAKE_FIFO;
  SHIM_LANDLOCK_ACCESS_FS_MAKE_BLOCK;
  SHIM_LANDLOCK_ACCESS_FS_MAKE_SYM
].

Definition is_atomic_flag (x : Z) : bool :=
  existsb (Z.eqb x) atomic_access_flags.

(** The masks the first loop tests, starting from flag [f]. *)
Fixpoint cumulative_masks (f : Z) (tbl : list Z) : list Z :=
  match tbl with
  | [] => []
  | x :: rest =>
      let f' := to_uint32 (Z.lor f (to_uint32 x)) in
      f' :: cumulative_masks f' rest
  end.

(** The masks the second loop tests. *)
Definition isolated_masks (tbl : list Z) : list Z := map to_uint32 tbl.

(** The 31 masks of a pass that is not cut short. *)
Definition pass_masks : list Z :=
  cumulative_masks 0 landlock_access_flags
  ++ isolated_masks landlock_access_flags
  ++ [not_uint32 (last (isolated_masks landlock_access_flags) 0)].

(** Each harness call reads the counter the previous one left. *)
Fixpoint chained (f : Z) (l : list dispatch) : Prop :=
  match l with
  | [] => True
  | d :: l' => d_failures_in d = f /\ chained (failures_out (d_result d)) l'
  end.

Definition final_failures (f : Z) (l : list dispatch) : Z :=
  fold_left (fun _ d => failures_out (d_result d)) l f.

Definition lt5 (d : dispatch) : Prop := failures_out (d_result d) < 5.

(** The [allowed_access] of every rule the child of [d] attached. *)
Definition child_rules_use_mask (d : dispatch) : Prop :=
  forall rs a fd ret,
    In (EvAddRule rs a fd ret) (child_trace (d_result d)) ->
    a = to_uint64 (d_mask d).

Definition dispatch_ok (pass : nat) (d : dispatch) : Prop :=
  d_pass d = pass
  /\ 0 <= d_mask d < 2 ^ 32
  /\ (failures_out (d_result d) = d_failures_in d
      \/ failures_out (d_result d) = d_failures_in d + 1)
  /\ child_rules_use_mask d.

(** What a stretch of harness calls meant to test [masks] looks like,
    cut short ([err]) or not: [f] and [g] are the failure counter and
    the context's flag before it, [f'] and [g'] after it. *)
Record seg_ok (pass : nat) (masks : list Z) (f g : Z)
  (l : list dispatch) (f' g' : Z) (err : bool) : Prop := {
  seg_masks : map d_mask l = firstn (List.length l) masks;
  seg_each : Forall (dispatch_ok pass) l;
  seg_chain : chained f l;
  seg_final : f' = final_failures f l;
  seg_below : Forall lt5 (removelast l);
  seg_err : err = true -> l <> [] /\ 5 <= f';
  seg_full : err = false ->
             List.length l = List.length masks
             /\ Forall lt5 l /\ f' < 5 /\ g' = last masks g
}.

(** The log of the outer loop, started at pass [pass] with counter
    [f]; [fin] says that the loop was left. *)
Record log_ok (pass : nat) (f : Z) (l : list dispatch) (f' : Z)
  (fin : bool) : Prop := {
  log_chain : chained f l;
  log_final : f' = final_failures f l;
  log_below : Forall lt5 (removelast l);
  log_running : fin = false -> Forall lt5 l /\ f' < 5;
  log_each : Forall (fun d => dispatch_ok (d_pass d) d) l;
  log_nth : forall (k j : nat) (d : dispatch),
      (j < 31)%nat -> nth_error l (31 * k + j) = Some d ->
      d_mask d = nth j pass_masks 0 /\ d_pass d = (pass + k)%nat
}.

(** Every child runs to its end, one pass. *)
Definition driver_env_quiet : driver_env :=
  {| temp_path := "/tmp"; pid := 4242;
     many_fork_redo := 0; many_fork_final := ForkParent 4300;
     tests := fun _ => (test_env_returns, flag_env_ok);
     stress_continue := fun _ => false |}.

(** Every child leaves with [_exit(1)]. *)
Definition driver_env_crashing : driver_env :=
  {| temp_path := "/tmp"; pid := 4242;
     many_fork_redo := 0; many_fork_final := ForkParent 4300;
     tests := fun _ => (test_env_exit1, flag_env_ok);
     stress_continue := fun _ => true |}.

(** The very first child leaves with [_exit(1)], all others run to
    their end; the framework asks for a second pass and no third. *)
Definition driver_env_one_failure : driver_env :=
  {| temp_path := "/tmp"; pid := 4242;
     many_fork_redo := 0; many_fork_final := ForkParent 4300;
     tests := fun n => match n with
                       | O => (test_env_exit1, flag_env_ok)
                       | _ => (test_env_returns, flag_env_ok)
                       end;
     stress_continue := fun n => (n <? 1)%nat |}.

(* ================================================================= *)
(** ** Observations on the enumerator *)

(** Each call is at most one level below the call before it. *)
Fixpoint steps_by_one (prev : Z) (l : list Z) : Prop :=
  match l with
  | [] => True
  | d :: l' => d <= prev + 1 /\ steps_by_one d l'
  end.

(** The entry is passed over by the two tests on [realpath]. *)
Definition entry_skipped (env : many_env) (path : string) (d : dirent)
  : bool :=
  let newpath := join_path path (d_name d) in
  match many_realpath env newpath with
  | None => true
  | Some resolved => negb (newpath =? resolved)%string
  end.

(** A small tree: a file, a directory holding a file, a symbolic link
    that leads out of the tree and a name whose path cannot be
    resolved. *)
Definition many_env_small : many_env :=
  {| many_create_ruleset := fun _ => 3;
     many_scandir := fun p =>
       if (p =? "/")%string then
         Some [ {| d_name := "."; d_type := DT_DIR |};
                {| d_name := ".."; d_type := DT_DIR |};
                {| d_name := "a"; d_type := DT_REG |};
                {| d_name := "d"; d_type := DT_DIR |};
                {| d_name := "gone"; d_type := DT_REG |};
                {| d_name := "l"; d_type := DT_LNK |} ]
       else if (p =? "/d")%string then
         Some [ {| d_name := "."; d_type := DT_DIR |};
                {| d_name := ".."; d_type := DT_DIR |};
                {| d_name := "x"; d_type := DT_REG |} ]
       else None;
     many_realpath := fun p =>
       if (p =? "/l")%string then Some "/etc/passwd"%string
       else if (p =? "/gone")%string then None
       else Some p;
     many_open := fun _ => 4;
     many_add_rule := fun _ => 0 |}.

(** A chain of forty directories, each holding the next one. *)
Definition many_env_chain : many_env :=
  {| many_create_ruleset := fun _ => 3;
     many_scandir := fun p =>
       if (String.length p <? 80)%nat
       then Some [ {| d_name := "d"; d_type := DT_DIR |} ]
       else Some [];
     many_realpath := fun p => Some p;
     many_open := fun _ => 4;
     many_add_rule := fun _ => 0 |}.

(** What the loop body makes of one entry: nothing, a rule on a file
    or a link, or a directory to descend into (the depth test comes
    after). *)
Inductive entry_class : Type :=
| EntrySkip
| EntryFile (resolved : string)
| EntryDir (resolved : string).

Definition classify_entry (env : many_env) (path : string) (d : dirent)
  : entry_class :=
  let newpath := join_path path (d_name d) in
  match many_realpath env newpath with
  | None => EntrySkip
  | Some resolved =>
      if (newpath =? resolved)%string then
        match d_type d with
        | DT_REG | DT_LNK => EntryFile resolved
        | DT_DIR => EntryDir resolved
        | _ => EntrySkip
        end
      else EntrySkip
  end.

(** The [DT_REG]/[DT_LNK] case of the loop body. *)
Definition file_step (env : many_env) (ruleset_fd : Z) (resolved : string)
  (next : option trace) : option trace :=
  let parent_fd := many_open env resolved in
  let opened := EvOpen resolved (Z.lor O_PATH O_NONBLOCK) parent_fd in
  if parent_fd <? 0 then Some [opened]
  else
    let ret := many_add_rule env resolved in
    let t := [opened;
              EvAddRule ruleset_fd (to_uint64 SHIM_LANDLOCK_ACCESS_FS_READ_FILE)
                parent_fd ret;
              EvClose parent_fd] in
    if ret <? 0 then Some t else option_map (app t) next.

(** The [DT_DIR] case once the recursion is decided. *)
Definition dir_step (sub next : option trace) : option trace :=
  match sub with
  | None => None
  | Some t => option_map (app t) next
  end.

(** Events that name a path the enumerator derived from an entry. *)
Definition names_resolved_path (env : many_env) (ev : event) : Prop :=
  match ev with
  | EvOpen p _ _ => many_realpath env p = Some p
  | EvCall p _ => many_realpath env p = Some p
  | _ => True
  end.

(** The calls below the first one are deeper than [depth], not deeper
    than 30, and each at most one level below the one before. *)
Definition nested_calls_ok (depth : Z) (l : list Z) : Prop :=
  Forall (fun d => depth < d <= 30) l
  /\ forall x, depth <= x -> steps_by_one x l.

(** What the two walks do on the example trees. *)
Definition small_walk : trace :=
  Eval vm_compute in
    match unbounded_walk 5 many_env_small "/" 0 with
    | Some t => t
    | None => []
    end.

Definition chain_walk : trace :=
  Eval vm_compute in
    match unbounded_walk 50 many_env_chain "/" 0 with
    | Some t => t
    | None => []
    end.

(* ================================================================= *)
(** ** The capability probe *)

Definition ENOSYS : Z := 38.

(** What the kernel answers to the probe: the result of
    [landlock_create_ruleset] and the [errno] it leaves on failure. *)
Record supported_env : Type := {
  probe_ret : Z;
  probe_errno : Z
}.

Definition stress_landlock_supported (k : supported_env) : Z * trace :=
  let ruleset_fd := probe_ret k in
  emit [EvCreateRuleset (Some SHIM_LANDLOCK_ACCESS_FS_READ_FILE) 0 ruleset_fd] (
  if ruleset_fd <? 0 then
    if probe_errno k =? ENOSYS then
      (-1, [EvLog "stressor will be skipped, landlock_create_ruleset system call is not supported"])
    else
      (-1, [EvLog "stressor will be skipped, perhaps lsm=landlock is not enabled"])
  else
    (0, [EvClose ruleset_fd])).

(* ================================================================= *)
(** ** The enumerator process *)

(** The child forked by the driver:
    [do { stress_landlock_many(args, "/", 0); } while (stress_continue(args)); _exit(0);]
    [envs n] is the file system as round [n] finds it and [keep n] the
    framework's answer after round [n].  [inner] is the fuel given to
    each traversal, [fuel] bounds the number of rounds; the result is
    the exit status with the trace of all rounds. *)
Fixpoint stress_landlock_many_child (fuel inner : nat)
  (envs : nat -> many_env) (keep : nat -> bool) (round : nat)
  : option (Z * trace) :=
  match fuel with
  | O => None
  | S fuel' =>
      match stress_landlock_many inner (envs round) "/" 0 with
      | None => None
      | Some t =>
          if keep round then
            match stress_landlock_many_child fuel' inner envs keep (S round) with
            | None => None
            | Some (rc, t') => Some (rc, t ++ t')
            end
          else Some (0, t)
      end
  end.

(* ================================================================= *)
(** ** Descriptor bookkeeping *)

(** The descriptor a call hands to the process, if any.  The version
    query (no attribute) returns a version number, not a descriptor. *)
Definition opens_fd (ev : event) : option Z :=
  match ev with
  | EvOpen _ _ ret => if 0 <=? ret then Some ret else None
  | EvCreateRuleset (Some _) _ ret => if 0 <=? ret then Some ret else None
  | _ => None
  end.

(** The effect of one call on the stack of descriptors the process
    holds, most recent first.  A [close] must name the most recent
    descriptor still held. *)
Definition step_fds (held : list Z) (ev : event) : option (list Z) :=
  match ev with
  | EvClose fd =>
      match held with
      | top :: rest => if fd =? top then Some rest else None
      | [] => None
      end
  | _ =>
      match opens_fd ev with
      | Some fd => Some (fd :: held)
      | None => Some held
      end
  end.

(** Replays a trace from the stack [held]: the stack at the end and the
    largest number of descriptors held at any point, [None] when a
    [close] names anything but the most recent descriptor. *)
Fixpoint replay_fds (held : list Z) (t : trace) : option (list Z * nat) :=
  match t with
  | [] => Some (held, List.length held)
  | ev :: t' =>
      match step_fds held ev with
      | None => None
      | Some held' =>
          match replay_fds held' t' with
          | None => None
          | Some (final, peak) => Some (final, Nat.max (List.length held) peak)
          end
      end
  end.

(** Calls that belong to the test child or the driver only. *)
Definition is_process_control (ev : event) : bool :=
  match ev with
  | EvPrctlNoNewPrivs _ | EvRestrictSelf _ _ | EvUnlink _
  | EvFork _ | EvWaitpid _ _ | EvKillWait _ => true
  | _ => false
  end.

(** [a] has no bit outside [b]. *)
Definition mask_subset (a b : Z) : bool := Z.land a (Z.lnot b) =? 0.

Definition count_events (p : event -> bool) (t : trace) : nat :=
  List.length (filter p t).


Definition is_successful_fork (ev : event) : bool :=
  match ev with EvFork r => 0 <? r | _ => false end.

Definition is_kill_wait (ev : event) : bool :=
  match ev with EvKillWait _ => true | _ => false end.

Definition is_restrict_self (ev : event) : bool :=
  match ev with EvRestrictSelf _ _ => true | _ => false end.

Definition is_add_rule (ev : event) : bool :=
  match ev with EvAddRule _ _ _ _ => true | _ => false end.

Definition is_log (ev : event) : bool :=
  match ev with EvLog _ => true | _ => false end.

(** The kernel as the examples below see it. *)
Definition supported_env_ok : supported_env :=
  {| probe_ret := 3; probe_errno := 0 |}.

Definition supported_env_enosys : supported_env :=
  {| probe_ret := -1; probe_errno := ENOSYS |}.

(** The first child is lost to a failed wait whose stale status reads
    as exit code 1; every other child runs to its end. *)
Definition test_env_wait_error : test_env :=
  {| fork_redo := 0; fork_final := ForkParent 4243;
     fate := ChildReturns; wait := WaitError 10; stale_status := 256 |}.

(** Every child runs to its end; the framework asks for three passes. *)
Definition driver_env_three_passes : driver_env :=
  {| temp_path := "/tmp"; pid := 4242;
     many_fork_redo := 1; many_fork_final := ForkParent 4300;
     tests := fun _ => (test_env_returns, flag_env_ok);
     stress_continue := fun n => (n <? 2)%nat |}.

(** The ephemeral file of a run of the driver. *)
Definition driver_filename (env : driver_env) : string :=
  snprintf_path
    (temp_path env ++ "/landlock-"
       ++ NilZero.string_of_int (Z.to_int (pid env))).

(** [d] records a harness call the driver made in environment [env]
    with the context's filename [file] and path [dir]. *)
Definition from_run_test (env : driver_env) (file dir : string)
  (d : dispatch) : Prop :=
  exists pass st,
    filename (st_ctxt st) = file
    /\ path (st_ctxt st) = dir
    /\ fst (run_test env pass st) = d.

(** No child is cut short and no wait fails. *)
Definition quiet_env (env : driver_env) : Prop :=
  forall n,
    fate (fst (tests env n)) = ChildReturns
    /\ forall errno, wait (fst (tests env n)) <> WaitError errno.


(** Where the entries of a log come from, and what a loop leaves of
    the driver's state besides the failure counter. *)
Record loop_frame (env : driver_env) (st : loop_state)
  (l : list dispatch) (st' : loop_state) : Prop := {
  frame_each :
    Forall (from_run_test env (filename (st_ctxt st)) (path (st_ctxt st))) l;
  frame_filename : filename (st_ctxt st') = filename (st_ctxt st);
  frame_path : path (st_ctxt st') = path (st_ctxt st)
}.


(** The calls the enumerator may issue, with the arguments it may
    give them. *)
Definition enumerator_event (ev : event) : Prop :=
  match ev with
  | EvCall _ _ | EvScandir _ _ | EvClose _ | EvLog _ => True
  | EvCreateRuleset h fl _ => h = Some SHIM_LANDLOCK_ACCESS_ALL /\ fl = 0
  | EvOpen _ fl _ => fl = Z.lor O_PATH O_NONBLOCK
  | EvAddRule _ a _ _ => a = SHIM_LANDLOCK_ACCESS_FS_READ_FILE
  | EvPrctlNoNewPrivs _ | EvRestrictSelf _ _ | EvUnlink _
  | EvFork _ | EvWaitpid _ _ | EvKillWait _ => False
  end.

(** Every rule of the trace sits between the [open] of its anchor, a
    path that is its own real path, and the [close] of that anchor. *)
Definition rule_anchored (env : many_env) (t : trace) : Prop :=
  forall rs a fd ret,
    In (EvAddRule rs a fd ret) t ->
    0 <= fd /\ 0 <= rs
    /\ exists t1 t2 p,
         many_realpath env p = Some p
         /\ t = t1
                ++ [EvOpen p (Z.lor O_PATH O_NONBLOCK) fd;
                    EvAddRule rs a fd ret;
                    EvClose fd]
                ++ t2.

(** The event names no path outside the subtree of [root], and none
    that would not fit a [PATH_MAX] buffer. *)
Definition within_tree (root : string) (ev : event) : Prop :=
  match ev with
  | EvOpen p _ _ | EvCall p _ | EvScandir p _ =>
      prefix root p = true /\ (String.length p <= PATH_MAX - 1)%nat
  | _ => True
  end.

(** The small tree again, with a kernel that refuses to open [/a]. *)
Definition many_env_refusing : many_env :=
  {| many_create_ruleset := many_create_ruleset many_env_small;
     many_scandir := many_scandir many_env_small;
     many_realpath := many_realpath many_env_small;
     many_open := fun p => if (p =? "/a")%string then -1 else 4;
     many_add_rule := fun _ => 0 |}.

(* ================================================================= *)
(** * Properties *)

(** ** The per-test child procedure *)

Lemma fst_emit : forall (A : Type) (t : trace) (k : A * trace),
  fst (emit t k) = fst k.
Proof. reflexivity. Qed.

Lemma snd_emit : forall (A : Type) (t : trace) (k : A * trace),
  snd (emit t k) = t ++ snd k.
Proof. reflexivity. Qed.

Lemma exit_status_success :
  exit_status EXIT_SUCCESS = 0 /\ WIFEXITED 0 = true /\ WEXITSTATUS 0 = 0.
Proof. repeat split. Qed.

(** C4: [stress_landlock_flag] returns EXIT_SUCCESS whatever the kernel
    answers (ruleset creation failure, anchor open failure, rule
    rejection, prctl failure, restriction rejection, or none of them),
    so a child that runs it to the end leaves with status 0. *)
Theorem stress_landlock_flag_always_succeeds :
  forall (k : flag_env) (ctxt : stress_landlock_ctxt_t),
    fst (stress_landlock_flag k ctxt) = EXIT_SUCCESS
    /\ fst (child_run ChildReturns (stress_landlock_flag k) ctxt) = 0.
Proof.
  intros k ctxt.
  assert (H : fst (stress_landlock_flag k ctxt) = EXIT_SUCCESS).
  { unfold stress_landlock_flag, close_parent, close_ruleset.
    repeat rewrite fst_emit.
    repeat match goal with
           | |- context [if ?b then _ else _] => destruct b
           | _ => rewrite fst_emit
           end; reflexivity. }
  split; [exact H|].
  unfold child_run.
  destruct (stress_landlock_flag k ctxt) as [rc t]; simpl in *.
  subst rc. reflexivity.
Qed.

Lemma existsb_open_and_close : forall file flags p fl ret,
  existsb (is_open_of file flags) (open_and_close p fl ret)
  = is_open_of file flags (EvOpen p fl ret).
Proof.
  intros. unfold open_and_close.
  destruct (-1 <? ret); simpl; now rewrite ?orb_false_r.
Qed.

Lemma existsb_unlink_open_and_close : forall file p fl ret,
  existsb (is_unlink_of file) (open_and_close p fl ret) = false.
Proof.
  intros. unfold open_and_close. destruct (-1 <? ret); reflexivity.
Qed.

(** C3 (as stated, refuted): with the rule attached and
    no-new-privileges set, a rejected [landlock_restrict_self] makes the
    child skip the three opens and the unlink. *)
Lemma restrict_rejected_skips_sanity_checks :
  reaches_restrict flag_env_restrict_rejected = true
  /\ sanity_checks_done (filename ctxt_example)
       (snd (stress_landlock_flag flag_env_restrict_rejected ctxt_example))
     = false
  /\ snd (stress_landlock_flag flag_env_restrict_rejected ctxt_example)
     = [EvOpen "/tmp/landlock-4242" (Z.lor O_CREAT (Z.lor O_RDWR O_CLOEXEC)) 3;
        EvClose 3;
        EvCreateRuleset None 1 1;
        EvCreateRuleset (Some 8191) 0 3;
        EvOpen "/tmp" O_PATH 4;
        EvAddRule 3 4 4 0;
        EvPrctlNoNewPrivs 0;
        EvRestrictSelf 3 (-1);
        EvLog "landlock_restrict_self failed";
        EvClose 4;
        EvClose 3].
Proof. repeat split. Qed.

(** C3 (amended): in a run that reaches the restriction step, the
    read-only, write-only and read-write opens of the test file and its
    unlink are all performed when [landlock_restrict_self] succeeds, and
    none of them is performed when it fails. *)
Theorem sanity_checks_iff_restricted :
  forall (k : flag_env) (ctxt : stress_landlock_ctxt_t),
    reaches_restrict k = true ->
    sanity_checks_done (filename ctxt) (snd (stress_landlock_flag k ctxt))
    = (0 <=? restrict_self_ret k)
    /\ sanity_checks_begun (filename ctxt) (snd (stress_landlock_flag k ctxt))
       = (0 <=? restrict_self_ret k).
Proof.
  intros k ctxt H.
  unfold reaches_restrict in H.
  apply andb_prop in H as [H Hp]. apply andb_prop in H as [H Ha].
  apply andb_prop in H as [Hc Ho].
  apply Z.leb_le in Hc, Ho, Ha, Hp.
  unfold sanity_checks_done, sanity_checks_begun, stress_landlock_flag,
    close_parent, close_ruleset.
  repeat rewrite snd_emit.
  replace (create_ruleset_ret k <? 0) with false by (symmetry; apply Z.ltb_ge; lia).
  repeat rewrite snd_emit.
  replace (open_path_ret k <? 0) with false by (symmetry; apply Z.ltb_ge; lia).
  repeat rewrite snd_emit.
  replace (add_rule_ret k <? 0) with false by (symmetry; apply Z.ltb_ge; lia).
  repeat rewrite snd_emit.
  replace (prctl_ret k <? 0) with false by (symmetry; apply Z.ltb_ge; lia).
  repeat rewrite snd_emit.
  destruct (Z.ltb_spec (restrict_self_ret k) 0) as [Hr | Hr].
  - replace (0 <=? restrict_self_ret k) with false
      by (symmetry; apply Z.leb_gt; lia).
    repeat rewrite snd_emit.
    repeat rewrite existsb_app.
    repeat rewrite existsb_open_and_close.
    repeat rewrite existsb_unlink_open_and_close.
    simpl. split; reflexivity.
  - replace (0 <=? restrict_self_ret k) with true
      by (symmetry; apply Z.leb_le; lia).
    repeat rewrite snd_emit.
    repeat rewrite existsb_app.
    repeat rewrite existsb_open_and_close.
    repeat rewrite existsb_unlink_open_and_close.
    simpl. rewrite String.eqb_refl.
    repeat rewrite orb_true_r. split; reflexivity.
Qed.

Lemma sanity_checks_iff_restricted_witness :
  sanity_checks_done (filename ctxt_example)
    (snd (stress_landlock_flag flag_env_ok ctxt_example)) = true
  /\ sanity_checks_begun (filename ctxt_example)
       (snd (stress_landlock_flag flag_env_ok ctxt_example)) = true.
Proof.
  exact (sanity_checks_iff_restricted flag_env_ok ctxt_example eq_refl).
Defined.

(** ** The subprocess test harness *)

Lemma test_again_failures_out : forall redo e func ctxt failures,
  failures_out (stress_landlock_test_again redo e func ctxt failures)
  = failures_out (stress_landlock_test_again 0 e func ctxt failures).
Proof.
  induction redo as [| redo IH]; intros; [reflexivity|].
  simpl. apply IH.
Qed.

Lemma test_again_child_trace : forall redo e func ctxt failures,
  child_trace (stress_landlock_test_again redo e func ctxt failures)
  = child_trace (stress_landlock_test_again 0 e func ctxt failures).
Proof.
  induction redo as [| redo IH]; intros; [reflexivity|].
  simpl. apply IH.
Qed.

Lemma test_again_parent_trace : forall redo e func ctxt failures,
  parent_trace (stress_landlock_test_again redo e func ctxt failures)
  = repeat (EvFork (-1)) redo
    ++ parent_trace (stress_landlock_test_again 0 e func ctxt failures).
Proof.
  induction redo as [| redo IH]; intros; [reflexivity|].
  simpl. now rewrite IH.
Qed.

(** The counter moves by at most one per harness call. *)
Lemma test_failures_step : forall e func ctxt failures,
  let r := stress_landlock_test e func ctxt failures in
  failures_out r = failures \/ failures_out r = failures + 1.
Proof.
  intros e func ctxt failures. unfold stress_landlock_test.
  cbv zeta. rewrite test_again_failures_out. simpl.
  destruct (fork_final e) as [| pid]; [now left|].
  unfold stress_landlock_test_parent.
  destruct (child_run (fate e) func ctxt) as [status ct].
  destruct (wait e).
  - destruct (WIFEXITED status); simpl; [|now left].
    destruct (negb _); [now right | now left].
  - now left.
  - destruct (WIFEXITED (stale_status e)); simpl; [|now left].
    destruct (negb _); [now right | now left].
Qed.

(** What the child issued is a prefix of what [func] issues. *)
Lemma test_child_trace_prefix : forall e func ctxt failures,
  exists n,
    child_trace (stress_landlock_test e func ctxt failures)
    = firstn n (snd (func ctxt)).
Proof.
  intros e func ctxt failures. unfold stress_landlock_test.
  rewrite test_again_child_trace. simpl.
  destruct (fork_final e) as [| pid]; [now exists 0%nat|].
  unfold stress_landlock_test_parent, child_run.
  destruct (func ctxt) as [rc t]. simpl.
  assert (Hall : exists n, t = firstn n t)
    by (exists (List.length t); now rewrite firstn_all).
  destruct (fate e) as [| after status].
  - destruct (wait e); try destruct (WIFEXITED _); simpl; exact Hall.
  - destruct (wait e); try destruct (WIFEXITED _); simpl; now exists after.
Qed.

(** C2 (as stated, refuted): a child killed by a signal (here SIGSEGV,
    wait status 11) did not exit normally with status 0, yet the
    harness leaves the failure counter as it was. *)
Lemma signalled_child_not_counted :
  WIFEXITED 11 = false
  /\ failures_out
       (stress_landlock_test test_env_sigsegv
          (stress_landlock_flag flag_env_ok) ctxt_example 0) = 0.
Proof. split; reflexivity. Qed.

(** C2 (amended): when the wait succeeds, the harness adds one to the
    failure counter exactly when the child exited normally with a
    non-zero status; a child that terminated abnormally, like one that
    exited with status 0, leaves the counter unchanged.  An interrupted
    wait and a fork that failed leave it unchanged as well. *)
Theorem harness_counts_nonzero_exits_only :
  forall (e : test_env) (func : stress_landlock_func)
         (ctxt : stress_landlock_ctxt_t) (failures : Z),
    let r := stress_landlock_test e func ctxt failures in
    (forall pid, fork_final e = ForkParent pid -> wait e = WaitOk ->
       failures_out r =
         if exited_nonzero (fst (child_run (fate e) func ctxt))
         then failures + 1 else failures)
    /\ (forall pid status, fork_final e = ForkParent pid -> wait e = WaitOk ->
          fst (child_run (fate e) func ctxt) = status ->
          WIFEXITED status = false -> failures_out r = failures)
    /\ (wait e = WaitEINTR -> failures_out r = failures)
    /\ (fork_final e = ForkFailed -> failures_out r = failures).
Proof.
  intros e func ctxt failures r. subst r.
  unfold stress_landlock_test. rewrite test_again_failures_out. simpl.
  unfold stress_landlock_test_parent, exited_nonzero.
  destruct (child_run (fate e) func ctxt) as [status ct]. simpl.
  repeat split.
  - intros pid Hf Hw. rewrite Hf, Hw.
    destruct (WIFEXITED status); simpl; [|reflexivity].
    destruct (negb _); reflexivity.
  - intros pid st Hf Hw Hs Hex. subst st. rewrite Hf, Hw, Hex. reflexivity.
  - intros Hw. destruct (fork_final e); [reflexivity|]. now rewrite Hw.
  - intros Hf. now rewrite Hf.
Qed.

Lemma harness_counts_nonzero_exits_only_witness :
  failures_out
    (stress_landlock_test test_env_exit1
       (stress_landlock_flag flag_env_ok) ctxt_example 3) = 4
  /\ failures_out
       (stress_landlock_test test_env_sigsegv
          (stress_landlock_flag flag_env_ok) ctxt_example 3) = 3
  /\ failures_out
       (stress_landlock_test test_env_eintr
          (stress_landlock_flag flag_env_ok) ctxt_example 3) = 3
  /\ failures_out
       (stress_landlock_test test_env_fork_failed
          (stress_landlock_flag flag_env_ok) ctxt_example 3) = 3.
Proof.
  split; [|split; [|split]].
  - exact (proj1 (harness_counts_nonzero_exits_only test_env_exit1
                    (stress_landlock_flag flag_env_ok) ctxt_example 3)
             4243 eq_refl eq_refl).
  - exact (proj1 (proj2 (harness_counts_nonzero_exits_only test_env_sigsegv
                    (stress_landlock_flag flag_env_ok) ctxt_example 3))
             4243 11 eq_refl eq_refl eq_refl eq_refl).
  - exact (proj1 (proj2 (proj2 (harness_counts_nonzero_exits_only test_env_eintr
                    (stress_landlock_flag flag_env_ok) ctxt_example 3)))
             eq_refl).
  - exact (proj2 (proj2 (proj2 (harness_counts_nonzero_exits_only
                    test_env_fork_failed
                    (stress_landlock_flag flag_env_ok) ctxt_example 3)))
             eq_refl).
Defined.

(** C7 (as stated, refuted): when [fork] fails and the retry policy
    gives up, the harness returns having issued nothing but the failed
    forks: the test file is not unlinked on that return path. *)
Lemma fork_failure_returns_without_unlink :
  parent_trace
    (stress_landlock_test test_env_fork_failed
       (stress_landlock_flag flag_env_ok) ctxt_example 0)
  = [EvFork (-1); EvFork (-1); EvFork (-1)]
  /\ existsb (is_unlink_of (filename ctxt_example))
       (parent_trace
          (stress_landlock_test test_env_fork_failed
             (stress_landlock_flag flag_env_ok) ctxt_example 0)) = false.
Proof. split; reflexivity. Qed.

(** C7 (amended): on every return path that follows a successful fork
    (normal child exit with any status, abnormal termination, a failed
    or an interrupted wait), the last thing the harness does before it
    returns is to unlink the context's filename.  When [fork] fails for
    good, the harness returns without an unlink, and no child has run. *)
Theorem harness_unlinks_after_fork :
  forall (e : test_env) (func : stress_landlock_func)
         (ctxt : stress_landlock_ctxt_t) (failures : Z),
    let r := stress_landlock_test e func ctxt failures in
    (forall pid, fork_final e = ForkParent pid ->
       exists t, parent_trace r = t ++ [EvUnlink (filename ctxt)])
    /\ (fork_final e = ForkFailed ->
          parent_trace r = repeat (EvFork (-1)) (S (fork_redo e))
          /\ child_trace r = []).
Proof.
  intros e func ctxt failures r. subst r.
  unfold stress_landlock_test.
  rewrite test_again_parent_trace, test_again_child_trace. simpl.
  split.
  - intros pid Hf. rewrite Hf.
    unfold stress_landlock_test_parent.
    destruct (child_run (fate e) func ctxt) as [status ct].
    destruct (wait e) as [| | errno].
    + destruct (WIFEXITED status); simpl;
        exists (repeat (EvFork (-1)) (fork_redo e)
                  ++ [EvFork pid; EvWaitpid pid pid]);
        now rewrite <- app_assoc.
    + simpl.
      exists (repeat (EvFork (-1)) (fork_redo e)
                ++ [EvFork pid; EvWaitpid pid (-1); EvKillWait pid]).
      now rewrite <- app_assoc.
    + destruct (WIFEXITED (stale_status e)); simpl;
        exists (repeat (EvFork (-1)) (fork_redo e)
                  ++ [EvFork pid; EvWaitpid pid (-1); EvLog "waitpid"]);
        now rewrite <- app_assoc.
  - intros Hf. rewrite Hf. simpl. split; [|reflexivity].
    change (EvFork (-1) :: repeat (EvFork (-1)) (fork_redo e))
      with (repeat (EvFork (-1)) (S (fork_redo e))).
    now rewrite <- repeat_cons.
Qed.

Lemma harness_unlinks_after_fork_witness :
  (exists t,
     parent_trace
       (stress_landlock_test test_env_eintr
          (stress_landlock_flag flag_env_ok) ctxt_example 0)
     = t ++ [EvUnlink (filename ctxt_example)])
  /\ parent_trace
       (stress_landlock_test test_env_fork_failed
          (stress_landlock_flag flag_env_ok) ctxt_example 0)
     = repeat (EvFork (-1)) 3.
Proof.
  split.
  - exact (proj1 (harness_unlinks_after_fork test_env_eintr
                    (stress_landlock_flag flag_env_ok) ctxt_example 0)
             4243 eq_refl).
  - exact (proj1 (proj2 (harness_unlinks_after_fork test_env_fork_failed
                    (stress_landlock_flag flag_env_ok) ctxt_example 0)
             eq_refl)).
Defined.

(** ** The driver: one stretch of harness calls *)

Lemma In_firstn : forall (A : Type) (n : nat) (l : list A) (x : A),
  In x (firstn n l) -> In x l.
Proof.
  induction n as [| n IH]; intros [| y l] x H; simpl in *; try contradiction.
  destruct H as [H | H]; [now left | right; now apply IH].
Qed.

Lemma In_open_and_close_add_rule : forall p fl ret rs a fd r,
  ~ In (EvAddRule rs a fd r) (open_and_close p fl ret).
Proof.
  intros. unfold open_and_close.
  destruct (-1 <? ret); simpl; intuition discriminate.
Qed.

(** The only rule the child attaches carries the context's flag. *)
Lemma stress_landlock_flag_add_rule : forall k ctxt rs a fd ret,
  In (EvAddRule rs a fd ret) (snd (stress_landlock_flag k ctxt)) ->
  a = to_uint64 (flag ctxt).
Proof.
  intros k ctxt rs a fd ret.
  unfold stress_landlock_flag, close_parent, close_ruleset.
  repeat match goal with
         | |- context [if ?b <? 0 then _ else _] => destruct (b <? 0)
         | _ => rewrite snd_emit
         end;
    cbn [snd]; rewrite ?in_app_iff; cbn [In];
    intros H;
    repeat match goal with
           | H : _ \/ _ |- _ => destruct H as [H | H]
           | H : In _ (open_and_close _ _ _) |- _ =>
               apply In_open_and_close_add_rule in H
           | H : False |- _ => contradiction
           | H : _ = EvAddRule _ _ _ _ |- _ =>
               first [discriminate H | injection H as _ <- _ _; reflexivity]
           | H : In _ (_ ++ _) |- _ => apply in_app_or in H
           | H : In _ (_ :: _) |- _ => cbn [In] in H
           | H : In _ [] |- _ => contradiction
           end.
Qed.

Lemma to_uint32_range : forall x, 0 <= to_uint32 x < 2 ^ 32.
Proof. intros. unfold to_uint32. apply Z.mod_pos_bound. lia. Qed.

Lemma to_uint32_id : forall x, 0 <= x < 2 ^ 32 -> to_uint32 x = x.
Proof. intros. unfold to_uint32. now apply Z.mod_small. Qed.

Lemma run_test_ok : forall env pass st v d st2,
  run_test env pass (with_flag st v) = (d, st2) ->
  dispatch_ok pass d
  /\ d_mask d = to_uint32 v
  /\ d_failures_in d = st_failures st
  /\ st_failures st2 = failures_out (d_result d)
  /\ flag (st_ctxt st2) = to_uint32 v.
Proof.
  intros env pass st v d st2 H.
  unfold run_test in H. injection H as <- <-. cbn.
  repeat split; try reflexivity.
  - apply to_uint32_range.
  - apply to_uint32_range.
  - apply test_failures_step.
  - intros rs a fd ret Hin. cbn in Hin |- *.
    destruct (test_child_trace_prefix
                (fst (tests env (st_ntests st)))
                (stress_landlock_flag (snd (tests env (st_ntests st))))
                (set_flag (st_ctxt st) v) (st_failures st)) as [n Hn].
    rewrite Hn in Hin. apply In_firstn in Hin.
    now apply stress_landlock_flag_add_rule in Hin.
Qed.

Lemma last_cons_default : forall (masks : list Z) (m g : Z),
  last (m :: masks) g = last masks m.
Proof.
  induction masks as [| x masks IH]; intros m g; [reflexivity|].
  change (last (m :: x :: masks) g) with (last (x :: masks) g).
  rewrite IH. symmetry. apply IH.
Qed.

Lemma last_app_default : forall (m1 m2 : list Z) (g : Z),
  last (m1 ++ m2) g = last m2 (last m1 g).
Proof.
  induction m1 as [| x m1 IH]; intros m2 g; [reflexivity|].
  rewrite <- app_comm_cons, !last_cons_default. apply IH.
Qed.

Lemma chained_app : forall l1 l2 f,
  chained f (l1 ++ l2) <-> chained f l1 /\ chained (final_failures f l1) l2.
Proof.
  induction l1 as [| d l1 IH]; intros l2 f; simpl.
  - tauto.
  - unfold final_failures in *. simpl. rewrite IH. tauto.
Qed.

Lemma Forall_removelast : forall (A : Type) (P : A -> Prop) (l : list A),
  Forall P l -> Forall P (removelast l).
Proof.
  induction l as [| x l IH]; intros H; [constructor|].
  inversion H; subst. simpl. destruct l; [constructor|].
  constructor; auto.
Qed.

Lemma seg_ok_length : forall pass masks f g l f' g' err,
  seg_ok pass masks f g l f' g' err ->
  (List.length l <= List.length masks)%nat.
Proof.
  intros pass masks f g l f' g' err H.
  pose proof (f_equal (@List.length Z) (seg_masks _ _ _ _ _ _ _ _ H)) as E.
  rewrite length_map, length_firstn in E. lia.
Qed.

Lemma seg_ok_nil : forall pass f g, f < 5 -> seg_ok pass [] f g [] f g false.
Proof.
  intros. constructor; simpl; auto; try discriminate.
Qed.

(** One harness call, whether it trips the threshold or not. *)
Lemma seg_ok_one : forall pass d f g m,
  dispatch_ok pass d -> d_failures_in d = f -> d_mask d = m ->
  seg_ok pass [m] f g [d] (failures_out (d_result d)) m
    (5 <=? failures_out (d_result d)).
Proof.
  intros pass d f g m Hd Hf Hm.
  constructor; simpl; auto.
  - now rewrite Hm.
  - intros E. apply Z.leb_le in E. split; [discriminate | exact E].
  - intros E. apply Z.leb_gt in E. unfold lt5. repeat split; auto.
Qed.

Lemma seg_ok_app : forall pass m1 m2 f g l1 f1 g1 l2 f2 g2 err,
  seg_ok pass m1 f g l1 f1 g1 false ->
  seg_ok pass m2 f1 g1 l2 f2 g2 err ->
  seg_ok pass (m1 ++ m2) f g (l1 ++ l2) f2 g2 err.
Proof.
  intros pass m1 m2 f g l1 f1 g1 l2 f2 g2 err H1 H2.
  destruct (seg_full _ _ _ _ _ _ _ _ H1 eq_refl) as (Hlen & Hlt & Hf1 & Hg1).
  constructor.
  - rewrite map_app, (seg_masks _ _ _ _ _ _ _ _ H1),
      (seg_masks _ _ _ _ _ _ _ _ H2), length_app, Hlen.
    rewrite firstn_all, firstn_app_2. reflexivity.
  - apply Forall_app. split; [apply H1 | apply H2].
  - apply chained_app. split; [apply H1|].
    rewrite <- (seg_final _ _ _ _ _ _ _ _ H1). apply H2.
  - unfold final_failures. rewrite fold_left_app.
    fold (final_failures f l1). rewrite <- (seg_final _ _ _ _ _ _ _ _ H1).
    apply H2.
  - destruct l2 as [| d l2].
    + rewrite app_nil_r. now apply Forall_removelast.
    + rewrite removelast_app by discriminate.
      apply Forall_app. split; [exact Hlt | apply H2].
  - intros E. destruct (seg_err _ _ _ _ _ _ _ _ H2 E) as [Hne H5].
    split; [|exact H5].
    intros Hnil. apply app_eq_nil in Hnil. tauto.
  - intros E.
    destruct (seg_full _ _ _ _ _ _ _ _ H2 E) as (Hlen2 & Hlt2 & Hf2 & Hg2).
    repeat split.
    + rewrite !length_app. lia.
    + apply Forall_app. now split.
    + exact Hf2.
    + rewrite last_app_default, <- Hg1. exact Hg2.
Qed.

(** A stretch that was cut short tests a prefix of any longer plan. *)
Lemma seg_ok_cut : forall pass m1 m2 f g l f' g' g'',
  seg_ok pass m1 f g l f' g' true ->
  seg_ok pass (m1 ++ m2) f g l f' g'' true.
Proof.
  intros pass m1 m2 f g l f' g' g'' H.
  pose proof (seg_ok_length _ _ _ _ _ _ _ _ H) as Hlen.
  constructor; try apply H; try discriminate.
  rewrite (seg_masks _ _ _ _ _ _ _ _ H).
  rewrite firstn_app.
  replace (List.length l - List.length m1)%nat with 0%nat by lia.
  simpl. now rewrite app_nil_r.
Qed.

Lemma cumulative_loop_ok : forall env pass tbl st l st' err,
  st_failures st < 5 ->
  0 <= flag (st_ctxt st) < 2 ^ 32 ->
  cumulative_loop env pass tbl st = (l, st', err) ->
  seg_ok pass (cumulative_masks (flag (st_ctxt st)) tbl)
    (st_failures st) (flag (st_ctxt st)) l
    (st_failures st') (flag (st_ctxt st')) err.
Proof.
  intros env pass tbl. induction tbl as [| x tbl IH];
    intros st l st' err Hf Hg H; cbn [cumulative_loop] in H.
  - injection H as <- <- <-. now apply seg_ok_nil.
  - destruct (run_test env pass _) as [d st2] eqn:Hrun.
    apply run_test_ok in Hrun as (Hd & Hm & Hin & Hout & Hflag).
    set (m := to_uint32 (Z.lor (flag (st_ctxt st)) (to_uint32 x))) in *.
    change (cumulative_masks (flag (st_ctxt st)) (x :: tbl))
      with ([m] ++ cumulative_masks m tbl).
    pose proof (seg_ok_one pass d (st_failures st) (flag (st_ctxt st)) m
                  Hd Hin Hm) as Hone.
    rewrite <- Hout in Hone.
    destruct (5 <=? st_failures st2) eqn:E5.
    + injection H as <- <- <-. rewrite Hflag.
      apply (seg_ok_cut pass [m] _ _ _ _ _ m). exact Hone.
    + destruct (cumulative_loop env pass tbl st2) as [[ds st3] err'] eqn:Hrec.
      injection H as <- <- <-.
      change (d :: ds) with ([d] ++ ds).
      apply seg_ok_app with (f1 := st_failures st2) (g1 := m); [exact Hone|].
      rewrite <- Hflag. apply IH; auto.
      * now apply Z.leb_gt.
      * rewrite Hflag. apply to_uint32_range.
Qed.

Lemma isolated_loop_ok : forall env pass tbl st l st' err,
  st_failures st < 5 ->
  isolated_loop env pass tbl st = (l, st', err) ->
  seg_ok pass (isolated_masks tbl)
    (st_failures st) (flag (st_ctxt st)) l
    (st_failures st') (flag (st_ctxt st')) err.
Proof.
  intros env pass tbl. induction tbl as [| x tbl IH];
    intros st l st' err Hf H; cbn [isolated_loop] in H.
  - injection H as <- <- <-. now apply seg_ok_nil.
  - destruct (run_test env pass _) as [d st2] eqn:Hrun.
    apply run_test_ok in Hrun as (Hd & Hm & Hin & Hout & Hflag).
    rewrite (to_uint32_id (to_uint32 x)) in Hm, Hflag
      by apply to_uint32_range.
    change (isolated_masks (x :: tbl))
      with ([to_uint32 x] ++ isolated_masks tbl).
    pose proof (seg_ok_one pass d (st_failures st) (flag (st_ctxt st))
                  (to_uint32 x) Hd Hin Hm) as Hone.
    rewrite <- Hout in Hone.
    destruct (5 <=? st_failures st2) eqn:E5.
    + injection H as <- <- <-. rewrite Hflag.
      apply (seg_ok_cut pass [to_uint32 x] _ _ _ _ _ (to_uint32 x)).
      exact Hone.
    + destruct (isolated_loop env pass tbl st2) as [[ds st3] err'] eqn:Hrec.
      injection H as <- <- <-.
      change (d :: ds) with ([d] ++ ds).
      apply seg_ok_app with (f1 := st_failures st2) (g1 := to_uint32 x);
        [exact Hone|].
      rewrite <- Hflag. apply IH; auto.
      now apply Z.leb_gt.
Qed.

(** ** The driver: passes and the outer loop *)

Lemma pass_masks_length : List.length pass_masks = 31%nat.
Proof. reflexivity. Qed.

Lemma last_isolated_masks : forall g,
  last (isolated_masks landlock_access_flags) g = 0.
Proof. reflexivity. Qed.

Lemma one_pass_ok : forall env pass st l st' err,
  st_failures st < 5 ->
  one_pass env pass st = (l, st', err) ->
  seg_ok pass pass_masks (st_failures st) 0 l
    (st_failures st') (flag (st_ctxt st')) err.
Proof.
  intros env pass st l st' err Hf H. unfold one_pass in H.
  destruct (cumulative_loop env pass landlock_access_flags (with_flag st 0))
    as [[l1 st1] err1] eqn:Hc.
  apply cumulative_loop_ok in Hc;
    [| exact Hf | cbn; unfold to_uint32; cbn; lia].
  change (st_failures (with_flag st 0)) with (st_failures st) in Hc.
  change (flag (st_ctxt (with_flag st 0))) with 0 in Hc.
  unfold pass_masks.
  destruct err1.
  - injection H as <- <- <-. eapply seg_ok_cut. exact Hc.
  - destruct (seg_full _ _ _ _ _ _ _ _ Hc eq_refl) as (_ & _ & Hf1 & _).
    destruct (isolated_loop env pass landlock_access_flags st1)
      as [[l2 st2] err2] eqn:Hi.
    apply isolated_loop_ok in Hi; [| exact Hf1].
    destruct err2.
    + injection H as <- <- <-.
      eapply seg_ok_app; [exact Hc|]. eapply seg_ok_cut. exact Hi.
    + destruct (seg_full _ _ _ _ _ _ _ _ Hi eq_refl) as (_ & _ & Hf2 & Hg2).
      rewrite last_isolated_masks in Hg2.
      destruct (run_test env pass _) as [d st4] eqn:Hrun.
      apply run_test_ok in Hrun as (Hd & Hm & Hin & Hout & Hflag).
      rewrite Hg2 in Hm, Hflag.
      change (to_uint32 (not_uint32 0))
        with (not_uint32 (last (isolated_masks landlock_access_flags) 0))
        in Hm, Hflag.
      assert (Hone : seg_ok pass
                [not_uint32 (last (isolated_masks landlock_access_flags) 0)]
                (st_failures st2) (flag (st_ctxt st2)) [d]
                (st_failures st4) (flag (st_ctxt st4))
                (5 <=? st_failures st4)).
      { rewrite Hout, Hflag. now apply seg_ok_one. }
      assert (Hall : seg_ok pass
                (cumulative_masks 0 landlock_access_flags
                 ++ isolated_masks landlock_access_flags
                 ++ [not_uint32 (last (isolated_masks landlock_access_flags) 0)])
                (st_failures st) 0 (l1 ++ l2 ++ [d])
                (st_failures st4) (flag (st_ctxt st4))
                (5 <=? st_failures st4)).
      { eapply seg_ok_app; [exact Hc|].
        eapply seg_ok_app; [exact Hi | exact Hone]. }
      destruct (5 <=? st_failures st4); injection H as <- <- <-; exact Hall.
Qed.

Lemma seg_ok_nth : forall pass masks f g l f' g' err j d,
  seg_ok pass masks f g l f' g' err ->
  nth_error l j = Some d ->
  d_mask d = nth j masks 0 /\ d_pass d = pass.
Proof.
  intros pass masks f g l f' g' err j d H Hn.
  split.
  - assert (Hj : (j < List.length l)%nat)
      by (apply nth_error_Some; rewrite Hn; discriminate).
    pose proof (map_nth_error d_mask j l Hn) as Hm.
    rewrite (seg_masks _ _ _ _ _ _ _ _ H), nth_error_firstn in Hm.
    apply Nat.ltb_lt in Hj. rewrite Hj in Hm.
    symmetry. now apply nth_error_nth.
  - apply nth_error_In in Hn.
    pose proof (seg_each _ _ _ _ _ _ _ _ H) as He.
    rewrite Forall_forall in He. apply He in Hn. apply Hn.
Qed.

Lemma seg_each_log : forall pass l,
  Forall (dispatch_ok pass) l ->
  Forall (fun d => dispatch_ok (d_pass d) d) l.
Proof.
  intros pass l H. eapply Forall_impl; [| exact H].
  intros d Hd. cbv beta. destruct Hd as [Hp Hd]. rewrite Hp.
  split; [exact Hp | exact Hd].
Qed.

Lemma log_ok_nil : forall pass f fin, f < 5 -> log_ok pass f [] f fin.
Proof.
  intros pass f fin Hf. constructor.
  - exact I.
  - reflexivity.
  - constructor.
  - intros _. split; [constructor | exact Hf].
  - constructor.
  - intros k j d _ Hn. rewrite nth_error_nil in Hn. discriminate.
Qed.

(** The last pass of a run, cut short by the threshold. *)
Lemma log_ok_cut : forall pass f g l f' g',
  seg_ok pass pass_masks f g l f' g' true ->
  log_ok pass f l f' true.
Proof.
  intros pass f g l f' g' H.
  pose proof (seg_ok_length _ _ _ _ _ _ _ _ H) as Hlen.
  rewrite pass_masks_length in Hlen.
  constructor; try apply H; try discriminate.
  - eapply seg_each_log. apply H.
  - intros k j d Hj Hn.
    assert (Hk : (31 * k + j < List.length l)%nat)
      by (apply nth_error_Some; rewrite Hn; discriminate).
    assert (k = 0%nat) by lia. subst k. rewrite Nat.add_0_r.
    eapply seg_ok_nth; [exact H | exact Hn].
Qed.

(** A full pass followed by the rest of the run. *)
Lemma log_ok_app : forall pass f g l f1 g1 l' f' fin,
  seg_ok pass pass_masks f g l f1 g1 false ->
  log_ok (S pass) f1 l' f' fin ->
  log_ok pass f (l ++ l') f' fin.
Proof.
  intros pass f g l f1 g1 l' f' fin H1 H2.
  destruct (seg_full _ _ _ _ _ _ _ _ H1 eq_refl) as (Hlen & Hlt & Hf1 & _).
  rewrite pass_masks_length in Hlen.
  constructor.
  - apply chained_app. split; [apply H1|].
    rewrite <- (seg_final _ _ _ _ _ _ _ _ H1). apply H2.
  - unfold final_failures. rewrite fold_left_app.
    fold (final_failures f l). rewrite <- (seg_final _ _ _ _ _ _ _ _ H1).
    apply H2.
  - destruct l' as [| d l'].
    + rewrite app_nil_r. now apply Forall_removelast.
    + rewrite removelast_app by discriminate.
      apply Forall_app. split; [exact Hlt | apply H2].
  - intros E. destruct (log_running _ _ _ _ _ H2 E) as [Hl' Hf'].
    split; [|exact Hf']. apply Forall_app. now split.
  - apply Forall_app. split; [|apply H2].
    eapply seg_each_log. apply H1.
  - intros k j d Hj Hn. destruct k as [| k].
    + rewrite nth_error_app1 in Hn by lia.
      rewrite Nat.add_0_r.
      replace (31 * 0 + j)%nat with j in Hn by lia.
      eapply seg_ok_nth; [exact H1 | exact Hn].
    + rewrite nth_error_app2 in Hn by lia.
      replace (31 * S k + j - List.length l)%nat with (31 * k + j)%nat
        in Hn by lia.
      destruct (log_nth _ _ _ _ _ H2 k j d Hj Hn) as [Hm Hp].
      split; [exact Hm | rewrite Hp; lia].
Qed.

Lemma stress_landlock_loop_ok : forall fuel env pass st l st' fin,
  st_failures st < 5 ->
  stress_landlock_loop fuel env pass st = (l, st', fin) ->
  log_ok pass (st_failures st) l (st_failures st') fin.
Proof.
  induction fuel as [| fuel IH]; intros env pass st l st' fin Hf H;
    cbn [stress_landlock_loop] in H.
  - injection H as <- <- <-. now apply log_ok_nil.
  - destruct (one_pass env pass st) as [[l1 st1] err] eqn:Hp.
    apply one_pass_ok in Hp; [| exact Hf].
    destruct err.
    + injection H as <- <- <-. eapply log_ok_cut. exact Hp.
    + destruct (seg_full _ _ _ _ _ _ _ _ Hp eq_refl) as (_ & _ & Hf1 & _).
      destruct (stress_continue env pass).
      * destruct (stress_landlock_loop fuel env (S pass) st1)
          as [[l2 st2] fin2] eqn:Hrec.
        injection H as <- <- <-.
        eapply log_ok_app; [exact Hp|].
        eapply IH; [exact Hf1 | exact Hrec].
      * injection H as <- <- <-.
        rewrite <- (app_nil_r l1).
        eapply log_ok_app; [exact Hp|]. now apply log_ok_nil.
Qed.

(** The log of the whole driver. *)
Lemma stress_landlock_log_ok : forall fuel env,
  let r := stress_landlock fuel env in
  log_ok 0 0 (dr_log r) (dr_failures r)
    (match dr_return r with Some _ => true | None => false end).
Proof.
  intros fuel env. unfold stress_landlock. cbv zeta.
  destruct (stress_landlock_loop fuel env 0%nat _) as [[l st] fin] eqn:H.
  apply stress_landlock_loop_ok in H; [| cbn; lia].
  cbn in H |- *. destruct fin; exact H.
Qed.

Lemma stress_landlock_loop_S : forall fuel env pass st,
  stress_landlock_loop (S fuel) env pass st =
  let '(l, st', err) := one_pass env pass st in
  if err then (l, st', true)
  else if stress_continue env pass then
    let '(l', st'', fin) := stress_landlock_loop fuel env (S pass) st' in
    (l ++ l', st'', fin)
  else (l, st', true).
Proof. reflexivity. Qed.

(** The loop is left as soon as the framework says so: fuel beyond the
    first pass at which [stress_continue] is false is never used. *)
Lemma stress_landlock_loop_returns : forall n env pass st,
  stress_continue env (pass + n)%nat = false ->
  snd (stress_landlock_loop (S n) env pass st) = true.
Proof.
  induction n as [| n IH]; intros env pass st Hs;
    rewrite stress_landlock_loop_S.
  - rewrite Nat.add_0_r in Hs.
    destruct (one_pass env pass st) as [[l st'] err].
    destruct err; [reflexivity|]. now rewrite Hs.
  - destruct (one_pass env pass st) as [[l st'] err].
    destruct err; [reflexivity|].
    destruct (stress_continue env pass); [|reflexivity].
    specialize (IH env (S pass) st').
    replace (S pass + n)%nat with (pass + S n)%nat in IH by lia.
    specialize (IH Hs).
    destruct (stress_landlock_loop (S n) env (S pass) st') as [[l2 st2] fin2].
    exact IH.
Qed.

(** ** The driver: the failure counter *)

Lemma chained_reads_range : forall l f,
  0 <= f < 5 -> chained f l -> Forall lt5 (removelast l) ->
  Forall (fun d => dispatch_ok (d_pass d) d) l ->
  Forall (fun d => 0 <= d_failures_in d < 5) l.
Proof.
  induction l as [| d l IH]; intros f Hf Hc Hb He; [constructor|].
  destruct Hc as [Hin Hc]. inversion He as [| ? ? Hd He']; subst.
  constructor; [exact Hf|].
  destruct l as [| d' l]; [constructor|].
  change (removelast (d :: d' :: l)) with (d :: removelast (d' :: l)) in Hb.
  inversion Hb as [| ? ? Hlt Hb']; subst.
  destruct Hd as (_ & _ & Hstep & _). unfold lt5 in Hlt.
  eapply IH; [| exact Hc | exact Hb' | exact He']. lia.
Qed.

Lemma chained_nth : forall l f i a b,
  chained f l ->
  nth_error l i = Some a -> nth_error l (S i) = Some b ->
  d_failures_in b = failures_out (d_result a).
Proof.
  induction l as [| d l IH]; intros f i a b Hc Ha Hb.
  - rewrite nth_error_nil in Ha. discriminate.
  - destruct Hc as [_ Hc]. destruct i as [| i].
    + simpl in Ha. injection Ha as <-.
      destruct l as [| d' l]; simpl in Hb; [discriminate|].
      injection Hb as <-. apply Hc.
    + simpl in Ha, Hb. eapply IH; eauto.
Qed.

(** C1 (as stated, refuted): the first child of the run leaves with
    [_exit(1)] and the framework asks for a second pass; the harness
    call that opens the second pass (call 31 of the run, mask 1) reads
    a failure counter of 1, not 0. *)
Lemma second_pass_reads_earlier_failures :
  option_map (fun d => (d_pass d, d_mask d, d_failures_in d))
    (nth_error (dr_log (stress_landlock 2 driver_env_one_failure)) 31)
  = Some (1%nat, 1, 1).
Proof. vm_compute. reflexivity. Qed.

(** C1 (amended): the failure counter is set to zero once, before the
    first pass, and is not reset afterwards.  Every harness call reads
    the value the previous call left, the first call of a pass reading
    what the last call of the pass before it left; the value read is
    between 0 and 4 and is the number of failures counted so far. *)
Theorem failure_counter_set_once :
  forall (fuel : nat) (env : driver_env),
    let r := stress_landlock fuel env in
    chained 0 (dr_log r)
    /\ dr_failures r = final_failures 0 (dr_log r)
    /\ Forall (fun d => 0 <= d_failures_in d < 5) (dr_log r)
    /\ (forall k d0 d1,
          nth_error (dr_log r) (31 * k + 30) = Some d0 ->
          nth_error (dr_log r) (31 * (S k)) = Some d1 ->
          d_pass d0 = k /\ d_pass d1 = S k
          /\ d_failures_in d1 = failures_out (d_result d0)).
Proof.
  intros fuel env r.
  pose proof (stress_landlock_log_ok fuel env) as H. fold r in H.
  cbv zeta in H.
  repeat split.
  - apply H.
  - apply H.
  - eapply chained_reads_range; [| apply H | apply H | apply H]. lia.
  - destruct (log_nth _ _ _ _ _ H k 30%nat d0) as [_ Hp]; [lia | assumption|].
    exact Hp.
  - destruct (log_nth _ _ _ _ _ H (S k) 0%nat d1) as [_ Hp];
      [lia | now rewrite Nat.add_0_r |].
    exact Hp.
  - eapply chained_nth; [apply H | eassumption |].
    replace (S (31 * k + 30)) with (31 * S k)%nat by lia. assumption.
Qed.

Lemma failure_counter_set_once_witness :
  exists d0 d1,
    nth_error (dr_log (stress_landlock 2 driver_env_one_failure)) 30 = Some d0
    /\ nth_error (dr_log (stress_landlock 2 driver_env_one_failure)) 31 = Some d1
    /\ d_failures_in d1 = failures_out (d_result d0).
Proof.
  destruct (nth_error (dr_log (stress_landlock 2 driver_env_one_failure)) 30)
    as [d0 |] eqn:E0; [| vm_compute in E0; discriminate E0].
  destruct (nth_error (dr_log (stress_landlock 2 driver_env_one_failure)) 31)
    as [d1 |] eqn:E1; [| vm_compute in E1; discriminate E1].
  exists d0, d1. split; [reflexivity | split; [reflexivity|]].
  exact (proj2 (proj2
    (proj2 (proj2 (proj2 (failure_counter_set_once 2 driver_env_one_failure)))
       0%nat d0 d1 E0 E1))).
Defined.

(** ** The driver: the threshold *)

(** C6: once a harness call leaves the failure counter at 5 or more, it
    is the last harness call of the run, whichever of the three places
    (cumulative loop, isolated loop, complement test) made it, and the
    driver has left its loop and returned. *)
Theorem no_dispatch_after_threshold :
  forall (fuel : nat) (env : driver_env)
         (l1 : list dispatch) (d : dispatch) (l2 : list dispatch),
    dr_log (stress_landlock fuel env) = l1 ++ d :: l2 ->
    5 <= failures_out (d_result d) ->
    l2 = [] /\ dr_return (stress_landlock fuel env) = Some EXIT_SUCCESS.
Proof.
  intros fuel env l1 d l2 Hlog H5.
  pose proof (stress_landlock_log_ok fuel env) as H. cbv zeta in H.
  rewrite Hlog in H.
  split.
  - destruct l2 as [| d' l2]; [reflexivity | exfalso].
    pose proof (log_below _ _ _ _ _ H) as Hb.
    rewrite removelast_app in Hb by discriminate.
    change (removelast (d :: d' :: l2)) with (d :: removelast (d' :: l2)) in Hb.
    apply Forall_app in Hb as [_ Hb]. inversion Hb as [| ? ? Hlt _]; subst.
    unfold lt5 in Hlt. lia.
  - assert (Hret : forall r, dr_return (stress_landlock fuel env) = Some r ->
                             r = EXIT_SUCCESS).
    { unfold stress_landlock.
      destruct (stress_landlock_loop fuel env 0%nat _) as [[l st] fin].
      cbn. destruct fin; intros r E; [now injection E | discriminate]. }
    destruct (dr_return (stress_landlock fuel env)) as [rc |] eqn:E.
    + now rewrite (Hret rc eq_refl).
    + exfalso.
      destruct (log_running _ _ _ _ _ H eq_refl) as [Hall _].
      apply Forall_app in Hall as [_ Hall].
      inversion Hall as [| ? ? Hlt _]; subst. unfold lt5 in Hlt. lia.
Qed.

Lemma no_dispatch_after_threshold_witness :
  List.length (dr_log (stress_landlock 3 driver_env_crashing)) = 5%nat
  /\ dr_return (stress_landlock 3 driver_env_crashing) = Some EXIT_SUCCESS.
Proof.
  split; [vm_compute; reflexivity|].
  assert (H : exists l1 d,
             dr_log (stress_landlock 3 driver_env_crashing) = l1 ++ [d]
             /\ 5 <= failures_out (d_result d)).
  { pose (d0 := {| d_pass := 0%nat; d_mask := 0; d_failures_in := 0;
                   d_result := {| failures_out := 0; parent_trace := [];
                                  child_trace := [] |} |}).
    exists (removelast (dr_log (stress_landlock 3 driver_env_crashing))),
           (last (dr_log (stress_landlock 3 driver_env_crashing)) d0).
    split; [vm_compute; reflexivity|].
    vm_compute. intro E. discriminate E. }
  destruct H as (l1 & d & Hlog & H5).
  exact (proj2 (no_dispatch_after_threshold 3 driver_env_crashing l1 d []
                  Hlog H5)).
Defined.

(** ** The driver: the flag table and the masks *)

(** C5 (as stated, refuted): the table has fifteen entries, not
    thirteen; its fourth entry is the two-bit mask write-file|read-file
    and its last entry is 0, neither of which is an atomic flag. *)
Lemma flag_table_has_non_atomic_entries :
  List.length landlock_access_flags = 15%nat
  /\ nth 3 landlock_access_flags 0
     = Z.lor SHIM_LANDLOCK_ACCESS_FS_WRITE_FILE SHIM_LANDLOCK_ACCESS_FS_READ_FILE
  /\ is_atomic_flag (nth 3 landlock_access_flags 0) = false
  /\ nth 14 landlock_access_flags 0 = 0
  /\ is_atomic_flag (nth 14 landlock_access_flags 0) = false
  /\ forallb is_atomic_flag landlock_access_flags = false
  /\ landlock_access_flags <> atomic_access_flags.
Proof.
  repeat split. intro E. discriminate E.
Qed.

Lemma isolated_position : forall i,
  (i < 15)%nat ->
  nth (15 + i) pass_masks 0 = nth i landlock_access_flags 0.
Proof.
  intros i Hi.
  do 15 (destruct i as [| i]; [reflexivity|]). lia.
Qed.

(** C5 (amended): the table has fifteen entries: the thirteen atomic
    flags in bit order, with the combined write-file|read-file mask
    put after read-file and a terminating 0 at the end.  In the
    isolated loop of every pass each table entry in turn is the whole
    mask of one test: test [15 + i] of pass [k] has mask
    [landlock_access_flags[i]]. *)
Theorem flag_table_and_isolated_tests :
  landlock_access_flags
  = firstn 3 atomic_access_flags
    ++ [Z.lor SHIM_LANDLOCK_ACCESS_FS_WRITE_FILE
              SHIM_LANDLOCK_ACCESS_FS_READ_FILE]
    ++ skipn 3 atomic_access_flags ++ [0]
  /\ List.length atomic_access_flags = 13%nat
  /\ filter is_atomic_flag landlock_access_flags = atomic_access_flags
  /\ forall (fuel : nat) (env : driver_env) (k i : nat) (d : dispatch),
       (i < 15)%nat ->
       nth_error (dr_log (stress_landlock fuel env)) (31 * k + (15 + i))
       = Some d ->
       d_mask d = nth i landlock_access_flags 0 /\ d_pass d = k.
Proof.
  split; [reflexivity|]. split; [reflexivity|]. split; [reflexivity|].
  intros fuel env k i d Hi Hn.
  pose proof (stress_landlock_log_ok fuel env) as H. cbv zeta in H.
  destruct (log_nth _ _ _ _ _ H k (15 + i)%nat d) as [Hm Hp];
    [lia | exact Hn |].
  rewrite isolated_position in Hm by exact Hi.
  split; [exact Hm | exact Hp].
Qed.

Lemma flag_table_and_isolated_tests_witness :
  exists d,
    nth_error (dr_log (stress_landlock 1 driver_env_quiet)) 18 = Some d
    /\ d_mask d = 6.
Proof.
  destruct (nth_error (dr_log (stress_landlock 1 driver_env_quiet)) 18)
    as [d |] eqn:E; [| vm_compute in E; discriminate E].
  exists d. split; [reflexivity|].
  exact (proj1 (proj2 (proj2 (proj2 flag_table_and_isolated_tests))
                  1%nat driver_env_quiet 0%nat 3%nat d
                  (proj1 (Nat.leb_le 4 15) eq_refl) E)).
Defined.

Lemma uint32_high_bits : forall a,
  0 <= a < 2 ^ 32 ->
  to_uint64 a = a
  /\ Z.shiftr a 32 = 0
  /\ forall n, 32 <= n -> Z.testbit a n = false.
Proof.
  intros a Ha.
  assert (Hs : Z.shiftr a 32 = 0)
    by (rewrite Z.shiftr_div_pow2 by lia; apply Z.div_small; lia).
  repeat split.
  - unfold to_uint64. apply Z.mod_small. lia.
  - exact Hs.
  - intros n Hn. replace n with ((n - 32) + 32) by lia.
    rewrite <- Z.shiftr_spec by lia. rewrite Hs. apply Z.testbit_0_l.
Qed.

(** C10: the context's flag is a 32-bit field.  The last test of a
    pass follows the isolated test of the table's terminating 0 and
    has the 32-bit complement of that mask, 0xFFFFFFFF, whose bits 0
    to 31 are all set; and for every test of a run the mask is below
    2^32, so the 64-bit [allowed_access] of any rule its child attaches
    equals the mask and has bits 32 to 63 clear. *)
Theorem allowed_access_is_32_bit :
  forall (fuel : nat) (env : driver_env),
    let log := dr_log (stress_landlock fuel env) in
    (forall k d' d,
       nth_error log (31 * k + 29) = Some d' ->
       nth_error log (31 * k + 30) = Some d ->
       d_mask d' = 0
       /\ d_mask d = not_uint32 (d_mask d')
       /\ d_mask d = 4294967295)
    /\ (forall n, 0 <= n < 32 -> Z.testbit 4294967295 n = true)
    /\ (forall d, In d log ->
          0 <= d_mask d < 2 ^ 32
          /\ forall rs a fd ret,
               In (EvAddRule rs a fd ret) (child_trace (d_result d)) ->
               a = d_mask d
               /\ Z.shiftr a 32 = 0
               /\ forall n, 32 <= n -> Z.testbit a n = false).
Proof.
  intros fuel env log.
  pose proof (stress_landlock_log_ok fuel env) as H. cbv zeta in H.
  fold log in H.
  split; [| split].
  - intros k d' d Hn' Hn.
    destruct (log_nth _ _ _ _ _ H k 29%nat d') as [Hm' _];
      [lia | exact Hn' |].
    destruct (log_nth _ _ _ _ _ H k 30%nat d) as [Hm _];
      [lia | exact Hn |].
    rewrite Hm', Hm. repeat split.
  - intros n Hn. change 4294967295 with (Z.ones 32).
    apply Z.ones_spec_low. lia.
  - intros d Hin.
    pose proof (log_each _ _ _ _ _ H) as He.
    rewrite Forall_forall in He. apply He in Hin.
    destruct Hin as (_ & Hrange & _ & Hrules).
    split; [exact Hrange|].
    intros rs a fd ret Ha. apply Hrules in Ha.
    destruct (uint32_high_bits (d_mask d) Hrange) as (H64 & Hs & Hb).
    rewrite H64 in Ha. subst a. repeat split; assumption.
Qed.

Lemma allowed_access_is_32_bit_witness :
  exists d,
    nth_error (dr_log (stress_landlock 1 driver_env_quiet)) 30 = Some d
    /\ d_mask d = 4294967295
    /\ In (EvAddRule 3 4294967295 4 0) (child_trace (d_result d))
    /\ Z.shiftr 4294967295 32 = 0.
Proof.
  destruct (nth_error (dr_log (stress_landlock 1 driver_env_quiet)) 29)
    as [d' |] eqn:E'; [| vm_compute in E'; discriminate E'].
  destruct (nth_error (dr_log (stress_landlock 1 driver_env_quiet)) 30)
    as [d |] eqn:E; [| vm_compute in E; discriminate E].
  exists d.
  pose proof (allowed_access_is_32_bit 1 driver_env_quiet) as T.
  cbv zeta in T. destruct T as (Tc & _ & Tr).
  destruct (Tc 0%nat d' d E' E) as (_ & _ & Hm).
  assert (Hin : In (EvAddRule 3 4294967295 4 0) (child_trace (d_result d))).
  { vm_compute in E. injection E as <-. vm_compute. tauto. }
  destruct (Tr d (nth_error_In _ _ E)) as [_ Hr].
  destruct (Hr 3 4294967295 4 0 Hin) as (_ & Hs & _).
  repeat split; assumption.
Defined.

(** ** The recursive enumerator *)

Lemma stress_landlock_many_entries_cons :
  forall env recur fd path depth d rest,
    stress_landlock_many_entries env recur fd path depth (d :: rest) =
    let next := stress_landlock_many_entries env recur fd path depth rest in
    match classify_entry env path d with
    | EntrySkip => next
    | EntryFile resolved => file_step env fd resolved next
    | EntryDir resolved =>
        if depth <? 30 then dir_step (recur resolved (depth + 1)) next
        else next
    end.
Proof.
  intros env recur fd path depth d rest.
  cbn [stress_landlock_many_entries]. unfold classify_entry.
  destruct (many_realpath env (join_path path (d_name d))) as [resolved |];
    [| reflexivity].
  destruct (join_path path (d_name d) =? resolved)%string; [| reflexivity].
  destruct (d_type d); reflexivity.
Qed.

Lemma unbounded_entries_cons :
  forall env recur fd path depth d rest,
    unbounded_entries env recur fd path depth (d :: rest) =
    let next := unbounded_entries env recur fd path depth rest in
    match classify_entry env path d with
    | EntrySkip => next
    | EntryFile resolved => file_step env fd resolved next
    | EntryDir resolved => dir_step (recur resolved (depth + 1)) next
    end.
Proof.
  intros env recur fd path depth d rest.
  cbn [unbounded_entries]. unfold classify_entry.
  destruct (many_realpath env (join_path path (d_name d))) as [resolved |];
    [| reflexivity].
  destruct (join_path path (d_name d) =? resolved)%string; [| reflexivity].
  destruct (d_type d); reflexivity.
Qed.

Lemma stress_landlock_many_S : forall fuel env path depth,
  stress_landlock_many (S fuel) env path depth =
  let ruleset_fd := many_create_ruleset env path in
  let t0 := [EvCall path depth;
             EvCreateRuleset (Some SHIM_LANDLOCK_ACCESS_ALL) 0 ruleset_fd] in
  if ruleset_fd <? 0 then
    Some (t0 ++ [EvLog "landlock_create_ruleset failed"])
  else
    match stress_landlock_many_entries env (stress_landlock_many fuel env)
            ruleset_fd path depth (snd (scandir_filtered env path))
    with
    | None => None
    | Some t =>
        Some (t0 ++ [EvScandir path (fst (scandir_filtered env path))]
                 ++ t ++ [EvClose ruleset_fd])
    end.
Proof.
  intros fuel env path depth. cbn [stress_landlock_many].
  destruct (scandir_filtered env path). reflexivity.
Qed.

Lemma unbounded_walk_S : forall fuel env path depth,
  unbounded_walk (S fuel) env path depth =
  let ruleset_fd := many_create_ruleset env path in
  let t0 := [EvCall path depth;
             EvCreateRuleset (Some SHIM_LANDLOCK_ACCESS_ALL) 0 ruleset_fd] in
  if ruleset_fd <? 0 then
    Some (t0 ++ [EvLog "landlock_create_ruleset failed"])
  else
    match unbounded_entries env (unbounded_walk fuel env)
            ruleset_fd path depth (snd (scandir_filtered env path))
    with
    | None => None
    | Some t =>
        Some (t0 ++ [EvScandir path (fst (scandir_filtered env path))]
                 ++ t ++ [EvClose ruleset_fd])
    end.
Proof.
  intros fuel env path depth. cbn [unbounded_walk].
  destruct (scandir_filtered env path). reflexivity.
Qed.

(** Inverting the two combinators. *)
Lemma file_step_some : forall env fd r next t,
  file_step env fd r next = Some t ->
  exists t1,
    call_depths t1 = []
    /\ (many_realpath env r = Some r -> Forall (names_resolved_path env) t1)
    /\ (forall p fl ret, In (EvOpen p fl ret) t1 -> p = r)
    /\ (t = t1 \/ exists t2, next = Some t2 /\ t = t1 ++ t2).
Proof.
  intros env fd r next t. unfold file_step.
  set (opened := EvOpen r (Z.lor O_PATH O_NONBLOCK) (many_open env r)).
  set (attached := EvAddRule fd (to_uint64 SHIM_LANDLOCK_ACCESS_FS_READ_FILE)
                     (many_open env r) (many_add_rule env r)).
  set (closed := EvClose (many_open env r)).
  assert (H3 : call_depths [opened; attached; closed] = []
               /\ (many_realpath env r = Some r ->
                   Forall (names_resolved_path env) [opened; attached; closed])
               /\ (forall p fl ret,
                     In (EvOpen p fl ret) [opened; attached; closed] -> p = r)).
  { split; [reflexivity|]. split; [intros Hr; repeat constructor; exact Hr|].
    intros p fl ret [E | [E | [E | []]]]; try discriminate E.
    now injection E. }
  destruct H3 as (Ha & Hb & Hc).
  destruct (many_open env r <? 0).
  - intros H. injection H as <-. exists [opened].
    split; [reflexivity|].
    split; [intros Hr; repeat constructor; exact Hr|]. split; [| now left].
    intros p fl ret [E | []]. now injection E.
  - destruct (many_add_rule env r <? 0).
    + intros H. injection H as <-. exists [opened; attached; closed].
      repeat split; auto.
    + destruct next as [t2 |]; [| discriminate].
      intros H. injection H as <-. exists [opened; attached; closed].
      repeat split; auto. right. now exists t2.
Qed.

Lemma dir_step_some : forall sub next t,
  dir_step sub next = Some t ->
  exists t1 t2, sub = Some t1 /\ next = Some t2 /\ t = t1 ++ t2.
Proof.
  intros [t1 |] [t2 |] t H; try discriminate H.
  injection H as <-. now exists t1, t2.
Qed.

Lemma call_depths_app : forall t1 t2,
  call_depths (t1 ++ t2) = call_depths t1 ++ call_depths t2.
Proof.
  induction t1 as [| ev t1 IH]; intros t2; [reflexivity|].
  destruct ev; simpl; rewrite IH; reflexivity.
Qed.

(** *** Termination *)

Lemma stress_landlock_many_entries_total :
  forall env recur fd path depth,
    (depth < 30 -> forall p, exists t, recur p (depth + 1) = Some t) ->
    forall namelist,
      exists t,
        stress_landlock_many_entries env recur fd path depth namelist = Some t.
Proof.
  intros env recur fd path depth Hrec.
  induction namelist as [| d rest [tn IH]]; [now exists []|].
  rewrite stress_landlock_many_entries_cons. cbv zeta. rewrite IH.
  destruct (classify_entry env path d) as [| r | r].
  - now exists tn.
  - unfold file_step.
    destruct (many_open env r <? 0); [eauto|].
    destruct (many_add_rule env r <? 0); simpl; eauto.
  - destruct (Z.ltb_spec depth 30) as [Hd | Hd]; [| now exists tn].
    destruct (Hrec Hd r) as [ts ->]. simpl. eauto.
Qed.

(** The nesting of the calls never exceeds what [30 - depth] allows,
    whatever the file system looks like. *)
Lemma stress_landlock_many_total : forall fuel env path depth,
  (Z.to_nat (30 - depth) < fuel)%nat ->
  exists t, stress_landlock_many fuel env path depth = Some t.
Proof.
  induction fuel as [| fuel IH]; intros env path depth Hfuel; [lia|].
  rewrite stress_landlock_many_S. cbv zeta.
  destruct (many_create_ruleset env path <? 0); [eauto|].
  destruct (stress_landlock_many_entries_total env
              (stress_landlock_many fuel env)
              (many_create_ruleset env path) path depth) with
    (namelist := snd (scandir_filtered env path)) as [t ->].
  - intros Hd p. apply IH. lia.
  - eauto.
Qed.

Lemma stress_landlock_many_entries_mono :
  forall env rec1 rec2 fd path depth,
    (forall p t, rec1 p (depth + 1) = Some t -> rec2 p (depth + 1) = Some t) ->
    forall namelist t,
      stress_landlock_many_entries env rec1 fd path depth namelist = Some t ->
      stress_landlock_many_entries env rec2 fd path depth namelist = Some t.
Proof.
  intros env rec1 rec2 fd path depth Hrec.
  induction namelist as [| d rest IH]; intros t H; [exact H|].
  rewrite stress_landlock_many_entries_cons in H |- *. cbv zeta in H |- *.
  destruct (classify_entry env path d) as [| r | r].
  - now apply IH.
  - unfold file_step in H |- *.
    destruct (many_open env r <? 0); [exact H|].
    destruct (many_add_rule env r <? 0); [exact H|].
    destruct (stress_landlock_many_entries env rec1 fd path depth rest)
      as [tn |]; [| discriminate H].
    now rewrite (IH tn eq_refl).
  - destruct (depth <? 30); [| now apply IH].
    apply dir_step_some in H as (t1 & t2 & H1 & H2 & ->).
    rewrite (Hrec _ _ H1), (IH _ H2). reflexivity.
Qed.

(** More fuel does not change a result. *)
Lemma stress_landlock_many_mono : forall fuel fuel' env path depth t,
  (fuel <= fuel')%nat ->
  stress_landlock_many fuel env path depth = Some t ->
  stress_landlock_many fuel' env path depth = Some t.
Proof.
  induction fuel as [| fuel IH]; intros fuel' env path depth t Hle H;
    [discriminate H|].
  destruct fuel' as [| fuel']; [lia|].
  rewrite stress_landlock_many_S in H |- *. cbv zeta in H |- *.
  destruct (many_create_ruleset env path <? 0); [exact H|].
  destruct (stress_landlock_many_entries env (stress_landlock_many fuel env)
              _ path depth _) as [te |] eqn:E; [| discriminate H].
  erewrite stress_landlock_many_entries_mono; [exact H | | exact E].
  intros p t' Hp. eapply IH; [| exact Hp]. lia.
Qed.

(** *** The depth of the calls *)

Lemma steps_by_one_app : forall depth l2 r a,
  steps_by_one a r ->
  Forall (fun d => depth <= d) (a :: r) ->
  (forall x, depth <= x -> steps_by_one x l2) ->
  steps_by_one a (r ++ l2).
Proof.
  intros depth l2. induction r as [| b r IH]; intros a Hs Hall H2.
  - simpl. apply H2. now inversion Hall.
  - destruct Hs as [Hb Hs]. simpl. split; [exact Hb|].
    apply IH; [exact Hs | now inversion Hall | exact H2].
Qed.

Lemma nested_calls_ok_nil : forall depth, nested_calls_ok depth [].
Proof. intros depth. split; [constructor | intros; exact I]. Qed.

Lemma nested_calls_ok_sub : forall depth rest l2,
  depth < 30 ->
  nested_calls_ok (depth + 1) rest ->
  nested_calls_ok depth l2 ->
  nested_calls_ok depth (((depth + 1) :: rest) ++ l2).
Proof.
  intros depth rest l2 Hd [Hr Hrs] [H2 H2s].
  assert (Hr' : Forall (fun d => depth < d <= 30) rest).
  { eapply Forall_impl; [| exact Hr]. cbv beta. intros; lia. }
  split.
  - apply Forall_app. split; [| exact H2].
    constructor; [lia | exact Hr'].
  - intros x Hx. simpl. split; [lia|].
    apply steps_by_one_app with (depth := depth).
    + apply Hrs. lia.
    + constructor; [lia|].
      eapply Forall_impl; [| exact Hr']. cbv beta. intros; lia.
    + exact H2s.
Qed.

Lemma stress_landlock_many_entries_depths :
  forall env recur fd path depth,
    (depth < 30 -> forall p t, recur p (depth + 1) = Some t ->
       exists rest, call_depths t = (depth + 1) :: rest
                    /\ nested_calls_ok (depth + 1) rest) ->
    forall namelist t,
      stress_landlock_many_entries env recur fd path depth namelist = Some t ->
      nested_calls_ok depth (call_depths t)
      /\ (30 <= depth -> call_depths t = []).
Proof.
  intros env recur fd path depth Hrec.
  induction namelist as [| d rest IH]; intros t H.
  - injection H as <-. split; [apply nested_calls_ok_nil | reflexivity].
  - rewrite stress_landlock_many_entries_cons in H. cbv zeta in H.
    destruct (classify_entry env path d) as [| r | r].
    + now apply IH.
    + apply file_step_some in H as (t1 & H1 & _ & _ & [-> | (t2 & Hn & ->)]).
      * rewrite H1. split; [apply nested_calls_ok_nil | reflexivity].
      * rewrite call_depths_app, H1. now apply IH.
    + destruct (Z.ltb_spec depth 30) as [Hd | Hd]; [| now apply IH].
      apply dir_step_some in H as (t1 & t2 & H1 & H2 & ->).
      destruct (Hrec Hd r t1 H1) as (rest1 & E1 & Hn1).
      rewrite call_depths_app, E1. split; [| lia].
      apply nested_calls_ok_sub; [exact Hd | exact Hn1 | now apply IH].
Qed.

(** The first call is the one asked for; those below it are deeper,
    never deeper than 30 and never more than one level below the call
    before; at depth 30 or more nothing is called. *)
Lemma stress_landlock_many_depths : forall fuel env path depth t,
  stress_landlock_many fuel env path depth = Some t ->
  exists rest,
    call_depths t = depth :: rest
    /\ nested_calls_ok depth rest
    /\ (30 <= depth -> rest = []).
Proof.
  induction fuel as [| fuel IH]; intros env path depth t H;
    [discriminate H|].
  rewrite stress_landlock_many_S in H. cbv zeta in H.
  destruct (many_create_ruleset env path <? 0).
  - injection H as <-. exists []. simpl.
    split; [reflexivity|]. split; [apply nested_calls_ok_nil | reflexivity].
  - destruct (stress_landlock_many_entries env (stress_landlock_many fuel env)
                _ path depth _) as [te |] eqn:E; [| discriminate H].
    injection H as <-.
    apply stress_landlock_many_entries_depths in E as [Hn H30].
    + exists (call_depths te). cbn [app call_depths].
      rewrite call_depths_app. simpl. rewrite app_nil_r.
      split; [reflexivity|]. split; [exact Hn | exact H30].
    + intros _ p t1 H1. apply IH in H1 as (rest1 & E1 & Hn1 & _).
      now exists rest1.
Qed.

Lemma max_depth_le : forall l b,
  -1 <= b ->
  fold_right Z.max (-1) l <= b <-> Forall (fun d => d <= b) l.
Proof.
  intros l b Hb. induction l as [| x l IH]; simpl.
  - split; [constructor | lia].
  - split.
    + intros H. constructor; [lia | apply IH; lia].
    + intros H. inversion H; subst. apply IH in H3. lia.
Qed.

Lemma max_depth_ge : forall l b,
  -1 < b ->
  b <= fold_right Z.max (-1) l <-> Exists (fun d => b <= d) l.
Proof.
  intros l b Hb. induction l as [| x l IH]; simpl.
  - split; [lia | intros H; inversion H].
  - split.
    + intros H. destruct (Z_le_gt_dec b x) as [Hx | Hx].
      * now left.
      * right. apply IH. lia.
    + intros H. inversion H; subst; [lia|].
      apply IH in H1. lia.
Qed.

(** *** The realpath test *)

Lemma classify_entry_resolved : forall env path d r,
  classify_entry env path d = EntryFile r
  \/ classify_entry env path d = EntryDir r ->
  r = join_path path (d_name d)
  /\ many_realpath env r = Some r
  /\ entry_skipped env path d = false.
Proof.
  intros env path d r. unfold classify_entry, entry_skipped.
  destruct (many_realpath env (join_path path (d_name d))) as [res |] eqn:E;
    [| intros [H | H]; discriminate H].
  destruct (join_path path (d_name d) =? res)%string eqn:Q;
    [| intros [H | H]; discriminate H].
  apply String.eqb_eq in Q. subst res.
  destruct (d_type d); intros [H | H]; try discriminate H;
    injection H as <-; auto.
Qed.

Lemma classify_entry_skipped : forall env path d,
  entry_skipped env path d = true ->
  classify_entry env path d = EntrySkip.
Proof.
  intros env path d. unfold classify_entry, entry_skipped.
  destruct (many_realpath env (join_path path (d_name d))) as [res |];
    [| reflexivity].
  destruct (join_path path (d_name d) =? res)%string; [discriminate|].
  reflexivity.
Qed.

(** Listing a directory with its skipped entries or without them
    makes no difference to what the loop does. *)
Lemma stress_landlock_many_entries_filter :
  forall env recur fd path depth namelist,
    stress_landlock_many_entries env recur fd path depth namelist
    = stress_landlock_many_entries env recur fd path depth
        (filter (fun d => negb (entry_skipped env path d)) namelist).
Proof.
  intros env recur fd path depth.
  induction namelist as [| d rest IH]; [reflexivity|].
  cbn [filter]. destruct (entry_skipped env path d) eqn:S; cbn [negb].
  - rewrite stress_landlock_many_entries_cons. cbv zeta.
    rewrite (classify_entry_skipped _ _ _ S). exact IH.
  - rewrite !stress_landlock_many_entries_cons. cbv zeta.
    rewrite <- IH. reflexivity.
Qed.

Lemma stress_landlock_many_entries_resolved :
  forall env recur fd path depth,
    (forall p t, recur p (depth + 1) = Some t ->
       exists t', t = EvCall p (depth + 1) :: t'
                  /\ Forall (names_resolved_path env) t') ->
    forall namelist t,
      stress_landlock_many_entries env recur fd path depth namelist = Some t ->
      Forall (names_resolved_path env) t.
Proof.
  intros env recur fd path depth Hrec.
  induction namelist as [| d rest IH]; intros t H.
  - injection H as <-. constructor.
  - rewrite stress_landlock_many_entries_cons in H. cbv zeta in H.
    destruct (classify_entry env path d) as [| r | r] eqn:C.
    + now apply IH.
    + destruct (classify_entry_resolved env path d r (or_introl C))
        as (_ & Hr & _).
      apply file_step_some in H as (t1 & _ & H1 & _ & [-> | (t2 & Hn & ->)]).
      * now apply H1.
      * apply Forall_app. split; [now apply H1 | now apply IH].
    + destruct (classify_entry_resolved env path d r (or_intror C))
        as (_ & Hr & _).
      destruct (depth <? 30); [| now apply IH].
      apply dir_step_some in H as (t1 & t2 & H1 & H2 & ->).
      destruct (Hrec r t1 H1) as (t' & -> & Ht').
      apply Forall_app. split; [| now apply IH].
      constructor; [exact Hr | exact Ht'].
Qed.

(** After its first call, a run only opens and enters paths that are
    their own real path. *)
Lemma stress_landlock_many_resolved : forall fuel env path depth t,
  stress_landlock_many fuel env path depth = Some t ->
  exists t', t = EvCall path depth :: t'
             /\ Forall (names_resolved_path env) t'.
Proof.
  induction fuel as [| fuel IH]; intros env path depth t H;
    [discriminate H|].
  rewrite stress_landlock_many_S in H. cbv zeta in H.
  destruct (many_create_ruleset env path <? 0).
  - injection H as <-. eexists. split; [reflexivity|].
    repeat constructor.
  - destruct (stress_landlock_many_entries env (stress_landlock_many fuel env)
                _ path depth _) as [te |] eqn:E; [| discriminate H].
    injection H as <-. eexists. split; [reflexivity|].
    constructor; [exact I|]. constructor; [exact I|].
    apply Forall_app. split; [| repeat constructor].
    eapply stress_landlock_many_entries_resolved; [| exact E].
    intros p t1 H1. now apply IH.
Qed.

(** *** Against the walk without the bound *)

Lemma unbounded_walk_head : forall fuel env path depth t,
  unbounded_walk fuel env path depth = Some t ->
  exists t', t = EvCall path depth :: t'.
Proof.
  intros [| fuel] env path depth t H; [discriminate H|].
  rewrite unbounded_walk_S in H. cbv zeta in H.
  destruct (many_create_ruleset env path <? 0).
  - injection H as <-. eexists. reflexivity.
  - destruct (unbounded_entries _ _ _ _ _ _); [| discriminate H].
    injection H as <-. eexists. reflexivity.
Qed.

Lemma entries_same_when_shallow :
  forall env recf recc fd path depth,
    (forall p tf, recf p (depth + 1) = Some tf ->
       In (depth + 1) (call_depths tf)) ->
    (forall p tf, recf p (depth + 1) = Some tf ->
       Forall (fun d => d <= 30) (call_depths tf) ->
       recc p (depth + 1) = Some tf) ->
    forall namelist tf,
      unbounded_entries env recf fd path depth namelist = Some tf ->
      Forall (fun d => d <= 30) (call_depths tf) ->
      stress_landlock_many_entries env recc fd path depth namelist = Some tf.
Proof.
  intros env recf recc fd path depth Hhead Hrec.
  induction namelist as [| d rest IH]; intros tf H Hall; [exact H|].
  rewrite unbounded_entries_cons in H. cbv zeta in H.
  rewrite stress_landlock_many_entries_cons. cbv zeta.
  destruct (classify_entry env path d) as [| r | r].
  - now apply IH.
  - unfold file_step in H |- *.
    destruct (many_open env r <? 0); [exact H|].
    destruct (many_add_rule env r <? 0); [exact H|].
    destruct (unbounded_entries env recf fd path depth rest) as [t2 |];
      [| discriminate H].
    simpl in H. injection H as <-.
    rewrite (IH t2 eq_refl); [reflexivity | exact Hall].
  - apply dir_step_some in H as (t1 & t2 & H1 & H2 & ->).
    rewrite call_depths_app in Hall. apply Forall_app in Hall as [Ha1 Ha2].
    pose proof (Hhead r t1 H1) as Hin.
    pose proof (proj1 (Forall_forall _ _) Ha1 _ Hin) as Hd. cbv beta in Hd.
    replace (depth <? 30) with true by (symmetry; apply Z.ltb_lt; lia).
    rewrite (Hrec r t1 H1 Ha1), (IH t2 H2 Ha2). reflexivity.
Qed.

(** When no call of the unbounded walk is deeper than 30, the
    enumerator does exactly what the unbounded walk does. *)
Lemma stress_landlock_many_same_when_shallow :
  forall fuel env path depth tf,
    unbounded_walk fuel env path depth = Some tf ->
    Forall (fun d => d <= 30) (call_depths tf) ->
    stress_landlock_many fuel env path depth = Some tf.
Proof.
  induction fuel as [| fuel IH]; intros env path depth tf H Hall;
    [discriminate H|].
  rewrite unbounded_walk_S in H. cbv zeta in H.
  rewrite stress_landlock_many_S. cbv zeta.
  destruct (many_create_ruleset env path <? 0); [exact H|].
  destruct (unbounded_entries env (unbounded_walk fuel env) _ path depth _)
    as [te |] eqn:E; [| discriminate H].
  injection H as <-.
  cbn [app call_depths] in Hall. rewrite call_depths_app in Hall.
  inversion Hall as [| ? ? _ Hall']; subst.
  apply Forall_app in Hall' as [Hte _].
  erewrite entries_same_when_shallow; [reflexivity | | | exact E | exact Hte].
  - intros p t1 H1. apply unbounded_walk_head in H1 as [t' ->]. now left.
  - intros p t1 H1 Ha. now apply IH.
Qed.

Lemma entries_reach_30_when_deep :
  forall env recf recc fd path depth,
    depth < 30 ->
    (forall p tf tc,
       recf p (depth + 1) = Some tf -> recc p (depth + 1) = Some tc ->
       Exists (fun d => 30 <= d) (call_depths tf) ->
       In 30 (call_depths tc)) ->
    forall namelist tf tc,
      unbounded_entries env recf fd path depth namelist = Some tf ->
      stress_landlock_many_entries env recc fd path depth namelist = Some tc ->
      Exists (fun d => 30 <= d) (call_depths tf) ->
      In 30 (call_depths tc).
Proof.
  intros env recf recc fd path depth Hd Hrec.
  induction namelist as [| d rest IH]; intros tf tc Hf Hc Hex.
  - injection Hf as <-. inversion Hex.
  - rewrite unbounded_entries_cons in Hf. cbv zeta in Hf.
    rewrite stress_landlock_many_entries_cons in Hc. cbv zeta in Hc.
    destruct (classify_entry env path d) as [| r | r].
    + eapply IH; eauto.
    + unfold file_step in Hf, Hc.
      destruct (many_open env r <? 0).
      { injection Hf as <-. inversion Hex. }
      destruct (many_add_rule env r <? 0).
      { injection Hf as <-. inversion Hex. }
      destruct (unbounded_entries env recf fd path depth rest) as [t2f |];
        [| discriminate Hf].
      destruct (stress_landlock_many_entries env recc fd path depth rest)
        as [t2c |]; [| discriminate Hc].
      simpl in Hf, Hc. injection Hf as <-. injection Hc as <-.
      exact (IH t2f t2c eq_refl eq_refl Hex).
    + replace (depth <? 30) with true in Hc
        by (symmetry; apply Z.ltb_lt; lia).
      apply dir_step_some in Hf as (t1f & t2f & H1f & H2f & ->).
      apply dir_step_some in Hc as (t1c & t2c & H1c & H2c & ->).
      rewrite call_depths_app in Hex |- *. apply in_or_app.
      apply Exists_app in Hex as [Hex | Hex].
      * left. eapply Hrec; eauto.
      * right. eapply IH; eauto.
Qed.

(** When the unbounded walk has a call at depth 30 or more, the
    enumerator has a call at depth 30. *)
Lemma stress_landlock_many_reaches_30_when_deep :
  forall fuel fuelc env path depth tf tc,
    depth <= 30 ->
    unbounded_walk fuel env path depth = Some tf ->
    stress_landlock_many fuelc env path depth = Some tc ->
    Exists (fun d => 30 <= d) (call_depths tf) ->
    In 30 (call_depths tc).
Proof.
  induction fuel as [| fuel IH]; intros fuelc env path depth tf tc Hd Hf Hc Hex;
    [discriminate Hf|].
  destruct fuelc as [| fuelc]; [discriminate Hc|].
  rewrite unbounded_walk_S in Hf. cbv zeta in Hf.
  rewrite stress_landlock_many_S in Hc. cbv zeta in Hc.
  destruct (many_create_ruleset env path <? 0).
  - injection Hf as <-. injection Hc as <-. simpl in Hex |- *.
    inversion Hex as [? ? H30 | ? ? Hn]; subst; [left; lia | inversion Hn].
  - destruct (unbounded_entries env (unbounded_walk fuel env) _ path depth _)
      as [tef |] eqn:Ef; [| discriminate Hf].
    destruct (stress_landlock_many_entries env (stress_landlock_many fuelc env)
                _ path depth _) as [tec |] eqn:Ec; [| discriminate Hc].
    injection Hf as <-. injection Hc as <-.
    cbn [app call_depths] in Hex |- *.
    rewrite call_depths_app in Hex |- *.
    inversion Hex as [? ? H30 | ? ? Hn]; subst; [left; lia|].
    apply Exists_app in Hn as [Hn | Hn]; [| inversion Hn].
    destruct (Z.eq_dec depth 30) as [-> | Hne]; [now left|].
    right. apply in_or_app. left.
    eapply entries_reach_30_when_deep; [| | exact Ef | exact Ec | exact Hn];
      [lia|].
    intros p t1f t1c H1f H1c Hx. eapply IH; [| exact H1f | exact H1c | exact Hx].
    lia.
Qed.

(** *** The depth bound *)

(** C8: the enumerator returns on every file system, whatever its
    shape: 31 nested calls are all a run from depth 0 ever needs.  A
    directory is entered only from a call whose depth is below 30 and
    at that depth plus one, so the calls below the first are deeper
    than it, at most one level below the call before them and never
    deeper than 30, and a call at depth 30 or more enters nothing.
    Measured against the walk without the bound: when that walk stays
    short of depth 30 the enumerator does exactly the same (the tree is
    walked fully), and when it goes to depth 30 or beyond the deepest
    call of the enumerator is at depth 30 exactly. *)
Theorem stress_landlock_many_bounded :
  forall (env : many_env) (path : string),
    (forall depth,
       exists t,
         stress_landlock_many (S (Z.to_nat (30 - depth))) env path depth
         = Some t)
    /\ (forall fuel depth t,
          stress_landlock_many fuel env path depth = Some t ->
          exists rest,
            call_depths t = depth :: rest
            /\ Forall (fun d => depth < d <= 30) rest
            /\ steps_by_one depth rest
            /\ (30 <= depth -> rest = []))
    /\ (forall fuel tf,
          unbounded_walk fuel env path 0 = Some tf ->
          (max_depth tf < 30 ->
           stress_landlock_many 31 env path 0 = Some tf)
          /\ (30 <= max_depth tf ->
              exists t,
                stress_landlock_many 31 env path 0 = Some t
                /\ max_depth t = 30)).
Proof.
  intros env path. split; [| split].
  - intros depth. apply stress_landlock_many_total. lia.
  - intros fuel depth t H.
    apply stress_landlock_many_depths in H as (rest & E & [Hall Hsteps] & H30).
    exists rest. split; [exact E|]. split; [exact Hall|].
    split; [apply Hsteps; lia | exact H30].
  - intros fuel tf Hf.
    destruct (stress_landlock_many_total 31 env path 0) as [t Ht]; [simpl; lia|].
    split.
    + intros Hmax.
      assert (Hall : Forall (fun d => d <= 30) (call_depths tf))
        by (apply max_depth_le; [lia | unfold max_depth in Hmax; lia]).
      pose proof (stress_landlock_many_same_when_shallow _ _ _ _ _ Hf Hall)
        as Hsame.
      apply stress_landlock_many_mono with (fuel' := Nat.max fuel 31) in Hsame;
        [| lia].
      pose proof (stress_landlock_many_mono 31 (Nat.max fuel 31) _ _ _ _
                    (Nat.le_max_r _ _) Ht) as Ht'.
      rewrite Ht' in Hsame. injection Hsame as ->. exact Ht.
    + intros Hmax. exists t. split; [exact Ht|].
      assert (Hex : Exists (fun d => 30 <= d) (call_depths tf))
        by (apply max_depth_ge; [lia | exact Hmax]).
      assert (Hin : In 30 (call_depths t)).
      { eapply stress_landlock_many_reaches_30_when_deep;
          [| exact Hf | exact Ht | exact Hex]. lia. }
      apply stress_landlock_many_depths in Ht as (rest & E & [Hall _] & _).
      unfold max_depth. apply Z.le_antisymm.
      * apply max_depth_le; [lia|]. rewrite E.
        constructor; [lia|].
        eapply Forall_impl; [| exact Hall]. cbv beta. intros; lia.
      * apply max_depth_ge; [lia|]. apply Exists_exists.
        exists 30. split; [exact Hin | lia].
Qed.

Lemma stress_landlock_many_bounded_witness :
  stress_landlock_many 31 many_env_small "/" 0 = Some small_walk
  /\ (exists rest,
        call_depths small_walk = 0 :: rest
        /\ Forall (fun d => 0 < d <= 30) rest
        /\ steps_by_one 0 rest
        /\ (30 <= 0 -> rest = []))
  /\ (exists t,
        stress_landlock_many 31 many_env_chain "/" 0 = Some t
        /\ max_depth t = 30)
  /\ max_depth chain_walk = 40.
Proof.
  assert (Es : unbounded_walk 5 many_env_small "/" 0 = Some small_walk)
    by (vm_compute; reflexivity).
  assert (Ec : unbounded_walk 50 many_env_chain "/" 0 = Some chain_walk)
    by (vm_compute; reflexivity).
  assert (Hs : max_depth small_walk < 30) by (vm_compute; reflexivity).
  assert (Hc : 30 <= max_depth chain_walk)
    by (vm_compute; intro E; discriminate E).
  assert (E31 : stress_landlock_many 31 many_env_small "/" 0 = Some small_walk).
  { exact (proj1 (proj2 (proj2 (stress_landlock_many_bounded
                                  many_env_small "/")) 5%nat small_walk Es)
             Hs). }
  split; [exact E31 | split; [| split]].
  - exact (proj1 (proj2 (stress_landlock_many_bounded many_env_small "/"))
             31%nat 0 small_walk E31).
  - exact (proj2 (proj2 (proj2 (stress_landlock_many_bounded
                                  many_env_chain "/")) 50%nat chain_walk Ec)
             Hc).
  - vm_compute. reflexivity.
Defined.

(** *** The realpath test *)

(** C9: an entry whose joined path has no real path, or a real path
    other than itself, is passed over: the loop goes on as if the entry
    had not been listed, so nothing is opened, no rule is attached and
    no directory is entered for it.  Over a whole run, a path that is
    not its own real path is never opened, and never entered except
    when it is the path the run was started on. *)
Theorem unresolved_entries_are_skipped :
  forall (env : many_env),
    (forall recur fd path depth d rest,
       many_realpath env (join_path path (d_name d)) = None
       \/ (exists r, many_realpath env (join_path path (d_name d)) = Some r
                     /\ r <> join_path path (d_name d)) ->
       entry_skipped env path d = true
       /\ stress_landlock_many_entries env recur fd path depth (d :: rest)
          = stress_landlock_many_entries env recur fd path depth rest)
    /\ (forall recur fd path depth namelist,
          stress_landlock_many_entries env recur fd path depth namelist
          = stress_landlock_many_entries env recur fd path depth
              (filter (fun d => negb (entry_skipped env path d)) namelist))
    /\ (forall fuel path depth t p,
          stress_landlock_many fuel env path depth = Some t ->
          many_realpath env p <> Some p ->
          (forall fl ret, ~ In (EvOpen p fl ret) t)
          /\ (forall d, ~ In (EvCall p d) (tl t))).
Proof.
  intros env. split; [| split].
  - intros recur fd path depth d rest H.
    assert (S : entry_skipped env path d = true).
    { unfold entry_skipped.
      destruct H as [-> | (r & -> & Hne)]; [reflexivity|].
      destruct (String.eqb_spec (join_path path (d_name d)) r) as [E | E];
        [congruence | reflexivity]. }
    split; [exact S|].
    rewrite stress_landlock_many_entries_cons. cbv zeta.
    now rewrite (classify_entry_skipped _ _ _ S).
  - apply stress_landlock_many_entries_filter.
  - intros fuel path depth t p H Hp.
    apply stress_landlock_many_resolved in H as (t' & -> & Hall).
    rewrite Forall_forall in Hall. split.
    + intros fl ret [E | Hin]; [discriminate E|].
      apply Hall in Hin. simpl in Hin. contradiction.
    + intros d Hin. simpl in Hin. apply Hall in Hin. simpl in Hin.
      contradiction.
Qed.

Lemma unresolved_entries_are_skipped_witness :
  stress_landlock_many 31 many_env_small "/" 0 = Some small_walk
  /\ ~ In (EvOpen "/l" (Z.lor O_PATH O_NONBLOCK) 4) small_walk
  /\ ~ In (EvOpen "/gone" (Z.lor O_PATH O_NONBLOCK) 4) small_walk
  /\ entry_skipped many_env_small "/" {| d_name := "l"; d_type := DT_LNK |}
     = true.
Proof.
  assert (E : stress_landlock_many 31 many_env_small "/" 0 = Some small_walk)
    by (vm_compute; reflexivity).
  assert (Hl : many_realpath many_env_small "/l" <> Some "/l"%string)
    by (vm_compute; intro Q; discriminate Q).
  assert (Hg : many_realpath many_env_small "/gone" <> Some "/gone"%string)
    by (vm_compute; intro Q; discriminate Q).
  assert (Hs : exists r,
             many_realpath many_env_small
               (join_path "/" (d_name {| d_name := "l"; d_type := DT_LNK |}))
             = Some r
             /\ r <> join_path "/" (d_name {| d_name := "l"; d_type := DT_LNK |})).
  { exists "/etc/passwd"%string. split; [vm_compute; reflexivity|].
    vm_compute. intro Q. discriminate Q. }
  split; [exact E|]. split; [| split].
  - exact (proj1 (proj2 (proj2 (unresolved_entries_are_skipped many_env_small))
                    31%nat "/"%string 0 small_walk "/l"%string E Hl)
             (Z.lor O_PATH O_NONBLOCK) 4).
  - exact (proj1 (proj2 (proj2 (unresolved_entries_are_skipped many_env_small))
                    31%nat "/"%string 0 small_walk "/gone"%string E Hg)
             (Z.lor O_PATH O_NONBLOCK) 4).
  - exact (proj1 (proj1 (unresolved_entries_are_skipped many_env_small)
                    (fun _ _ => None) 3 "/"%string 0
                    {| d_name := "l"; d_type := DT_LNK |} []
                    (or_intror Hs))).
Defined.

(* ================================================================= *)
(** * Further properties *)

(** ** Descriptor bookkeeping *)

Lemma replay_fds_peak_ge : forall t held final peak,
  replay_fds held t = Some (final, peak) ->
  (List.length held <= peak)%nat.
Proof.
  induction t as [| ev t IH]; intros held final peak H; simpl in H.
  - injection H as _ <-. lia.
  - destruct (step_fds held ev) as [held' |]; [| discriminate H].
    destruct (replay_fds held' t) as [[f p] |]; [| discriminate H].
    injection H as _ <-. lia.
Qed.

Lemma replay_fds_app : forall t1 t2 held,
  replay_fds held (t1 ++ t2) =
  match replay_fds held t1 with
  | None => None
  | Some (h1, p1) =>
      match replay_fds h1 t2 with
      | None => None
      | Some (h2, p2) => Some (h2, Nat.max p1 p2)
      end
  end.
Proof.
  induction t1 as [| ev t1 IH]; intros t2 held; simpl.
  - destruct (replay_fds held t2) as [[h2 p2] |] eqn:E; [| reflexivity].
    apply replay_fds_peak_ge in E. f_equal. f_equal. lia.
  - destruct (step_fds held ev) as [held' |]; [| reflexivity].
    rewrite IH.
    destruct (replay_fds held' t1) as [[h1 p1] |]; [| reflexivity].
    destruct (replay_fds h1 t2) as [[h2 p2] |]; [| reflexivity].
    f_equal. f_equal. lia.
Qed.

Lemma step_fds_frame : forall held ev held' base,
  step_fds held ev = Some held' ->
  step_fds (held ++ base) ev = Some (held' ++ base).
Proof.
  intros held ev held' base H.
  destruct ev; simpl in H |- *;
    try (destruct (0 <=? ret); injection H as <-; reflexivity);
    try (injection H as <-; reflexivity).
  - destruct held as [| top rest]; [discriminate H|]. simpl.
    destruct (fd =? top); [| discriminate H]. now injection H as <-.
  - destruct handled_access_fs; [destruct (0 <=? ret)|];
      injection H as <-; reflexivity.
Qed.

(** A trace that is fine on its own is fine on top of what the process
    already holds. *)
Lemma replay_fds_frame : forall t held final peak base,
  replay_fds held t = Some (final, peak) ->
  replay_fds (held ++ base) t
  = Some (final ++ base, (peak + List.length base)%nat).
Proof.
  induction t as [| ev t IH]; intros held final peak base H; simpl in H |- *.
  - injection H as <- <-. now rewrite length_app.
  - destruct (step_fds held ev) as [held' |] eqn:S; [| discriminate H].
    rewrite (step_fds_frame _ _ _ base S).
    destruct (replay_fds held' t) as [[f p] |] eqn:R; [| discriminate H].
    injection H as <- <-.
    rewrite (IH _ _ _ base R), length_app. f_equal. f_equal. lia.
Qed.

Lemma ret_cases : forall r,
  ((r <? 0) = true /\ (0 <=? r) = false /\ (-1 <? r) = false)
  \/ ((r <? 0) = false /\ (0 <=? r) = true /\ (-1 <? r) = true).
Proof.
  intros r. destruct (Z_lt_ge_dec r 0) as [H | H]; [left | right];
    repeat split;
    first [apply Z.ltb_lt | apply Z.ltb_ge | apply Z.leb_le | apply Z.leb_gt];
    lia.
Qed.

Ltac split_ret r :=
  let A := fresh "A" in let B := fresh "B" in let C := fresh "C" in
  destruct (ret_cases r) as [(A & B & C) | (A & B & C)];
  rewrite ?A, ?C.

Ltac replay_now :=
  unfold emit;
  repeat (cbn [replay_fds step_fds opens_fd app snd fst List.length];
          repeat match goal with
                 | H : (0 <=? ?r) = _ |- context [0 <=? ?r] => rewrite H
                 end;
          rewrite ?Z.eqb_refl);
  eexists; split; [reflexivity | cbn; lia].

(** X1: whatever the kernel answers, the test child closes every
    descriptor it was given, the most recent first, never closes
    anything else, holds none when it returns and never more than
    three at once. *)
Theorem stress_landlock_flag_closes_descriptors :
  forall (k : flag_env) (ctxt : stress_landlock_ctxt_t),
    exists peak,
      replay_fds [] (snd (stress_landlock_flag k ctxt)) = Some ([], peak)
      /\ (peak <= 3)%nat.
Proof.
  intros k ctxt.
  unfold stress_landlock_flag, close_parent, close_ruleset, open_and_close.
  repeat rewrite snd_emit.
  split_ret (open_creat_ret k);
    (split_ret (create_ruleset_ret k); [replay_now|]);
    (repeat rewrite snd_emit; split_ret (open_path_ret k); [replay_now|]);
    (repeat rewrite snd_emit; split_ret (add_rule_ret k); [replay_now|]);
    (repeat rewrite snd_emit; split_ret (prctl_ret k); [replay_now|]);
    (repeat rewrite snd_emit; split_ret (restrict_self_ret k);
       [repeat rewrite snd_emit; replay_now|]);
    repeat rewrite snd_emit;
    split_ret (open_rdonly_ret k); split_ret (open_wronly_ret k);
    split_ret (open_rdwr_ret k); replay_now.
Qed.

(** ** More on the test child *)

Lemma count_events_app : forall p t1 t2,
  count_events p (t1 ++ t2) = (count_events p t1 + count_events p t2)%nat.
Proof.
  intros. unfold count_events. now rewrite filter_app, length_app.
Qed.

Lemma In_open_and_close_restrict : forall p fl ret fd r,
  ~ In (EvRestrictSelf fd r) (open_and_close p fl ret).
Proof.
  intros. unfold open_and_close.
  destruct (-1 <? ret); simpl; intuition discriminate.
Qed.

Lemma count_restrict_open_and_close : forall p fl ret,
  count_events is_restrict_self (open_and_close p fl ret) = 0%nat.
Proof.
  intros. unfold open_and_close. destruct (-1 <? ret); reflexivity.
Qed.

Ltac no_restrict H :=
  repeat rewrite in_app_iff in H; cbn [In] in H;
  repeat match goal with
         | H : _ \/ _ |- _ => destruct H as [H | H]
         | H : In _ (open_and_close _ _ _) |- _ =>
             apply In_open_and_close_restrict in H
         | H : False |- _ => contradiction
         | H : _ = EvRestrictSelf _ _ |- _ => discriminate H
         end.

(** X2: the test child calls [landlock_restrict_self] at most once, and
    only on the ruleset it created, directly after a [prctl] that set
    no-new-privileges and an [add_rule] with the context's mask that
    both succeeded. *)
Theorem restrict_self_only_after_rule_and_no_new_privs :
  forall (k : flag_env) (ctxt : stress_landlock_ctxt_t),
    let t := snd (stress_landlock_flag k ctxt) in
    (count_events is_restrict_self t <= 1)%nat
    /\ forall fd r,
         In (EvRestrictSelf fd r) t ->
         reaches_restrict k = true
         /\ fd = create_ruleset_ret k
         /\ r = restrict_self_ret k
         /\ exists t1 t2,
              t = t1
                  ++ [EvAddRule fd (to_uint64 (flag ctxt))
                        (open_path_ret k) (add_rule_ret k);
                      EvPrctlNoNewPrivs (prctl_ret k);
                      EvRestrictSelf fd r]
                  ++ t2.
Proof.
  intros k ctxt t. subst t.
  unfold stress_landlock_flag, close_parent, close_ruleset, reaches_restrict.
  repeat rewrite snd_emit.
  destruct (ret_cases (create_ruleset_ret k)) as [(A & B & _) | (A & B & _)];
    rewrite A, B.
  { split.
    - rewrite !count_events_app, count_restrict_open_and_close. cbn. lia.
    - intros fd r H. cbn [snd] in H. no_restrict H. }
  repeat rewrite snd_emit.
  destruct (ret_cases (open_path_ret k)) as [(A1 & B1 & _) | (A1 & B1 & _)];
    rewrite A1, B1.
  { split.
    - rewrite !count_events_app, count_restrict_open_and_close. cbn. lia.
    - intros fd r H. cbn [snd] in H. no_restrict H. }
  repeat rewrite snd_emit.
  destruct (ret_cases (add_rule_ret k)) as [(A2 & B2 & _) | (A2 & B2 & _)];
    rewrite A2, B2.
  { split.
    - rewrite !count_events_app, count_restrict_open_and_close. cbn. lia.
    - intros fd r H. repeat rewrite snd_emit in H. cbn [snd] in H.
      no_restrict H. }
  repeat rewrite snd_emit.
  destruct (ret_cases (prctl_ret k)) as [(A3 & B3 & _) | (A3 & B3 & _)];
    rewrite A3, B3.
  { split.
    - repeat rewrite snd_emit.
      rewrite !count_events_app, count_restrict_open_and_close. cbn. lia.
    - intros fd r H. repeat rewrite snd_emit in H. cbn [snd] in H.
      no_restrict H. }
  repeat rewrite snd_emit.
  assert (Hshape : forall rest fd r,
            In (EvRestrictSelf fd r)
              (open_and_close (filename ctxt)
                 (Z.lor O_CREAT (Z.lor O_RDWR O_CLOEXEC)) (open_creat_ret k)
               ++ [EvCreateRuleset None SHIM_LANDLOCK_CREATE_RULESET_VERSION
                     (ruleset_version_ret k)]
               ++ [EvCreateRuleset (Some SHIM_LANDLOCK_ACCESS_ALL) 0
                     (create_ruleset_ret k)]
               ++ [EvOpen (path ctxt) O_PATH (open_path_ret k)]
               ++ [EvAddRule (create_ruleset_ret k) (to_uint64 (flag ctxt))
                     (open_path_ret k) (add_rule_ret k)]
               ++ [EvPrctlNoNewPrivs (prctl_ret k)]
               ++ [EvRestrictSelf (create_ruleset_ret k) (restrict_self_ret k)]
               ++ rest) ->
            ~ In (EvRestrictSelf fd r) rest ->
            true && true && true && true = true
            /\ fd = create_ruleset_ret k
            /\ r = restrict_self_ret k
            /\ exists t1 t2,
                 open_and_close (filename ctxt)
                   (Z.lor O_CREAT (Z.lor O_RDWR O_CLOEXEC)) (open_creat_ret k)
                 ++ [EvCreateRuleset None SHIM_LANDLOCK_CREATE_RULESET_VERSION
                       (ruleset_version_ret k)]
                 ++ [EvCreateRuleset (Some SHIM_LANDLOCK_ACCESS_ALL) 0
                       (create_ruleset_ret k)]
                 ++ [EvOpen (path ctxt) O_PATH (open_path_ret k)]
                 ++ [EvAddRule (create_ruleset_ret k) (to_uint64 (flag ctxt))
                       (open_path_ret k) (add_rule_ret k)]
                 ++ [EvPrctlNoNewPrivs (prctl_ret k)]
                 ++ [EvRestrictSelf (create_ruleset_ret k)
                       (restrict_self_ret k)]
                 ++ rest
                 = t1
                   ++ [EvAddRule fd (to_uint64 (flag ctxt))
                         (open_path_ret k) (add_rule_ret k);
                       EvPrctlNoNewPrivs (prctl_ret k);
                       EvRestrictSelf fd r]
                   ++ t2).
  { intros rest fd r H Hrest.
    assert (E : EvRestrictSelf (create_ruleset_ret k) (restrict_self_ret k)
                = EvRestrictSelf fd r).
    { repeat rewrite in_app_iff in H. cbn [In] in H.
      repeat match goal with
             | H : _ \/ _ |- _ => destruct H as [H | H]
             | H : In _ (open_and_close _ _ _) |- _ =>
                 apply In_open_and_close_restrict in H
             | H : False |- _ => contradiction
             end; try discriminate H; try contradiction; exact H. }
    injection E as <- <-.
    split; [reflexivity|]. split; [reflexivity|]. split; [reflexivity|].
    exists (open_and_close (filename ctxt)
              (Z.lor O_CREAT (Z.lor O_RDWR O_CLOEXEC)) (open_creat_ret k)
            ++ [EvCreateRuleset None SHIM_LANDLOCK_CREATE_RULESET_VERSION
                  (ruleset_version_ret k);
                EvCreateRuleset (Some SHIM_LANDLOCK_ACCESS_ALL) 0
                  (create_ruleset_ret k);
                EvOpen (path ctxt) O_PATH (open_path_ret k)]),
           rest.
    rewrite <- !app_assoc. reflexivity. }
  destruct (restrict_self_ret k <? 0).
  - repeat rewrite snd_emit. cbn [snd]. split.
    + rewrite !count_events_app, count_restrict_open_and_close. cbn. lia.
    + intros fd r H. apply (Hshape _ fd r H).
      intros Hin. cbn [In app] in Hin.
      repeat match goal with
             | H : _ \/ _ |- _ => destruct H as [H | H]
             | H : False |- _ => contradiction
             end; discriminate Hin.
  - repeat rewrite snd_emit. cbn [snd]. split.
    + rewrite !count_events_app, !count_restrict_open_and_close. cbn. lia.
    + intros fd r H. apply (Hshape _ fd r H).
      intros Hin. no_restrict Hin.
Qed.

Lemma restrict_self_only_after_rule_and_no_new_privs_witness :
  reaches_restrict flag_env_ok = true
  /\ create_ruleset_ret flag_env_ok = 3
  /\ restrict_self_ret flag_env_ok = 0.
Proof.
  assert (H : In (EvRestrictSelf 3 0)
                (snd (stress_landlock_flag flag_env_ok ctxt_example)))
    by (vm_compute; tauto).
  destruct (proj2 (restrict_self_only_after_rule_and_no_new_privs
                     flag_env_ok ctxt_example) 3 0 H) as (Hr & Hfd & Hret & _).
  split; [exact Hr|]. split; [now rewrite <- Hfd | now rewrite <- Hret].
Defined.

(** ** More on the harness *)

(** Decoding what [_exit(rc)] encodes. *)
Lemma exit_status_decoded : forall rc,
  WIFEXITED (exit_status rc) = true
  /\ WEXITSTATUS (exit_status rc) = rc mod 256.
Proof.
  intros rc. unfold WIFEXITED, WEXITSTATUS, exit_status.
  assert (Hlow : Z.land rc 255 = rc mod 256).
  { change 255 with (Z.ones 8). rewrite Z.land_ones by lia. reflexivity. }
  rewrite Hlow.
  assert (Hr : 0 <= rc mod 256 < 256) by (apply Z.mod_pos_bound; lia).
  split.
  - apply Z.eqb_eq. change 127 with (Z.ones 7).
    rewrite Z.land_ones by lia. rewrite Z.shiftl_mul_pow2 by lia.
    change (2 ^ 8) with (2 * 2 ^ 7). rewrite Z.mul_assoc.
    apply Z.mod_mul. lia.
  - change 65280 with (Z.shiftl 255 8).
    rewrite <- Z.shiftl_land, Z.shiftr_shiftl_l by lia.
    rewrite Z.sub_diag, Z.shiftl_0_r.
    change 255 with (Z.ones 8). rewrite Z.land_ones by lia.
    apply Z.mod_small. exact Hr.
Qed.

Lemma stress_landlock_flag_rc : forall k ctxt,
  fst (stress_landlock_flag k ctxt) = 0.
Proof.
  intros k ctxt.
  unfold stress_landlock_flag, close_parent, close_ruleset, EXIT_SUCCESS.
  repeat match goal with
         | |- context [if ?b then _ else _] => destruct b
         | _ => rewrite fst_emit
         end; reflexivity.
Qed.

(** X3: when the child runs [func] to its end and the wait succeeds,
    the harness counts a failure exactly when the value [func]
    returned is not a multiple of 256: only the low eight bits of the
    return value reach the parent.  For [stress_landlock_flag] this
    means a child that was not cut short is never counted, whatever
    the kernel answered to its calls. *)
Theorem harness_verdict_on_returned_child :
  forall (e : test_env) (ctxt : stress_landlock_ctxt_t) (failures pid : Z),
    fork_final e = ForkParent pid ->
    fate e = ChildReturns ->
    wait e = WaitOk ->
    (forall func : stress_landlock_func,
       failures_out (stress_landlock_test e func ctxt failures)
       = if fst (func ctxt) mod 256 =? 0 then failures else failures + 1)
    /\ (forall k : flag_env,
          failures_out
            (stress_landlock_test e (stress_landlock_flag k) ctxt failures)
          = failures).
Proof.
  intros e ctxt failures pid Hfork Hfate Hwait.
  assert (Hgen : forall func : stress_landlock_func,
             failures_out (stress_landlock_test e func ctxt failures)
             = if fst (func ctxt) mod 256 =? 0 then failures
               else failures + 1).
  { intros func. unfold stress_landlock_test.
    rewrite test_again_failures_out. simpl. rewrite Hfork.
    unfold stress_landlock_test_parent, child_run. rewrite Hfate, Hwait.
    destruct (func ctxt) as [rc t]. simpl.
    destruct (exit_status_decoded rc) as [-> ->].
    unfold EXIT_SUCCESS. destruct (rc mod 256 =? 0); reflexivity. }
  split; [exact Hgen|].
  intros k. rewrite Hgen.
  rewrite stress_landlock_flag_rc. reflexivity.
Qed.

Lemma harness_verdict_on_returned_child_witness :
  failures_out
    (stress_landlock_test test_env_returns (fun _ => (256, [])) ctxt_example 2)
  = 2
  /\ failures_out
       (stress_landlock_test test_env_returns (fun _ => (-1, [])) ctxt_example 2)
     = 3
  /\ failures_out
       (stress_landlock_test test_env_returns
          (stress_landlock_flag flag_env_restrict_rejected) ctxt_example 2)
     = 2.
Proof.
  pose proof (harness_verdict_on_returned_child test_env_returns ctxt_example
                2 4243 eq_refl eq_refl eq_refl) as [Hgen Hflag].
  split; [exact (Hgen (fun _ => (256, []))) |].
  split; [exact (Hgen (fun _ => (-1, []))) |].
  exact (Hflag flag_env_restrict_rejected).
Defined.


Lemma In_repeat_fork : forall n ev,
  In ev (repeat (EvFork (-1)) n) -> ev = EvFork (-1).
Proof.
  intros n ev H. apply repeat_spec in H. exact H.
Qed.


(** X5: when [waitpid] fails with an error other than EINTR, [status]
    was never written, yet the harness goes on to classify it: whether
    a failure is counted then depends on the stale content of the
    variable alone, not on what became of the child. *)
Theorem failed_wait_classifies_stale_status :
  forall (e : test_env) (func : stress_landlock_func)
         (ctxt : stress_landlock_ctxt_t) (failures pid errno : Z),
    fork_final e = ForkParent pid ->
    wait e = WaitError errno ->
    failures_out (stress_landlock_test e func ctxt failures)
    = (if exited_nonzero (stale_status e) then failures + 1 else failures)
    /\ parent_trace (stress_landlock_test e func ctxt failures)
       = repeat (EvFork (-1)) (fork_redo e)
         ++ [EvFork pid; EvWaitpid pid (-1); EvLog "waitpid";
             EvUnlink (filename ctxt)].
Proof.
  intros e func ctxt failures pid errno Hfork Hwait.
  unfold stress_landlock_test.
  rewrite test_again_failures_out, test_again_parent_trace. simpl.
  rewrite Hfork. unfold stress_landlock_test_parent, exited_nonzero.
  destruct (child_run (fate e) func ctxt) as [status ct]. rewrite Hwait.
  destruct (WIFEXITED (stale_status e)); simpl; [| split; reflexivity].
  destruct (negb _); split; reflexivity.
Qed.

Lemma failed_wait_classifies_stale_status_witness :
  failures_out
    (stress_landlock_test test_env_wait_error
       (stress_landlock_flag flag_env_ok) ctxt_example 0) = 1.
Proof.
  exact (proj1 (failed_wait_classifies_stale_status test_env_wait_error
                  (stress_landlock_flag flag_env_ok) ctxt_example 0 4243 10
                  eq_refl eq_refl)).
Defined.


(** ** More on the driver *)

Lemma test_quiet_unchanged : forall e k ctxt failures,
  fate e = ChildReturns ->
  (forall errno, wait e <> WaitError errno) ->
  failures_out (stress_landlock_test e (stress_landlock_flag k) ctxt failures)
  = failures.
Proof.
  intros e k ctxt failures Hfate Hwait. unfold stress_landlock_test.
  rewrite test_again_failures_out. simpl.
  destruct (fork_final e) as [| pid]; [reflexivity|].
  unfold stress_landlock_test_parent, child_run. rewrite Hfate.
  pose proof (stress_landlock_flag_rc k ctxt) as Hrc.
  destruct (stress_landlock_flag k ctxt) as [rc t]. simpl in Hrc. subst rc.
  destruct (wait e) as [| | errno]; [reflexivity | reflexivity |].
  exfalso. now apply (Hwait errno).
Qed.

Lemma loop_frame_nil : forall env st, loop_frame env st [] st.
Proof. intros. constructor; auto. Qed.

Lemma loop_frame_app : forall env st l1 st1 l2 st2,
  loop_frame env st l1 st1 -> loop_frame env st1 l2 st2 ->
  loop_frame env st (l1 ++ l2) st2.
Proof.
  intros env st l1 st1 l2 st2 [E1 F1 P1] [E2 F2 P2].
  rewrite F1, P1 in E2.
  constructor; [apply Forall_app; now split | congruence | congruence].
Qed.

Lemma loop_frame_with_flag : forall env st v l st',
  loop_frame env (with_flag st v) l st' -> loop_frame env st l st'.
Proof. intros env st v l st' [E F P]. constructor; assumption. Qed.

Lemma loop_frame_bogo : forall env st l st' b,
  loop_frame env st l st' ->
  loop_frame env st l
    {| st_ctxt := st_ctxt st'; st_failures := st_failures st';
       st_ntests := st_ntests st'; st_bogo := b |}.
Proof. intros env st l st' b [E F P]. constructor; assumption. Qed.

Lemma run_test_frame : forall env pass st d st2,
  run_test env pass st = (d, st2) ->
  loop_frame env st [d] st2 /\ st_bogo st2 = st_bogo st.
Proof.
  intros env pass st d st2 H. split.
  - constructor.
    + constructor; [| constructor]. exists pass, st.
      split; [reflexivity|]. split; [reflexivity|]. now rewrite H.
    + unfold run_test in H. now injection H as _ <-.
    + unfold run_test in H. now injection H as _ <-.
  - unfold run_test in H. now injection H as _ <-.
Qed.

Lemma cumulative_loop_frame : forall env pass tbl st l st' err,
  cumulative_loop env pass tbl st = (l, st', err) ->
  loop_frame env st l st' /\ st_bogo st' = st_bogo st.
Proof.
  intros env pass. induction tbl as [| x tbl IH]; intros st l st' err H;
    cbn [cumulative_loop] in H.
  - injection H as <- <- <-. split; [apply loop_frame_nil | reflexivity].
  - destruct (run_test env pass _) as [d st2] eqn:Hrun.
    apply run_test_frame in Hrun as [Hf Hb].
    apply loop_frame_with_flag in Hf. cbn in Hb.
    destruct (5 <=? st_failures st2).
    + injection H as <- <- <-. split; [exact Hf | exact Hb].
    + destruct (cumulative_loop env pass tbl st2) as [[ds st3] e3] eqn:Hrec.
      injection H as <- <- <-. apply IH in Hrec as [Hf3 Hb3].
      split; [| congruence].
      change (d :: ds) with ([d] ++ ds). eapply loop_frame_app; eassumption.
Qed.

Lemma isolated_loop_frame : forall env pass tbl st l st' err,
  isolated_loop env pass tbl st = (l, st', err) ->
  loop_frame env st l st' /\ st_bogo st' = st_bogo st.
Proof.
  intros env pass. induction tbl as [| x tbl IH]; intros st l st' err H;
    cbn [isolated_loop] in H.
  - injection H as <- <- <-. split; [apply loop_frame_nil | reflexivity].
  - destruct (run_test env pass _) as [d st2] eqn:Hrun.
    apply run_test_frame in Hrun as [Hf Hb].
    apply loop_frame_with_flag in Hf. cbn in Hb.
    destruct (5 <=? st_failures st2).
    + injection H as <- <- <-. split; [exact Hf | exact Hb].
    + destruct (isolated_loop env pass tbl st2) as [[ds st3] e3] eqn:Hrec.
      injection H as <- <- <-. apply IH in Hrec as [Hf3 Hb3].
      split; [| congruence].
      change (d :: ds) with ([d] ++ ds). eapply loop_frame_app; eassumption.
Qed.

(** A pass adds one to the bogo counter exactly when it was not cut
    short. *)
Lemma one_pass_frame : forall env pass st l st' err,
  one_pass env pass st = (l, st', err) ->
  loop_frame env st l st'
  /\ st_bogo st' = (if err then st_bogo st else S (st_bogo st)).
Proof.
  intros env pass st l st' err H. unfold one_pass in H.
  destruct (cumulative_loop env pass landlock_access_flags (with_flag st 0))
    as [[l1 st1] err1] eqn:Hc.
  apply cumulative_loop_frame in Hc as [Hf1 Hb1].
  apply loop_frame_with_flag in Hf1. cbn in Hb1.
  destruct err1.
  { injection H as <- <- <-. split; [exact Hf1 | exact Hb1]. }
  destruct (isolated_loop env pass landlock_access_flags st1)
    as [[l2 st2] err2] eqn:Hi.
  apply isolated_loop_frame in Hi as [Hf2 Hb2].
  destruct err2.
  { injection H as <- <- <-.
    split; [eapply loop_frame_app; eassumption | congruence]. }
  destruct (run_test env pass _) as [d st4] eqn:Hrun.
  apply run_test_frame in Hrun as [Hf4 Hb4].
  apply loop_frame_with_flag in Hf4. cbn in Hb4.
  assert (Hall : loop_frame env st (l1 ++ l2 ++ [d]) st4).
  { eapply loop_frame_app; [exact Hf1|].
    eapply loop_frame_app; eassumption. }
  destruct (5 <=? st_failures st4); injection H as <- <- <-.
  - split; [exact Hall | congruence].
  - split; [now apply loop_frame_bogo | cbn; congruence].
Qed.

(** The log against the bogo counter. *)
Lemma stress_landlock_loop_frame : forall fuel env pass st l st' fin,
  st_failures st < 5 ->
  stress_landlock_loop fuel env pass st = (l, st', fin) ->
  loop_frame env st l st'
  /\ (st_bogo st <= st_bogo st' <= st_bogo st + fuel)%nat
  /\ (st_failures st' < 5 ->
      List.length l = (31 * (st_bogo st' - st_bogo st))%nat)
  /\ (5 <= st_failures st' ->
      (31 * (st_bogo st' - st_bogo st) < List.length l
       <= 31 * (st_bogo st' - st_bogo st) + 31)%nat).
Proof.
  induction fuel as [| fuel IH]; intros env pass st l st' fin Hf H.
  - cbn in H. injection H as <- <- <-.
    split; [apply loop_frame_nil|]. split; [lia|].
    split; [intros _; simpl; lia | intros; lia].
  - rewrite stress_landlock_loop_S in H.
    destruct (one_pass env pass st) as [[l1 st1] err] eqn:Hp.
    pose proof (one_pass_ok _ _ _ _ _ _ Hf Hp) as Hseg.
    pose proof (seg_ok_length _ _ _ _ _ _ _ _ Hseg) as Hlen.
    rewrite pass_masks_length in Hlen.
    apply one_pass_frame in Hp as [Hfr Hb].
    destruct err.
    + injection H as <- <- <-.
      destruct (seg_err _ _ _ _ _ _ _ _ Hseg eq_refl) as [Hne H5].
      split; [exact Hfr|]. split; [lia|].
      rewrite Hb, Nat.sub_diag. split; [lia|]. intros _.
      destruct l1; [contradiction | simpl in *; lia].
    + destruct (seg_full _ _ _ _ _ _ _ _ Hseg eq_refl) as (Hl1 & _ & Hf1 & _).
      rewrite pass_masks_length in Hl1.
      destruct (stress_continue env pass).
      * destruct (stress_landlock_loop fuel env (S pass) st1)
          as [[l2 st2] fin2] eqn:Hrec.
        injection H as <- <- <-.
        apply IH in Hrec as (Hfr2 & Hb2 & Hok & Hab); [| exact Hf1].
        split; [eapply loop_frame_app; eassumption|].
        split; [lia|]. rewrite length_app.
        split; [intros Hlt; specialize (Hok Hlt) | intros Hge;
                                                   specialize (Hab Hge)]; lia.
      * injection H as <- <- <-.
        split; [exact Hfr|]. split; [lia|].
        split; [intros _ | intros; lia].
        rewrite Hl1, Hb. lia.
Qed.

Lemma bogo_length_aux : forall fuel env,
  dr_failures (stress_landlock fuel env) < 5 ->
  List.length (dr_log (stress_landlock fuel env))
  = (31 * dr_bogo (stress_landlock fuel env))%nat.
Proof.
  intros fuel env. unfold stress_landlock.
  destruct (stress_landlock_loop fuel env 0%nat _) as [[l st] fin] eqn:H.
  apply stress_landlock_loop_frame in H as (_ & _ & Hok & _); [| cbn; lia].
  cbn in Hok |- *. rewrite Nat.sub_0_r in Hok. exact Hok.
Qed.



Lemma stress_landlock_loop_returns_within : forall fuel env pass st n,
  (n < fuel)%nat ->
  stress_continue env (pass + n)%nat = false ->
  snd (stress_landlock_loop fuel env pass st) = true.
Proof.
  induction fuel as [| fuel IH]; intros env pass st n Hn Hs; [lia|].
  rewrite stress_landlock_loop_S.
  destruct (one_pass env pass st) as [[l st'] err].
  destruct err; [reflexivity|].
  destruct (stress_continue env pass) eqn:Hc; [| reflexivity].
  destruct n as [| n]; [rewrite Nat.add_0_r in Hs; congruence|].
  specialize (IH env (S pass) st' n).
  destruct (stress_landlock_loop fuel env (S pass) st') as [[l2 st2] fin2].
  apply IH; [lia|]. now replace (S pass + n)%nat with (pass + S n)%nat by lia.
Qed.

(** X7: the driver's exit code is EXIT_SUCCESS on every return, the
    one that follows five counted failures included.  It returns as
    soon as five failures are counted or the framework's predicate
    says stop, and it kills and reaps the enumerator on its way out
    exactly when the enumerator had been forked. *)
Theorem driver_returns_success :
  forall (fuel : nat) (env : driver_env),
    let r := stress_landlock fuel env in
    (forall rc, dr_return r = Some rc -> rc = EXIT_SUCCESS)
    /\ (5 <= dr_failures r -> dr_return r = Some EXIT_SUCCESS)
    /\ (forall n, (n < fuel)%nat -> stress_continue env n = false ->
                  dr_return r = Some EXIT_SUCCESS)
    /\ (forall p, In (EvKillWait p) (dr_trace r) <->
                  dr_return r = Some EXIT_SUCCESS
                  /\ many_fork_final env = ForkParent p /\ p <> -1).
Proof.
  intros fuel env r.
  pose proof (stress_landlock_log_ok fuel env) as Hlog. cbv zeta in Hlog.
  fold r in Hlog.
  assert (Hret : dr_return r = Some EXIT_SUCCESS \/ dr_return r = None).
  { subst r. unfold stress_landlock.
    destruct (stress_landlock_loop fuel env 0%nat _) as [[l st] fin].
    cbn. destruct fin; auto. }
  split; [| split; [| split]].
  - intros rc E. destruct Hret as [H | H]; rewrite H in E;
      [now injection E | discriminate E].
  - intros H5. destruct Hret as [H | H]; [exact H|].
    rewrite H in Hlog.
    destruct (log_running _ _ _ _ _ Hlog eq_refl) as [_ Hlt]. lia.
  - intros n Hn Hs. subst r. unfold stress_landlock.
    pose proof (stress_landlock_loop_returns_within fuel env 0%nat
                  {| st_ctxt :=
                       {| flag := 0;
                          filename :=
                            snprintf_path
                              (temp_path env ++ "/landlock-"
                                 ++ NilZero.string_of_int (Z.to_int (pid env)));
                          path := temp_path env |};
                     st_failures := 0; st_ntests := 0%nat; st_bogo := 0%nat |}
                  n Hn Hs) as Hfin.
    destruct (stress_landlock_loop fuel env 0%nat _) as [[l st] fin].
    cbn in Hfin |- *. now rewrite Hfin.
  - intros p. subst r. unfold stress_landlock.
    destruct (stress_landlock_loop fuel env 0%nat _) as [[l st] fin].
    cbn [dr_trace dr_return]. rewrite !in_app_iff.
    split.
    + intros [[H | H] | H].
      * apply In_repeat_fork in H. discriminate H.
      * destruct H as [H | []]. discriminate H.
      * destruct fin; [| contradiction].
        destruct (Z.eqb_spec (pid_of_fork (many_fork_final env)) (-1))
          as [E | E]; [contradiction|].
        destruct H as [H | []]. injection H as <-.
        split; [reflexivity|].
        destruct (many_fork_final env) as [| q]; [contradiction|].
        split; [reflexivity | exact E].
    + intros (Hr & Hf & Hp). destruct fin; [| discriminate Hr].
      rewrite Hf. cbn [pid_of_fork].
      destruct (Z.eqb_spec p (-1)) as [E | E]; [contradiction|].
      right. now left.
Qed.

Lemma driver_returns_success_witness :
  dr_return (stress_landlock 5 driver_env_crashing) = Some EXIT_SUCCESS
  /\ dr_return (stress_landlock 5 driver_env_three_passes) = Some EXIT_SUCCESS
  /\ In (EvKillWait 4300) (dr_trace (stress_landlock 5 driver_env_crashing)).
Proof.
  assert (F0 : 5 <= dr_failures (stress_landlock 5 driver_env_crashing))
    by (vm_compute; intro E; discriminate E).
  pose proof (proj1 (proj2 (driver_returns_success 5 driver_env_crashing)) F0)
    as R0.
  split; [exact R0|]. split.
  - exact (proj1 (proj2 (proj2 (driver_returns_success 5
                                  driver_env_three_passes)))
             2%nat (proj1 (Nat.ltb_lt 2 5) eq_refl) eq_refl).
  - apply (proj2 (proj2 (proj2 (driver_returns_success 5
                                  driver_env_crashing))) 4300).
    split; [exact R0|]. split; [reflexivity|]. intro E. discriminate E.
Defined.

(** *** A run without failures *)

Lemma chained_unchanged : forall l f,
  chained f l ->
  Forall (fun d => failures_out (d_result d) = d_failures_in d) l ->
  final_failures f l = f
  /\ Forall (fun d => d_failures_in d = f /\ failures_out (d_result d) = f) l.
Proof.
  induction l as [| d l IH]; intros f Hc Hall; [split; [reflexivity | constructor]|].
  destruct Hc as [Hin Hc]. inversion Hall as [| ? ? Hd Hall']; subst.
  rewrite Hd in Hc. destruct (IH _ Hc Hall') as [Hfin Hl].
  unfold final_failures in *. simpl. rewrite Hd. split; [exact Hfin|].
  constructor; [split; [reflexivity | exact Hd] | exact Hl].
Qed.

Lemma from_run_test_quiet : forall env file dir d,
  quiet_env env -> from_run_test env file dir d ->
  failures_out (d_result d) = d_failures_in d.
Proof.
  intros env file dir d Hq (pass & st & _ & _ & <-).
  destruct (Hq (st_ntests st)) as [Hfate Hwait].
  cbn. now apply test_quiet_unchanged.
Qed.

Lemma stress_landlock_loop_passes : forall fuel env pass st l st' fin n,
  st_failures st < 5 ->
  stress_landlock_loop fuel env pass st = (l, st', fin) ->
  st_failures st' < 5 ->
  (n < fuel)%nat ->
  (forall m, (m < n)%nat -> stress_continue env (pass + m)%nat = true) ->
  stress_continue env (pass + n)%nat = false ->
  st_bogo st' = (st_bogo st + S n)%nat.
Proof.
  induction fuel as [| fuel IH]; intros env pass st l st' fin n Hf H Hf' Hn Ht Hs;
    [lia|].
  rewrite stress_landlock_loop_S in H.
  destruct (one_pass env pass st) as [[l1 st1] err] eqn:Hp.
  pose proof (one_pass_ok _ _ _ _ _ _ Hf Hp) as Hseg.
  apply one_pass_frame in Hp as [_ Hb].
  destruct err.
  - injection H as <- <- <-.
    destruct (seg_err _ _ _ _ _ _ _ _ Hseg eq_refl) as [_ H5]. lia.
  - destruct (seg_full _ _ _ _ _ _ _ _ Hseg eq_refl) as (_ & _ & Hf1 & _).
    destruct (stress_continue env pass) eqn:Hc.
    + destruct n as [| n]; [rewrite Nat.add_0_r in Hs; congruence|].
      destruct (stress_landlock_loop fuel env (S pass) st1)
        as [[l2 st2] fin2] eqn:Hrec.
      injection H as <- <- <-.
      rewrite (IH _ _ _ _ _ _ n Hf1 Hrec Hf'); [lia | lia | |].
      * intros m Hm. replace (S pass + m)%nat with (pass + S m)%nat by lia.
        apply Ht. lia.
      * now replace (S pass + n)%nat with (pass + S n)%nat by lia.
    + injection H as <- <- <-.
      destruct n as [| n]; [lia|].
      specialize (Ht 0%nat). rewrite Nat.add_0_r in Ht.
      rewrite Ht in Hc by lia. discriminate Hc.
Qed.

(** X8: when no child is cut short and no wait fails, no failure is
    ever counted, whatever the kernel answers to the children: every
    test reads and leaves a counter of 0, no pass is cut short, and a
    run that the framework stops after pass [n] has made [31 * (n + 1)]
    tests, counted [n + 1] bogo operations and returned. *)
Theorem quiet_run_counts_no_failure :
  forall (fuel : nat) (env : driver_env),
    quiet_env env ->
    let r := stress_landlock fuel env in
    dr_failures r = 0
    /\ Forall (fun d => d_failures_in d = 0 /\ failures_out (d_result d) = 0)
         (dr_log r)
    /\ List.length (dr_log r) = (31 * dr_bogo r)%nat
    /\ (forall n,
          (n < fuel)%nat ->
          (forall m, (m < n)%nat -> stress_continue env m = true) ->
          stress_continue env n = false ->
          dr_bogo r = S n
          /\ List.length (dr_log r) = (31 * S n)%nat
          /\ dr_return r = Some EXIT_SUCCESS).
Proof.
  intros fuel env Hq r.
  pose proof (stress_landlock_log_ok fuel env) as Hlog. cbv zeta in Hlog.
  fold r in Hlog.
  assert (Hframe : exists file dir,
             Forall (from_run_test env file dir) (dr_log r)).
  { subst r. unfold stress_landlock.
    destruct (stress_landlock_loop fuel env 0%nat _) as [[l st] fin] eqn:H.
    apply stress_landlock_loop_frame in H as (Hfr & _); [| cbn; lia].
    cbn. eexists. eexists. apply Hfr. }
  destruct Hframe as (file & dir & Hframe).
  assert (Hsame : Forall (fun d => failures_out (d_result d) = d_failures_in d)
                    (dr_log r)).
  { eapply Forall_impl; [| exact Hframe].
    intros d Hd. eapply from_run_test_quiet; eassumption. }
  destruct (chained_unchanged _ _ (log_chain _ _ _ _ _ Hlog) Hsame)
    as [Hfin Hall].
  assert (H0 : dr_failures r = 0)
    by (rewrite (log_final _ _ _ _ _ Hlog); exact Hfin).
  assert (Hlen : List.length (dr_log r) = (31 * dr_bogo r)%nat).
  { apply (bogo_length_aux fuel env). fold r. lia. }
  split; [exact H0|]. split; [exact Hall|]. split; [exact Hlen|].
  intros n Hn Ht Hs.
  assert (Hb : dr_bogo r = S n).
  { subst r. unfold stress_landlock in H0 |- *.
    destruct (stress_landlock_loop fuel env 0%nat _) as [[l st] fin] eqn:H.
    cbn in H0 |- *.
    assert (Hlt : st_failures st < 5) by lia.
    apply (stress_landlock_loop_passes _ _ _ _ _ _ _ n) in H;
      [exact H | cbn; lia | exact Hlt | exact Hn | exact Ht | exact Hs]. }
  split; [exact Hb|]. split; [now rewrite Hlen, Hb|].
  subst r. unfold stress_landlock.
  pose proof (stress_landlock_loop_returns_within fuel env 0%nat
                {| st_ctxt :=
                     {| flag := 0;
                        filename :=
                          snprintf_path
                            (temp_path env ++ "/landlock-"
                               ++ NilZero.string_of_int (Z.to_int (pid env)));
                        path := temp_path env |};
                   st_failures := 0; st_ntests := 0%nat; st_bogo := 0%nat |}
                n Hn Hs) as Hret.
  destruct (stress_landlock_loop fuel env 0%nat _) as [[l st] fin].
  cbn in Hret |- *. now rewrite Hret.
Qed.

Lemma quiet_run_counts_no_failure_witness :
  dr_failures (stress_landlock 5 driver_env_three_passes) = 0
  /\ dr_bogo (stress_landlock 5 driver_env_three_passes) = 3%nat
  /\ List.length (dr_log (stress_landlock 5 driver_env_three_passes)) = 93%nat.
Proof.
  assert (Hq : quiet_env driver_env_three_passes).
  { intros n. split; [reflexivity|]. intros errno E. discriminate E. }
  pose proof (quiet_run_counts_no_failure 5 driver_env_three_passes Hq) as T.
  cbv zeta in T. destruct T as (H0 & _ & _ & Hn).
  destruct (Hn 2%nat) as (Hb & Hl & _).
  - apply Nat.ltb_lt. reflexivity.
  - intros m Hm. destruct m as [| [| m]]; [reflexivity | reflexivity | lia].
  - reflexivity.
  - split; [exact H0|]. split; [exact Hb | exact Hl].
Defined.

(** *** The paths a run touches *)

Lemma length_substring_0 : forall s n,
  (String.length (substring 0 n s) <= n)%nat.
Proof.
  induction s as [| c s IH]; intros [| n]; simpl; try lia.
  specialize (IH n). lia.
Qed.





Lemma driver_log_provenance : forall fuel env,
  Forall (from_run_test env (driver_filename env) (temp_path env))
    (dr_log (stress_landlock fuel env)).
Proof.
  intros fuel env. unfold stress_landlock.
  destruct (stress_landlock_loop fuel env 0%nat _) as [[l st] fin] eqn:H.
  apply stress_landlock_loop_frame in H as (Hfr & _); [| cbn; lia].
  exact (frame_each _ _ _ _ Hfr).
Qed.

Lemma from_run_test_child : forall env file dir d,
  from_run_test env file dir d ->
  exists k ctxt n,
    child_trace (d_result d) = firstn n (snd (stress_landlock_flag k ctxt))
    /\ flag ctxt = d_mask d.
Proof.
  intros env file dir d (pass & st & _ & _ & <-).
  destruct (test_child_trace_prefix
              (fst (tests env (st_ntests st)))
              (stress_landlock_flag (snd (tests env (st_ntests st))))
              (st_ctxt st) (st_failures st)) as [n Hn].
  exists (snd (tests env (st_ntests st))), (st_ctxt st), n.
  split; [exact Hn | reflexivity].
Qed.

Lemma In_open_and_close_create : forall p fl ret h f r,
  ~ In (EvCreateRuleset h f r) (open_and_close p fl ret).
Proof.
  intros. unfold open_and_close.
  destruct (-1 <? ret); simpl; intuition discriminate.
Qed.

Lemma stress_landlock_flag_create : forall k ctxt h fl ret,
  In (EvCreateRuleset (Some h) fl ret) (snd (stress_landlock_flag k ctxt)) ->
  h = SHIM_LANDLOCK_ACCESS_ALL /\ fl = 0 /\ ret = create_ruleset_ret k.
Proof.
  intros k ctxt h fl ret.
  unfold stress_landlock_flag, close_parent, close_ruleset.
  repeat match goal with
         | |- context [if ?b <? 0 then _ else _] => destruct (b <? 0)
         | _ => rewrite snd_emit
         end;
    cbn [snd]; rewrite ?in_app_iff; cbn [In];
    intros H;
    repeat match goal with
           | H : _ \/ _ |- _ => destruct H as [H | H]
           | H : In _ (open_and_close _ _ _) |- _ =>
               apply In_open_and_close_create in H
           | H : False |- _ => contradiction
           | H : _ = EvCreateRuleset _ _ _ |- _ =>
               first [discriminate H
                     | injection H as <- <- <-; repeat split; reflexivity]
           | H : In _ (_ ++ _) |- _ => apply in_app_or in H
           | H : In _ (_ :: _) |- _ => cbn [In] in H
           | H : In _ [] |- _ => contradiction
           end.
Qed.


(** *** The masks against the ruleset *)

Lemma pass_masks_handled : forall j,
  (j < 31)%nat ->
  mask_subset (nth j pass_masks 0) SHIM_LANDLOCK_ACCESS_ALL = (j <? 30)%nat.
Proof.
  intros j Hj. do 31 (destruct j as [| j]; [reflexivity|]). lia.
Qed.

Lemma pass_masks_grow : forall j,
  (j < 14)%nat ->
  mask_subset (nth j pass_masks 0) (nth (S j) pass_masks 0) = true.
Proof.
  intros j Hj. do 14 (destruct j as [| j]; [reflexivity|]). lia.
Qed.

(** X10: every child's ruleset handles SHIM_LANDLOCK_ACCESS_ALL, the
    thirteen defined bits.  The first thirty tests of a pass ask for
    masks inside that set: the cumulative masks grow from one test to
    the next and end at SHIM_LANDLOCK_ACCESS_ALL itself.  The last
    test of a pass is the only one whose mask has bits the ruleset
    does not handle. *)
Theorem masks_against_handled_access :
  forall (fuel : nat) (env : driver_env) (k j : nat) (d : dispatch),
    (j < 31)%nat ->
    nth_error (dr_log (stress_landlock fuel env)) (31 * k + j) = Some d ->
    mask_subset (d_mask d) SHIM_LANDLOCK_ACCESS_ALL = (j <? 30)%nat
    /\ (j = 14%nat -> d_mask d = SHIM_LANDLOCK_ACCESS_ALL)
    /\ (forall d',
          (j < 14)%nat ->
          nth_error (dr_log (stress_landlock fuel env)) (31 * k + S j)
          = Some d' ->
          mask_subset (d_mask d) (d_mask d') = true)
    /\ (forall h fl ret,
          In (EvCreateRuleset (Some h) fl ret) (child_trace (d_result d)) ->
          h = SHIM_LANDLOCK_ACCESS_ALL /\ fl = 0).
Proof.
  intros fuel env k j d Hj Hn.
  pose proof (stress_landlock_log_ok fuel env) as H. cbv zeta in H.
  destruct (log_nth _ _ _ _ _ H k j d Hj Hn) as [Hm _].
  split; [| split; [| split]].
  - rewrite Hm. now apply pass_masks_handled.
  - intros ->. rewrite Hm. reflexivity.
  - intros d' Hj' Hn'.
    destruct (log_nth _ _ _ _ _ H k (S j) d') as [Hm' _]; [lia | exact Hn' |].
    rewrite Hm, Hm'. now apply pass_masks_grow.
  - intros h fl ret Hin.
    pose proof (driver_log_provenance fuel env) as Hprov.
    rewrite Forall_forall in Hprov.
    destruct (from_run_test_child _ _ _ _
                (Hprov d (nth_error_In _ _ Hn))) as (kk & ctxt & n & Hc & _).
    rewrite Hc in Hin. apply In_firstn in Hin.
    apply stress_landlock_flag_create in Hin as (Hh & Hf & _).
    split; assumption.
Qed.

Lemma masks_against_handled_access_witness :
  exists d d',
    nth_error (dr_log (stress_landlock 1 driver_env_quiet)) 13 = Some d
    /\ nth_error (dr_log (stress_landlock 1 driver_env_quiet)) 14 = Some d'
    /\ mask_subset (d_mask d) (d_mask d') = true
    /\ d_mask d' = SHIM_LANDLOCK_ACCESS_ALL.
Proof.
  destruct (nth_error (dr_log (stress_landlock 1 driver_env_quiet)) 13)
    as [d |] eqn:E; [| vm_compute in E; discriminate E].
  destruct (nth_error (dr_log (stress_landlock 1 driver_env_quiet)) 14)
    as [d' |] eqn:E'; [| vm_compute in E'; discriminate E'].
  exists d, d'. split; [reflexivity|]. split; [reflexivity|].
  destruct (masks_against_handled_access 1 driver_env_quiet 0 13 d
              (proj1 (Nat.ltb_lt 13 31) eq_refl) E) as (_ & _ & Hg & _).
  destruct (masks_against_handled_access 1 driver_env_quiet 0 14 d'
              (proj1 (Nat.ltb_lt 14 31) eq_refl) E') as (_ & Ha & _ & _).
  split; [exact (Hg d' (proj1 (Nat.ltb_lt 13 14) eq_refl) E') |].
  exact (Ha eq_refl).
Defined.

(** ** More on the enumerator *)

Lemma replay_fds_file_step : forall env fd r next t held pk_next,
  file_step env fd r next = Some t ->
  (forall t2, next = Some t2 ->
     replay_fds held t2 = Some (held, pk_next)) ->
  exists pk,
    replay_fds held t = Some (held, pk)
    /\ (pk <= Nat.max (S (List.length held)) pk_next)%nat.
Proof.
  intros env fd r next t held pk_next H Hnext. unfold file_step in H.
  destruct (ret_cases (many_open env r)) as [(A & B & _) | (A & B & _)];
    rewrite A in H.
  - injection H as <-. cbn [replay_fds step_fds opens_fd]. rewrite B.
    cbn [replay_fds]. eexists. split; [reflexivity | lia].
  - assert (Hthree : forall rest pk,
              replay_fds held rest = Some (held, pk) ->
              replay_fds held
                ([EvOpen r (Z.lor O_PATH O_NONBLOCK) (many_open env r);
                  EvAddRule fd (to_uint64 SHIM_LANDLOCK_ACCESS_FS_READ_FILE)
                    (many_open env r) (many_add_rule env r);
                  EvClose (many_open env r)] ++ rest)
              = Some (held,
                      Nat.max (List.length held)
                        (Nat.max (S (List.length held))
                           (Nat.max (S (List.length held)) pk)))).
    { intros rest pk Hrest.
      cbn [app replay_fds step_fds opens_fd]. rewrite B, Z.eqb_refl, Hrest.
      reflexivity. }
    destruct (many_add_rule env r <? 0).
    + injection H as <-.
      pose proof (Hthree [] (List.length held) eq_refl) as Q.
      rewrite app_nil_r in Q.
      eexists. split; [exact Q | lia].
    + destruct next as [t2 |]; [| discriminate H]. simpl in H.
      injection H as <-.
      pose proof (replay_fds_peak_ge _ _ _ _ (Hnext t2 eq_refl)).
      eexists. split; [exact (Hthree t2 pk_next (Hnext t2 eq_refl)) | lia].
Qed.

Lemma stress_landlock_many_entries_fds :
  forall env recur fd path depth (bound : nat),
    (depth < 30 -> forall p t, recur p (depth + 1) = Some t ->
       exists pk, replay_fds [] t = Some ([], pk) /\ (pk <= bound)%nat) ->
    forall namelist t,
      stress_landlock_many_entries env recur fd path depth namelist = Some t ->
      exists pk,
        replay_fds [fd] t = Some ([fd], pk)
        /\ (pk <= if (depth <? 30)%Z then Nat.max 2 (S bound) else 2)%nat.
Proof.
  intros env recur fd path depth bound Hrec.
  destruct (depth <? 30) eqn:Hlt.
  - apply Z.ltb_lt in Hlt as Hd.
    induction namelist as [| d rest IH]; intros t H.
    + injection H as <-. exists 1%nat. split; [reflexivity | lia].
    + rewrite stress_landlock_many_entries_cons in H. cbv zeta in H.
      rewrite Hlt in H.
      destruct (classify_entry env path d) as [| r | r].
      * now apply IH.
      * destruct (stress_landlock_many_entries env recur fd path depth rest)
          as [t2 |] eqn:E.
        -- destruct (IH t2 eq_refl) as (pk2 & R2 & B2).
           destruct (replay_fds_file_step env fd r (Some t2) t [fd] pk2 H)
             as (pk & R & Bk).
           { intros t2' Q. injection Q as <-. exact R2. }
           exists pk. split; [exact R|]. cbn [List.length] in Bk. lia.
        -- destruct (replay_fds_file_step env fd r None t [fd] 0%nat H)
             as (pk & R & Bk).
           { intros t2' Q. discriminate Q. }
           exists pk. split; [exact R|]. cbn [List.length] in Bk. lia.
      * apply dir_step_some in H as (t1 & t2 & H1 & H2 & ->).
        destruct (Hrec Hd r t1 H1) as (pk1 & R1 & B1).
        destruct (IH t2 H2) as (pk2 & R2 & B2).
        apply replay_fds_frame with (base := [fd]) in R1.
        cbn [app List.length] in R1.
        rewrite replay_fds_app, R1, R2.
        eexists. split; [reflexivity | lia].
  - induction namelist as [| d rest IH]; intros t H.
    + injection H as <-. exists 1%nat. split; [reflexivity | lia].
    + rewrite stress_landlock_many_entries_cons in H. cbv zeta in H.
      rewrite Hlt in H.
      destruct (classify_entry env path d) as [| r | r];
        [now apply IH | | now apply IH].
      destruct (stress_landlock_many_entries env recur fd path depth rest)
        as [t2 |] eqn:E.
      * destruct (IH t2 eq_refl) as (pk2 & R2 & B2).
        destruct (replay_fds_file_step env fd r (Some t2) t [fd] pk2 H)
          as (pk & R & Bk).
        { intros t2' Q. injection Q as <-. exact R2. }
        exists pk. split; [exact R|]. cbn [List.length] in Bk. lia.
      * destruct (replay_fds_file_step env fd r None t [fd] 0%nat H)
          as (pk & R & Bk).
        { intros t2' Q. discriminate Q. }
        exists pk. split; [exact R|]. cbn [List.length] in Bk. lia.
Qed.

Lemma stress_landlock_many_fds :
  forall (fuel : nat) (env : many_env) (path : string) (depth : Z) (t : trace),
    stress_landlock_many fuel env path depth = Some t ->
    exists peak,
      replay_fds [] t = Some ([], peak)
      /\ (peak <= Z.to_nat (Z.max 2 (32 - depth)))%nat.
Proof.
  induction fuel as [| fuel IH]; intros env path depth t H;
    [discriminate H|].
  rewrite stress_landlock_many_S in H. cbv zeta in H.
  destruct (ret_cases (many_create_ruleset env path))
    as [(A & B & _) | (A & B & _)]; rewrite A in H.
  - injection H as <-. cbn [app replay_fds step_fds opens_fd]. rewrite B.
    cbn [replay_fds step_fds opens_fd List.length].
    eexists. split; [reflexivity | lia].
  - destruct (stress_landlock_many_entries env (stress_landlock_many fuel env)
                _ path depth _) as [te |] eqn:E; [| discriminate H].
    injection H as <-.
    apply stress_landlock_many_entries_fds
      with (bound := Z.to_nat (Z.max 2 (32 - (depth + 1)))) in E.
    + destruct E as (pk & R & Bk).
      cbn [app replay_fds step_fds opens_fd]. rewrite B.
      rewrite replay_fds_app, R.
      cbn [replay_fds step_fds]. rewrite Z.eqb_refl.
      eexists. split; [reflexivity|]. cbn [List.length].
      destruct (Z.ltb_spec depth 30); lia.
    + intros _ p t1 H1. eapply IH. exact H1.
Qed.

(** X11: the enumerator closes every descriptor it was given, the most
    recent first, and holds none when it returns.  Because of the depth
    bound it never holds more than [32 - depth] of them at once (one
    ruleset per nested call and one anchor): at most 32 in a traversal
    started at depth 0, whatever the file system looks like. *)
Theorem stress_landlock_many_closes_descriptors :
  forall (fuel : nat) (env : many_env) (path : string) (depth : Z) (t : trace),
    stress_landlock_many fuel env path depth = Some t ->
    exists peak,
      replay_fds [] t = Some ([], peak)
      /\ (peak <= Z.to_nat (Z.max 2 (32 - depth)))%nat
      /\ (0 <= depth -> (peak <= 32)%nat).
Proof.
  intros fuel env path depth t H.
  destruct (stress_landlock_many_fds fuel env path depth t H)
    as (peak & Hreplay & Hpeak).
  exists peak. split; [exact Hreplay|]. split; [exact Hpeak|].
  intros Hdepth. lia.
Qed.

Lemma stress_landlock_many_closes_descriptors_witness :
  exists peak,
    replay_fds [] small_walk = Some ([], peak) /\ (peak <= 32)%nat.
Proof.
  assert (S : stress_landlock_many 31 many_env_small "/" 0 = Some small_walk)
    by (vm_compute; reflexivity).
  destruct (stress_landlock_many_closes_descriptors _ _ _ _ _ S)
    as (pk & R & _ & Bk).
  exists pk. split; [exact R | apply Bk; lia].
Defined.

(** *** What the enumerator issues *)

Section EnumeratorEvents.

Variable env : many_env.
Variable Q : string -> Prop.
Variable P : event -> Prop.

Hypothesis Q_step : forall path d r,
  Q path ->
  classify_entry env path d = EntryFile r
  \/ classify_entry env path d = EntryDir r ->
  Q r.
Hypothesis P_call : forall path depth, Q path -> P (EvCall path depth).
Hypothesis P_scandir : forall path n, Q path -> P (EvScandir path n).
Hypothesis P_create :
  forall ret, P (EvCreateRuleset (Some SHIM_LANDLOCK_ACCESS_ALL) 0 ret).
Hypothesis P_log : forall m, P (EvLog m).
Hypothesis P_open :
  forall r ret, Q r -> P (EvOpen r (Z.lor O_PATH O_NONBLOCK) ret).
Hypothesis P_rule :
  forall rs fd ret,
    P (EvAddRule rs (to_uint64 SHIM_LANDLOCK_ACCESS_FS_READ_FILE) fd ret).
Hypothesis P_close : forall fd, P (EvClose fd).

Lemma file_step_events : forall fd r next t,
  Q r ->
  file_step env fd r next = Some t ->
  (forall t2, next = Some t2 -> Forall P t2) ->
  Forall P t.
Proof.
  intros fd r next t Hq H Hnext. unfold file_step in H.
  destruct (many_open env r <? 0).
  - injection H as <-. constructor; [now apply P_open | constructor].
  - assert (H3 : forall rest, Forall P rest ->
              Forall P (EvOpen r (Z.lor O_PATH O_NONBLOCK) (many_open env r)
                        :: EvAddRule fd
                             (to_uint64 SHIM_LANDLOCK_ACCESS_FS_READ_FILE)
                             (many_open env r) (many_add_rule env r)
                        :: EvClose (many_open env r) :: rest)).
    { intros rest Hr. constructor; [now apply P_open|].
      constructor; [apply P_rule|]. constructor; [apply P_close | exact Hr]. }
    destruct (many_add_rule env r <? 0).
    + injection H as <-. apply H3. constructor.
    + destruct next as [t2 |]; [| discriminate H]. simpl in H.
      injection H as <-. apply H3. now apply Hnext.
Qed.

Lemma stress_landlock_many_entries_events :
  forall recur fd path depth,
    Q path ->
    (forall p t, Q p -> recur p (depth + 1) = Some t -> Forall P t) ->
    forall namelist t,
      stress_landlock_many_entries env recur fd path depth namelist = Some t ->
      Forall P t.
Proof.
  intros recur fd path depth Hq Hrec.
  induction namelist as [| d rest IH]; intros t H.
  - injection H as <-. constructor.
  - rewrite stress_landlock_many_entries_cons in H. cbv zeta in H.
    destruct (classify_entry env path d) as [| r | r] eqn:C.
    + now apply IH.
    + eapply file_step_events; [| exact H | exact IH].
      eapply Q_step; [exact Hq | left; exact C].
    + destruct (depth <? 30); [| now apply IH].
      apply dir_step_some in H as (t1 & t2 & H1 & H2 & ->).
      apply Forall_app. split; [| now apply IH].
      eapply Hrec; [| exact H1].
      eapply Q_step; [exact Hq | right; exact C].
Qed.

Lemma stress_landlock_many_events : forall fuel path depth t,
  Q path ->
  stress_landlock_many fuel env path depth = Some t ->
  Forall P t.
Proof.
  induction fuel as [| fuel IH]; intros path depth t Hq H;
    [discriminate H|].
  rewrite stress_landlock_many_S in H. cbv zeta in H.
  destruct (many_create_ruleset env path <? 0).
  - injection H as <-.
    constructor; [now apply P_call|]. constructor; [apply P_create|].
    constructor; [apply P_log | constructor].
  - destruct (stress_landlock_many_entries env
                (stress_landlock_many fuel env) _ path depth _)
      as [te |] eqn:E; [| discriminate H].
    injection H as <-.
    constructor; [now apply P_call|]. constructor; [apply P_create|].
    constructor; [now apply P_scandir|].
    apply Forall_app. split; [| constructor; [apply P_close | constructor]].
    eapply stress_landlock_many_entries_events; [exact Hq | | exact E].
    intros p t1 Hp H1. eapply IH; eassumption.
Qed.

End EnumeratorEvents.

Lemma rule_anchored_app : forall env t1 t2,
  rule_anchored env t1 -> rule_anchored env t2 ->
  rule_anchored env (t1 ++ t2).
Proof.
  intros env ta tb Ha Hb rs a fd ret Hin.
  apply in_app_or in Hin as [Hin | Hin].
  - destruct (Ha _ _ _ _ Hin) as (Hfd & Hrs & t1 & t2 & p & Hp & ->).
    split; [exact Hfd|]. split; [exact Hrs|].
    exists t1, (t2 ++ tb), p. split; [exact Hp|].
    now rewrite <- !app_assoc.
  - destruct (Hb _ _ _ _ Hin) as (Hfd & Hrs & t1 & t2 & p & Hp & ->).
    split; [exact Hfd|]. split; [exact Hrs|].
    exists (ta ++ t1), t2, p. split; [exact Hp|].
    now rewrite <- !app_assoc.
Qed.

Lemma rule_anchored_without_rule : forall env t,
  (forall ev, In ev t -> is_add_rule ev = false) ->
  rule_anchored env t.
Proof.
  intros env t H rs a fd ret Hin. apply H in Hin. discriminate Hin.
Qed.

Lemma file_step_anchored : forall env fd r next t,
  0 <= fd ->
  many_realpath env r = Some r ->
  file_step env fd r next = Some t ->
  (forall t2, next = Some t2 -> rule_anchored env t2) ->
  rule_anchored env t.
Proof.
  intros env fd r next t Hfd Hr H Hnext. unfold file_step in H.
  destruct (ret_cases (many_open env r)) as [(A & B & _) | (A & B & _)];
    rewrite A in H.
  - injection H as <-. apply rule_anchored_without_rule.
    intros ev [<- | []]. reflexivity.
  - assert (H3 : rule_anchored env
                   [EvOpen r (Z.lor O_PATH O_NONBLOCK) (many_open env r);
                    EvAddRule fd (to_uint64 SHIM_LANDLOCK_ACCESS_FS_READ_FILE)
                      (many_open env r) (many_add_rule env r);
                    EvClose (many_open env r)]).
    { intros rs a fd' ret [E | [E | [E | []]]]; try discriminate E.
      injection E as <- <- <- <-.
      split; [now apply Z.leb_le|]. split; [exact Hfd|].
      exists [], [], r. split; [exact Hr | reflexivity]. }
    destruct (many_add_rule env r <? 0).
    + injection H as <-. exact H3.
    + destruct next as [t2 |]; [| discriminate H]. simpl in H.
      injection H as <-.
      change (?x :: ?y :: ?z :: t2) with ([x; y; z] ++ t2).
      apply rule_anchored_app; [exact H3 | now apply Hnext].
Qed.

Lemma stress_landlock_many_entries_anchored :
  forall env recur fd path depth,
    0 <= fd ->
    (forall p t, recur p (depth + 1) = Some t -> rule_anchored env t) ->
    forall namelist t,
      stress_landlock_many_entries env recur fd path depth namelist = Some t ->
      rule_anchored env t.
Proof.
  intros env recur fd path depth Hfd Hrec.
  induction namelist as [| d rest IH]; intros t H.
  - injection H as <-. apply rule_anchored_without_rule. intros ev [].
  - rewrite stress_landlock_many_entries_cons in H. cbv zeta in H.
    destruct (classify_entry env path d) as [| r | r] eqn:C.
    + now apply IH.
    + destruct (classify_entry_resolved env path d r (or_introl C))
        as (_ & Hr & _).
      eapply file_step_anchored; [exact Hfd | exact Hr | exact H | exact IH].
    + destruct (depth <? 30); [| now apply IH].
      apply dir_step_some in H as (t1 & t2 & H1 & H2 & ->).
      apply rule_anchored_app; [eapply Hrec; exact H1 | now apply IH].
Qed.

Lemma stress_landlock_many_anchored : forall fuel env path depth t,
  stress_landlock_many fuel env path depth = Some t ->
  rule_anchored env t.
Proof.
  induction fuel as [| fuel IH]; intros env path depth t H;
    [discriminate H|].
  rewrite stress_landlock_many_S in H. cbv zeta in H.
  destruct (ret_cases (many_create_ruleset env path))
    as [(A & B & _) | (A & B & _)]; rewrite A in H.
  - injection H as <-. apply rule_anchored_without_rule.
    intros ev [<- | [<- | [<- | []]]]; reflexivity.
  - destruct (stress_landlock_many_entries env (stress_landlock_many fuel env)
                _ path depth _) as [te |] eqn:E; [| discriminate H].
    injection H as <-.
    change (rule_anchored env
              ([EvCall path depth;
                EvCreateRuleset (Some SHIM_LANDLOCK_ACCESS_ALL) 0
                  (many_create_ruleset env path);
                EvScandir path (fst (scandir_filtered env path))]
               ++ te ++ [EvClose (many_create_ruleset env path)])).
    apply rule_anchored_app.
    { apply rule_anchored_without_rule.
      intros ev [<- | [<- | [<- | []]]]; reflexivity. }
    apply rule_anchored_app.
    + eapply stress_landlock_many_entries_anchored; [| | exact E].
      * now apply Z.leb_le.
      * intros p t1 H1. eapply IH. exact H1.
    + apply rule_anchored_without_rule. intros ev [<- | []]. reflexivity.
Qed.

(** X12: the enumerator never restricts itself: it issues no [prctl],
    no [landlock_restrict_self], no [unlink] and no process call.  Its
    rulesets all handle SHIM_LANDLOCK_ACCESS_ALL, its opens are all
    [O_PATH | O_NONBLOCK], and every rule it attaches grants read-file
    only, to the ruleset of the running call, on an anchor that was
    opened by the call just before, on a path that is its own real
    path, and that is closed by the call just after. *)
Theorem enumerator_only_builds_rulesets :
  forall (fuel : nat) (env : many_env) (path : string) (depth : Z) (t : trace),
    stress_landlock_many fuel env path depth = Some t ->
    Forall enumerator_event t /\ rule_anchored env t.
Proof.
  intros fuel env path depth t H. split.
  - apply (stress_landlock_many_events env (fun _ => True) enumerator_event)
      with (fuel := fuel) (path := path) (depth := depth);
      try (intros; exact I); try (intros; reflexivity); try exact H.
    intros. split; reflexivity.
  - eapply stress_landlock_many_anchored. exact H.
Qed.

Lemma enumerator_only_builds_rulesets_witness :
  Forall enumerator_event small_walk /\ rule_anchored many_env_small small_walk.
Proof.
  assert (S : stress_landlock_many 31 many_env_small "/" 0 = Some small_walk)
    by (vm_compute; reflexivity).
  exact (enumerator_only_builds_rulesets _ _ _ _ _ S).
Defined.

(** *** The paths the enumerator names *)

Lemma prefix_refl : forall s, prefix s s = true.
Proof.
  induction s as [| c s IH]; [reflexivity|]. simpl.
  destruct (Ascii.ascii_dec c c) as [_ | N]; [exact IH | contradiction].
Qed.

Lemma prefix_trans : forall a b c,
  prefix a b = true -> prefix b c = true -> prefix a c = true.
Proof.
  induction a as [| x a IH]; intros b c Hab Hbc.
  - destruct c; reflexivity.
  - destruct b as [| y b]; [discriminate Hab|].
    destruct c as [| z c]; [discriminate Hbc|].
    simpl in *.
    destruct (Ascii.ascii_dec x y) as [-> | N]; [| discriminate Hab].
    destruct (Ascii.ascii_dec y z) as [-> | N]; [| discriminate Hbc].
    eapply IH; eassumption.
Qed.

Lemma prefix_substring_app : forall s x n,
  (String.length s <= n)%nat ->
  prefix s (substring 0 n (s ++ x)) = true.
Proof.
  induction s as [| c s IH]; intros x n Hn.
  - destruct (substring 0 n ("" ++ x)); reflexivity.
  - destruct n as [| n]; [simpl in Hn; lia|]. simpl.
    destruct (Ascii.ascii_dec c c) as [_ | N]; [| contradiction].
    apply IH. simpl in Hn. lia.
Qed.

Lemma join_path_within : forall path name,
  (String.length path <= PATH_MAX - 1)%nat ->
  prefix path (join_path path name) = true
  /\ (String.length (join_path path name) <= PATH_MAX - 1)%nat.
Proof.
  intros path name Hlen. unfold join_path, snprintf_path.
  destruct (String.eqb_spec path "/") as [-> | N]; cbn [negb].
  - split; [| apply length_substring_0].
    apply (prefix_substring_app "/" name). simpl. lia.
  - split; [| apply length_substring_0].
    now apply prefix_substring_app.
Qed.

(** X13: a traversal started on a path that fits a [PATH_MAX] buffer
    names only paths below it: every path it lists, opens or enters
    has the starting path as a prefix and is at most [PATH_MAX - 1]
    characters long. *)
Theorem enumerator_stays_below_start :
  forall (fuel : nat) (env : many_env) (root : string) (depth : Z) (t : trace),
    (String.length root <= PATH_MAX - 1)%nat ->
    stress_landlock_many fuel env root depth = Some t ->
    Forall (within_tree root) t.
Proof.
  intros fuel env root depth t Hroot H.
  apply (stress_landlock_many_events env
           (fun p => prefix root p = true
                     /\ (String.length p <= PATH_MAX - 1)%nat)
           (within_tree root))
    with (fuel := fuel) (path := root) (depth := depth);
    try (intros; exact I); try (intros; assumption); try exact H.
  - intros path d r [Hpre Hlen] C.
    destruct (classify_entry_resolved env path d r C) as (-> & _ & _).
    destruct (join_path_within path (d_name d) Hlen) as [Hp Hl].
    split; [eapply prefix_trans; eassumption | exact Hl].
  - split; [apply prefix_refl | exact Hroot].
Qed.

Lemma enumerator_stays_below_start_witness :
  Forall (within_tree "/") small_walk.
Proof.
  assert (S : stress_landlock_many 31 many_env_small "/" 0 = Some small_walk)
    by (vm_compute; reflexivity).
  refine (enumerator_stays_below_start _ _ _ _ _ _ S).
  apply Nat.leb_le. vm_compute. reflexivity.
Defined.

(** ** The enumerator process *)

Lemma count_occ_zero_above : forall l,
  Forall (fun d => 0 < d <= 30) l -> count_occ Z.eq_dec l 0 = 0%nat.
Proof.
  intros l H. apply count_occ_not_In. intros Hin.
  rewrite Forall_forall in H. apply H in Hin. lia.
Qed.

Lemma stress_landlock_many_child_S : forall fuel inner envs keep round,
  stress_landlock_many_child (S fuel) inner envs keep round =
  match stress_landlock_many inner (envs round) "/" 0 with
  | None => None
  | Some t =>
      if keep round then
        match stress_landlock_many_child fuel inner envs keep (S round) with
        | None => None
        | Some (rc, t') => Some (rc, t ++ t')
        end
      else Some (0, t)
  end.
Proof. reflexivity. Qed.

(** X14: whatever the file system looks like in each round, the
    enumerator process gets through its rounds: when the framework
    says stop after round [n], the process has made [n + 1]
    traversals, each started at depth 0, and exits with status 0.
    Over the whole life of the process no call is deeper than 30, no
    descriptor outlives its round and at most 32 are held at once. *)
Theorem enumerator_process_rounds :
  forall (envs : nat -> many_env) (keep : nat -> bool) (n round : nat),
    (forall m, (m < n)%nat -> keep (round + m)%nat = true) ->
    keep (round + n)%nat = false ->
    exists t,
      stress_landlock_many_child (S n) 31 envs keep round = Some (0, t)
      /\ count_occ Z.eq_dec (call_depths t) 0 = S n
      /\ Forall (fun d => 0 <= d <= 30) (call_depths t)
      /\ exists peak,
           replay_fds [] t = Some ([], peak) /\ (peak <= 32)%nat.
Proof.
  intros envs keep. induction n as [| n IH]; intros round Ht Hs;
    rewrite stress_landlock_many_child_S;
    destruct (stress_landlock_many_total 31 (envs round) "/" 0) as [t Hrun];
    try (simpl; lia);
    rewrite Hrun;
    destruct (stress_landlock_many_depths _ _ _ _ _ Hrun)
      as (rest & Ed & [Hall _] & _);
    destruct (stress_landlock_many_fds _ _ _ _ _ Hrun) as (pk & Rp & Bp);
    change (Z.to_nat (Z.max 2 (32 - 0))) with 32%nat in Bp;
    assert (Hone : count_occ Z.eq_dec (call_depths t) 0 = 1%nat)
      by (rewrite Ed; simpl; now rewrite count_occ_zero_above);
    assert (Hin : Forall (fun d => 0 <= d <= 30) (call_depths t))
      by (rewrite Ed; constructor; [lia|];
          eapply Forall_impl; [| exact Hall]; cbv beta; intros; lia).
  - rewrite Nat.add_0_r in Hs. rewrite Hs.
    exists t. split; [reflexivity|]. split; [exact Hone|].
    split; [exact Hin|]. exists pk. split; assumption.
  - assert (Hk : keep round = true)
      by (rewrite <- (Nat.add_0_r round); apply Ht; lia).
    rewrite Hk.
    destruct (IH (S round)) as (t' & Hc & Hcount & Hdepth & pk' & Rp' & Bp').
    + intros m Hm. replace (S round + m)%nat with (round + S m)%nat by lia.
      apply Ht. lia.
    + now replace (S round + n)%nat with (round + S n)%nat by lia.
    + rewrite Hc. exists (t ++ t'). split; [reflexivity|].
      rewrite call_depths_app. split; [| split].
      * rewrite count_occ_app, Hone, Hcount. reflexivity.
      * apply Forall_app. now split.
      * rewrite replay_fds_app, Rp, Rp'. eexists. split; [reflexivity | lia].
Qed.

Lemma enumerator_process_rounds_witness :
  exists t,
    stress_landlock_many_child 3 31
      (fun r => if Nat.even r then many_env_small else many_env_chain)
      (fun r => (r <? 2)%nat) 0
    = Some (0, t)
    /\ count_occ Z.eq_dec (call_depths t) 0 = 3%nat.
Proof.
  destruct (enumerator_process_rounds
              (fun r => if Nat.even r then many_env_small else many_env_chain)
              (fun r => (r <? 2)%nat) 2 0) as (t & Hc & Hn & _).
  - intros m Hm. destruct m as [| [| m]]; [reflexivity | reflexivity | lia].
  - reflexivity.
  - exists t. split; [exact Hc | exact Hn].
Defined.

(** ** The capability probe *)

(** X15: the probe asks the kernel for a ruleset handling the single
    flag read-file.  It returns 0 exactly when the kernel hands back a
    descriptor, which it closes at once; otherwise it returns -1 after
    one skip message, worded after whether [errno] is ENOSYS, and has
    opened nothing. *)
Theorem stress_landlock_supported_verdict :
  forall (k : supported_env),
    let rc := fst (stress_landlock_supported k) in
    let t := snd (stress_landlock_supported k) in
    (0 <= probe_ret k -> rc = 0 /\ count_events is_log t = 0%nat)
    /\ (probe_ret k < 0 -> rc = -1 /\ count_events is_log t = 1%nat)
    /\ (exists peak, replay_fds [] t = Some ([], peak) /\ (peak <= 1)%nat)
    /\ hd_error t
       = Some (EvCreateRuleset (Some SHIM_LANDLOCK_ACCESS_FS_READ_FILE) 0
                 (probe_ret k))
    /\ is_atomic_flag SHIM_LANDLOCK_ACCESS_FS_READ_FILE = true.
Proof.
  intros k rc t. subst rc t. unfold stress_landlock_supported.
  rewrite fst_emit, snd_emit.
  destruct (ret_cases (probe_ret k)) as [(A & B & _) | (A & B & _)];
    rewrite A.
  - apply Z.ltb_lt in A as Hlt.
    split; [intros; lia|]. split; [| split; [| split; reflexivity]].
    + intros _. destruct (probe_errno k =? ENOSYS); split; reflexivity.
    + destruct (probe_errno k =? ENOSYS);
        cbn [app snd replay_fds step_fds opens_fd]; rewrite B;
        cbn [replay_fds List.length]; eexists; (split; [reflexivity | lia]).
  - apply Z.ltb_ge in A as Hge.
    split; [intros _; split; reflexivity|].
    split; [intros; lia|]. split; [| split; reflexivity].
    cbn [app snd replay_fds step_fds opens_fd]. rewrite B.
    cbn [replay_fds step_fds]. rewrite Z.eqb_refl.
    cbn [replay_fds List.length]. eexists. split; [reflexivity | lia].
Qed.

Lemma stress_landlock_supported_verdict_witness :
  fst (stress_landlock_supported supported_env_ok) = 0
  /\ fst (stress_landlock_supported supported_env_enosys) = -1.
Proof.
  split.
  - exact (proj1 (proj1 (stress_landlock_supported_verdict supported_env_ok)
                    (proj1 (Z.leb_le 0 3) eq_refl))).
  - exact (proj1 (proj1 (proj2 (stress_landlock_supported_verdict
                                  supported_env_enosys))
                    (proj1 (Z.ltb_lt (-1) 0) eq_refl))).
Defined.

(** ** Failures inside a directory *)

Lemma stress_landlock_many_entries_cut :
  forall env recur fd path depth d r,
    classify_entry env path d = EntryFile r ->
    many_open env r < 0 \/ many_add_rule env r < 0 ->
    forall after,
      stress_landlock_many_entries env recur fd path depth (d :: after)
      = Some
          (if many_open env r <? 0
           then [EvOpen r (Z.lor O_PATH O_NONBLOCK) (many_open env r)]
           else [EvOpen r (Z.lor O_PATH O_NONBLOCK) (many_open env r);
                 EvAddRule fd (to_uint64 SHIM_LANDLOCK_ACCESS_FS_READ_FILE)
                   (many_open env r) (many_add_rule env r);
                 EvClose (many_open env r)]).
Proof.
  intros env recur fd path depth d r C Hfail after.
  rewrite stress_landlock_many_entries_cons. cbv zeta. rewrite C.
  unfold file_step.
  destruct (Z.ltb_spec (many_open env r) 0) as [Ho | Ho]; [reflexivity|].
  destruct (Z.ltb_spec (many_add_rule env r) 0) as [Ha | Ha]; [reflexivity|].
  lia.
Qed.

(** X16: a file or link whose anchor cannot be opened, or whose rule
    the kernel rejects, ends the loop over its directory: the entries
    listed after it play no part in what the call does, and the last
    thing done for the directory before its ruleset is closed is the
    failed [open], or the [close] of the anchor after the failed
    [add_rule]. *)
Theorem failed_anchor_ends_directory :
  forall (env : many_env) (recur : string -> Z -> option trace)
         (fd : Z) (path : string) (depth : Z)
         (before : list dirent) (d : dirent) (after : list dirent)
         (r : string),
    classify_entry env path d = EntryFile r ->
    many_open env r < 0 \/ many_add_rule env r < 0 ->
    stress_landlock_many_entries env recur fd path depth
      (before ++ d :: after)
    = stress_landlock_many_entries env recur fd path depth (before ++ [d])
    /\ forall t,
         stress_landlock_many_entries env recur fd path depth
           (before ++ d :: after) = Some t ->
         exists t0,
           t = t0
               ++ (if many_open env r <? 0
                   then [EvOpen r (Z.lor O_PATH O_NONBLOCK) (many_open env r)]
                   else [EvOpen r (Z.lor O_PATH O_NONBLOCK) (many_open env r);
                         EvAddRule fd
                           (to_uint64 SHIM_LANDLOCK_ACCESS_FS_READ_FILE)
                           (many_open env r) (many_add_rule env r);
                         EvClose (many_open env r)])
           \/ stress_landlock_many_entries env recur fd path depth before
              = Some t.
Proof.
  intros env recur fd path depth before d after r C Hfail.
  induction before as [| b before [IHeq IHt]].
  - split.
    + cbn [app].
      now rewrite !(stress_landlock_many_entries_cut _ _ _ _ _ _ _ C Hfail).
    + intros t H. cbn [app] in H.
      rewrite (stress_landlock_many_entries_cut _ _ _ _ _ _ _ C Hfail) in H.
      injection H as <-. exists []. left. reflexivity.
  - split.
    + cbn [app]. rewrite !stress_landlock_many_entries_cons. cbv zeta.
      now rewrite IHeq.
    + intros t H. cbn [app] in H.
      rewrite stress_landlock_many_entries_cons in H. cbv zeta in H.
      rewrite (stress_landlock_many_entries_cons _ _ _ _ _ b before).
      cbv zeta.
      destruct (classify_entry env path b) as [| rb | rb].
      * apply IHt in H as (t0 & [-> | H]); [exists t0; now left|].
        exists []. now right.
      * unfold file_step in H |- *.
        destruct (many_open env rb <? 0); [exists []; now right|].
        destruct (many_add_rule env rb <? 0); [exists []; now right|].
        destruct (stress_landlock_many_entries env recur fd path depth
                    (before ++ d :: after)) as [tn |] eqn:En;
          [| discriminate H].
        simpl in H. injection H as <-.
        destruct (IHt tn eq_refl) as (t0 & [-> | Hb]).
        -- eexists (_ :: _ :: _ :: t0). left. reflexivity.
        -- exists []. right. now rewrite Hb.
      * destruct (depth <? 30).
        -- apply dir_step_some in H as (t1 & t2 & H1 & H2 & ->).
           rewrite H1.
           destruct (IHt t2 H2) as (t0 & [-> | Hb]).
           ++ exists (t1 ++ t0). left. now rewrite app_assoc.
           ++ exists []. right. now rewrite Hb.
        -- apply IHt in H as (t0 & [-> | H]); [exists t0; now left|].
           exists []. now right.
Qed.

Lemma failed_anchor_ends_directory_witness :
  stress_landlock_many_entries many_env_refusing
    (stress_landlock_many 30 many_env_refusing) 3 "/" 0
    [ {| d_name := "a"; d_type := DT_REG |};
      {| d_name := "d"; d_type := DT_DIR |} ]
  = Some [EvOpen "/a" (Z.lor O_PATH O_NONBLOCK) (-1)].
Proof.
  assert (C : classify_entry many_env_refusing "/"
                {| d_name := "a"; d_type := DT_REG |} = EntryFile "/a")
    by reflexivity.
  assert (F : many_open many_env_refusing "/a" < 0
              \/ many_add_rule many_env_refusing "/a" < 0)
    by (left; reflexivity).
  pose proof (proj1 (failed_anchor_ends_directory many_env_refusing
                       (stress_landlock_many 30 many_env_refusing) 3 "/" 0
                       [] {| d_name := "a"; d_type := DT_REG |}
                       [ {| d_name := "d"; d_type := DT_DIR |} ] "/a" C F))
    as E.
  cbn [app] in E. rewrite E. reflexivity.
Defined.
